(** * evm-test: the EVM command line helper and its client wrapper

    A shallow embedding of [evm_cli.py] and [evm_client/client.py].
    Python values are an inductive type, exceptions are an error monad,
    the RPC traffic and the two output streams are threaded as state. *)

From Stdlib Require Import ZArith NArith List String Ascii Bool Lia.
From Stdlib Require Import Strings.Byte DecimalString.
From Stdlib Require Import Floats.SpecFloat.
From stdpp Require Import base option list strings gmap.

Local Open Scope string_scope.
Local Open Scope list_scope.

(** ** Exceptions *)

(** The exception classes the two modules raise, catch or let through.
    [RPCConnectionError] is declared in [client.py] as a subclass of
    [RuntimeError]; [JSONDecodeError] is a subclass of [ValueError] in the
    [json] module; [SystemExit] is what [argparse] raises to leave. *)
Inductive exc_class :=
| Exception
| TypeError
| ValueError
| RuntimeError
| AttributeError
| AssertionError
| JSONDecodeError
| RPCConnectionError
| SystemExit (code : Z)
| UserError (name : string) (base : exc_class).

Definition same_class (c d : exc_class) : bool :=
  match c, d with
  | Exception, Exception | TypeError, TypeError | ValueError, ValueError
  | RuntimeError, RuntimeError | AttributeError, AttributeError
  | AssertionError, AssertionError | JSONDecodeError, JSONDecodeError
  | RPCConnectionError, RPCConnectionError => true
  | _, _ => false
  end.

(** [issubclass c d] for a built-in class [d]: walk the bases of [c]. *)
Fixpoint issubclass (c d : exc_class) : bool :=
  same_class c d ||
  match c with
  | JSONDecodeError => same_class ValueError d || same_class Exception d
  | RPCConnectionError => same_class RuntimeError d || same_class Exception d
  | UserError _ b => issubclass b d
  | Exception | SystemExit _ => false
  | _ => same_class Exception d
  end.

Record exc := Exc { exc_type : exc_class; exc_msg : string }.

(** [except cls] catches [e] when [isinstance(e, cls)]. *)
Definition isinstance_exc (e : exc) (cls : exc_class) : bool :=
  issubclass (exc_type e) cls.

Inductive result (A : Type) :=
| Ok (a : A)
| Raise (e : exc).
Arguments Ok {A} a.
Arguments Raise {A} e.

Definition bind {A B} (r : result A) (k : A -> result B) : result B :=
  match r with
  | Ok a => k a
  | Raise e => Raise e
  end.

Declare Scope result_scope.
Delimit Scope result_scope with result.
Notation "'let*' x := r 'in' k" := (bind r (fun x => k))
  (at level 10, x name, r at level 100, k at level 200) : result_scope.
Local Open Scope result_scope.

(** A comprehension over a list: left to right, the first exception ends it. *)
Definition mapM {A B} (f : A -> result B) : list A -> result (list B) :=
  fix go l :=
    match l with
    | [] => Ok []
    | x :: tl => let* y := f x in let* ys := go tl in Ok (y :: ys)
    end.

(** ** Python values *)

(** binary64, the format of a Python [float]. *)
Definition prec : Z := 53.
Definition emax : Z := 1024.

(** A [decimal.Decimal]: sign, coefficient and exponent. *)
Record decimal := Dec { dec_sign : bool; dec_int : N; dec_exp : Z }.

(** The values [_normalise] can meet.  [PAttributeDict] is web3's
    [AttributeDict]; [PDict] is a plain [dict]; both keep their items in
    insertion order.  [PObject] is an instance of any other class, with
    what its [hex] attribute does. *)
#[local] Unset Elimination Schemes.
Inductive pyval :=
| PNone
| PBool (b : bool)
| PInt (n : Z)
| PFloat (x : spec_float)
| PStr (s : string)
| PDecimal (d : decimal)
| PBytes (b : list byte)
| PList (items : list pyval)
| PTuple (items : list pyval)
| PDict (items : list (string * pyval))
| PAttributeDict (items : list (string * pyval))
| PObject (cls : string) (hex : hexattr)
with hexattr :=
| HexMissing                 (* no attribute called hex *)
| HexNotCallable             (* an attribute, not callable *)
| HexReturns (r : pyval)     (* value.hex() returns r *)
| HexRaises (e : exc).       (* value.hex() raises e *)
#[local] Set Elimination Schemes.

(** ** [bytes.hex] *)

Definition Py_hexdigits : string := "0123456789abcdef".

Definition hexdigit (n : N) : ascii :=
  match String.get (N.to_nat n) Py_hexdigits with
  | Some c => c
  | None => "0"%char
  end.

Definition byte_hex (c : byte) : string :=
  String (hexdigit (N.shiftr (Byte.to_N c) 4))
    (String (hexdigit (N.land (Byte.to_N c) 15)) EmptyString).

Fixpoint bytes_hex (b : list byte) : string :=
  match b with
  | [] => ""
  | c :: tl => byte_hex c +:+ bytes_hex tl
  end.

(** [bytes.fromhex] on a string without blanks, to state the round trip. *)
Definition unhexdigit (c : ascii) : option N :=
  let n := N_of_ascii c in
  if (48 <=? n)%N && (n <=? 57)%N then Some (n - 48)%N
  else if (97 <=? n)%N && (n <=? 102)%N then Some (n - 87)%N
  else if (65 <=? n)%N && (n <=? 70)%N then Some (n - 55)%N
  else None.



(** ** [float.hex] *)

Definition str_of_Z (z : Z) : string := NilZero.string_of_int (Z.to_int z).

Definition DBL_MIN_EXP : Z := -1021.

(** [(int)m] for a double [m >= 0]. *)
Definition SFtrunc (m : spec_float) : Z :=
  match m with
  | S754_finite s mx ex =>
      let a := match ex with
               | Zneg p => Z.shiftr (Zpos mx) (Zpos p)
               | _ => Z.shiftl (Zpos mx) ex
               end in
      if s then (- a)%Z else a
  | _ => 0%Z
  end.

Definition SFofZ (z : Z) : spec_float := binary_normalize prec emax z 0 false.

(** The digit loop of [float_hex_impl]: peel [n] hex digits off [m]. *)
Fixpoint hex_fraction (n : nat) (m : spec_float) : string :=
  match n with
  | O => ""
  | S n' =>
      let m := SFmul prec emax m (SFofZ 16) in
      let d := SFtrunc m in
      String (hexdigit (Z.to_N d))
        (hex_fraction n' (SFsub prec emax m (SFofZ d)))
  end.

(** CPython's [float.hex]: [nan] and the infinities print as [repr] does,
    zero has its own text, and a finite number is scaled so that its
    leading digit is 1 (0 for a subnormal) and then printed with 13 hex
    digits and the binary exponent. *)
Definition float_hex (x : spec_float) : string :=
  match x with
  | S754_nan => "nan"
  | S754_infinity s => if s then "-inf" else "inf"
  | S754_zero s => if s then "-0x0.0p+0" else "0x0.0p+0"
  | S754_finite s _ _ =>
      let '(m, e) := SFfrexp prec emax (SFabs x) in
      let shift := (1 - Z.max (DBL_MIN_EXP - e) 0)%Z in
      let m := SFldexp prec emax m shift in
      let e := (e - shift)%Z in
      let d := SFtrunc m in
      let digits :=
        String (hexdigit (Z.to_N d))
          (String "."%char (hex_fraction 13 (SFsub prec emax m (SFofZ d)))) in
      let esign := if (e <? 0)%Z then "-" else "+" in
      (if s then "-0x" else "0x") +:+ digits +:+ "p" +:+ esign
        +:+ str_of_Z (Z.abs e)
  end.

(** ** [evm_cli._normalise] *)

Definition normalise_item (f : pyval -> result pyval) (kv : string * pyval)
  : result (string * pyval) :=
  let* v := f (snd kv) in Ok (fst kv, v).

Fixpoint _normalise (value : pyval) : result pyval :=
  match value with
  | PAttributeDict items =>
      let* d := mapM (normalise_item _normalise) items in Ok (PDict d)
  | PList items =>
      let* l := mapM _normalise items in Ok (PList l)
  | PTuple items =>
      let* l := mapM _normalise items in Ok (PTuple l)
  | PBytes b => Ok (PStr (bytes_hex b))
  | PFloat x => Ok (PStr (float_hex x))
  | PObject _ (HexReturns r) => Ok r
  | PObject _ (HexRaises e) =>
      if isinstance_exc e TypeError then Ok value else Raise e
  | _ => Ok value
  end.


(** The float 1.5. *)
Definition one_and_a_half : spec_float :=
  S754_finite false 6755399441055744 (-52).

(** What the idempotence of [_normalise] needs of the objects it probes:
    where the walk reaches an object whose [hex] is callable and returns,
    it returns a [str], as the [hex] of [float], [bytes], [bytearray] and
    [memoryview] does. *)
Fixpoint hex_returns_str (v : pyval) : bool :=
  match v with
  | PAttributeDict items => forallb (fun kv => hex_returns_str (snd kv)) items
  | PList items | PTuple items => forallb hex_returns_str items
  | PObject _ (HexReturns r) => match r with PStr _ => true | _ => false end
  | _ => true
  end.


Fixpoint string_forallb (p : ascii -> bool) (s : string) : bool :=
  match s with
  | EmptyString => true
  | String c tl => p c && string_forallb p tl
  end.

(** ** Induction on values *)

Section pyval_induction.
Variable P : pyval -> Prop.
Hypothesis HNone : P PNone.
Hypothesis HBool : forall b, P (PBool b).
Hypothesis HInt : forall n, P (PInt n).
Hypothesis HFloat : forall x, P (PFloat x).
Hypothesis HStr : forall s, P (PStr s).
Hypothesis HDecimal : forall d, P (PDecimal d).
Hypothesis HBytes : forall b, P (PBytes b).
Hypothesis HList : forall items, Forall P items -> P (PList items).
Hypothesis HTuple : forall items, Forall P items -> P (PTuple items).
Hypothesis HDict :
  forall items, Forall (fun kv => P (snd kv)) items -> P (PDict items).
Hypothesis HAttributeDict :
  forall items, Forall (fun kv => P (snd kv)) items ->
                P (PAttributeDict items).
Hypothesis HObject : forall cls h, P (PObject cls h).

Fixpoint pyval_ind (v : pyval) : P v :=
  let all :=
    fix all (l : list pyval) : Forall P l :=
      match l with
      | [] => @List.Forall_nil _ P
      | x :: tl => @List.Forall_cons _ P x tl (pyval_ind x) (all tl)
      end in
  let all_items :=
    fix all_items (l : list (string * pyval))
      : Forall (fun kv => P (snd kv)) l :=
      match l with
      | [] => @List.Forall_nil _ _
      | kv :: tl =>
          @List.Forall_cons _ (fun kv => P (snd kv)) kv tl
            (pyval_ind (snd kv)) (all_items tl)
      end in
  match v with
  | PNone => HNone
  | PBool b => HBool b
  | PInt n => HInt n
  | PFloat x => HFloat x
  | PStr s => HStr s
  | PDecimal d => HDecimal d
  | PBytes b => HBytes b
  | PList items => HList items (all items)
  | PTuple items => HTuple items (all items)
  | PDict items => HDict items (all_items items)
  | PAttributeDict items => HAttributeDict items (all_items items)
  | PObject cls h => HObject cls h
  end.
End pyval_induction.

(** ** [json.loads]

    The decoder of Python's [json] module with its default settings, on the
    text as a sequence of bytes (a [str] stands for its UTF-8 encoding; the
    JSON syntax is ASCII, and the bytes of other characters are copied).
    Every failure is a [JSONDecodeError]; its message and position are not
    modelled, nor is the recursion limit. *)

Definition is_ws (c : ascii) : bool :=
  let n := N_of_ascii c in
  (n =? 32)%N || (n =? 9)%N || (n =? 10)%N || (n =? 13)%N.

Definition is_digit (c : ascii) : bool :=
  let n := N_of_ascii c in (48 <=? n)%N && (n <=? 57)%N.

Fixpoint skip_ws (s : string) : string :=
  match s with
  | String c tl => if is_ws c then skip_ws tl else s
  | EmptyString => s
  end.

(** The longest run of decimal digits in front of [s], and what follows. *)
Fixpoint span_digits (s : string) : string * string :=
  match s with
  | String c tl =>
      if is_digit c then
        let '(d, r) := span_digits tl in (String c d, r)
      else (EmptyString, s)
  | EmptyString => (EmptyString, s)
  end.

Fixpoint digits_value (acc : N) (d : string) : N :=
  match d with
  | String c tl => digits_value (10 * acc + (N_of_ascii c - 48))%N tl
  | EmptyString => acc
  end.

(** [float(text)] for a decimal numeral: the binary64 nearest to
    [m * 10^e10], ties to even. *)
Definition float_of_decimal (neg : bool) (m : N) (e10 : Z) : spec_float :=
  match m with
  | N0 => S754_zero neg
  | Npos p =>
      match e10 with
      | Zneg k =>
          let '(q, e, l) :=
            SFdiv_core_binary prec emax (Zpos p) 0 (Z.pow 10 (Zpos k)) 0 in
          binary_round_aux prec emax neg q e l
      | _ => binary_round prec emax neg (Z.to_pos (Zpos p * Z.pow 10 e10)) 0
      end
  end.

(** [NUMBER_RE]: an optional minus, then 0 or a numeral without leading
    zero; then, optionally, a point and digits; then, optionally, [e] or
    [E], a sign and digits.  A part that does not match is left unread. *)
Definition match_number (s : string) : option (pyval * string) :=
  let '(neg, s1) :=
    match s with
    | String c tl => if Ascii.eqb c "-" then (true, tl) else (false, s)
    | EmptyString => (false, s)
    end in
  let integer :=
    match s1 with
    | String c tl =>
        if Ascii.eqb c "0" then Some ("0", tl)
        else if is_digit c then Some (span_digits s1) else None
    | EmptyString => None
    end in
  match integer with
  | None => None
  | Some (int_digits, r1) =>
      let '(frac, r2) :=
        match r1 with
        | String c tl =>
            if Ascii.eqb c "." then
              match span_digits tl with
              | (EmptyString, _) => (None, r1)
              | (fd, r) => (Some fd, r)
              end
            else (None, r1)
        | EmptyString => (None, r1)
        end in
      let '(exp, r3) :=
        match r2 with
        | String c tl =>
            if Ascii.eqb c "e" || Ascii.eqb c "E" then
              let '(eneg, tl') :=
                match tl with
                | String sg t =>
                    if Ascii.eqb sg "-" then (true, t)
                    else if Ascii.eqb sg "+" then (false, t)
                    else (false, tl)
                | EmptyString => (false, tl)
                end in
              match span_digits tl' with
              | (EmptyString, _) => (None, r2)
              | (ed, r) =>
                  let v := Z.of_N (digits_value 0 ed) in
                  (Some (if eneg then (- v)%Z else v), r)
              end
            else (None, r2)
        | EmptyString => (None, r2)
        end in
      match frac, exp with
      | None, None =>
          let v := Z.of_N (digits_value 0 int_digits) in
          Some (PInt (if neg then (- v)%Z else v), r3)
      | _, _ =>
          let fd := match frac with Some fd => fd | None => EmptyString end in
          let e := match exp with Some e => e | None => 0%Z end in
          Some (PFloat (float_of_decimal neg
                          (digits_value 0 (int_digits +:+ fd))
                          (e - Z.of_nat (String.length fd))), r3)
      end
  end.

(** The UTF-8 bytes of a code point (a lone surrogate is encoded likewise). *)
Definition utf8_encode (cp : N) : string :=
  let b (n : N) := String (ascii_of_N n) EmptyString in
  (if cp <? 128 then b cp
   else if cp <? 2048 then
     b (192 + N.shiftr cp 6) +:+ b (128 + N.land cp 63)
   else if cp <? 65536 then
     b (224 + N.shiftr cp 12) +:+ b (128 + N.land (N.shiftr cp 6) 63)
       +:+ b (128 + N.land cp 63)
   else
     b (240 + N.shiftr cp 18) +:+ b (128 + N.land (N.shiftr cp 12) 63)
       +:+ b (128 + N.land (N.shiftr cp 6) 63) +:+ b (128 + N.land cp 63))%N.

(** Four hex digits after [\u]. *)
Definition decode_uXXXX (s : string) : option (N * string) :=
  match s with
  | String a (String b (String c (String d tl))) =>
      match unhexdigit a, unhexdigit b, unhexdigit c, unhexdigit d with
      | Some x, Some y, Some z, Some w =>
          Some (((x * 16 + y) * 16 + z) * 16 + w, tl)%N
      | _, _, _, _ => None
      end
  | _ => None
  end.

Definition dquote : ascii := ascii_of_N 34.
Definition backslash : ascii := ascii_of_N 92.

(** [scanstring] after the opening quote, in strict mode. *)
Fixpoint scanstring (s : string) : option (string * string) :=
  match s with
  | EmptyString => None
  | String c tl =>
      if Ascii.eqb c dquote then Some (EmptyString, tl)
      else if (N_of_ascii c <? 32)%N then None
      else if Ascii.eqb c backslash then
        match tl with
        | String e tl' =>
            let simple (ch : N) :=
              match scanstring tl' with
              | Some (r, rest) => Some (String (ascii_of_N ch) r, rest)
              | None => None
              end in
            if Ascii.eqb e dquote then simple 34%N
            else if Ascii.eqb e backslash then simple 92%N
            else if Ascii.eqb e "/" then simple 47%N
            else if Ascii.eqb e "b" then simple 8%N
            else if Ascii.eqb e "f" then simple 12%N
            else if Ascii.eqb e "n" then simple 10%N
            else if Ascii.eqb e "r" then simple 13%N
            else if Ascii.eqb e "t" then simple 9%N
            else if Ascii.eqb e "u" then
              match tl' with
              | String a (String b (String c0 (String d t4))) =>
                  match decode_uXXXX tl' with
                  | Some (uni, _) =>
                      (* a high surrogate followed by a low one is one
                         character *)
                      let pair :=
                        if (55296 <=? uni)%N && (uni <=? 56319)%N then
                          match t4 with
                          | String b1 (String b2 t5) =>
                              if Ascii.eqb b1 backslash && Ascii.eqb b2 "u"
                              then
                                match decode_uXXXX t5 with
                                | Some (uni2, _) =>
                                    if (56320 <=? uni2)%N && (uni2 <=? 57343)%N
                                    then Some (65536 + N.lor
                                           (N.shiftl (uni - 55296) 10)
                                           (uni2 - 56320))%N
                                    else None
                                | None => None
                                end
                              else None
                          | _ => None
                          end
                        else None in
                      match pair, t4 with
                      | Some cp, String _ (String _ (String _ (String _
                          (String _ (String _ t6))))) =>
                          match scanstring t6 with
                          | Some (r, rest) => Some (utf8_encode cp +:+ r, rest)
                          | None => None
                          end
                      | _, _ =>
                          match scanstring t4 with
                          | Some (r, rest) => Some (utf8_encode uni +:+ r, rest)
                          | None => None
                          end
                      end
                  | None => None
                  end
              | _ => None
              end
            else None
        | EmptyString => None
        end
      else
        match scanstring tl with
        | Some (r, rest) => Some (String c r, rest)
        | None => None
        end
  end.

(** [d[k] = v] on an insertion-ordered dict. *)
Fixpoint dict_set (k : string) (v : pyval) (d : list (string * pyval))
  : list (string * pyval) :=
  match d with
  | [] => [(k, v)]
  | (k', v') :: tl =>
      if String.eqb k k' then (k', v) :: tl else (k', v') :: dict_set k v tl
  end.

(** [dict(pairs)]: a repeated key keeps its first place and its last value. *)
Definition dict_of_pairs (pairs : list (string * pyval))
  : list (string * pyval) :=
  fold_left (fun d kv => dict_set (fst kv) (snd kv) d) pairs [].

(** [s] without its prefix [p], when it starts with it. *)
Fixpoint strip_prefix (p s : string) : option string :=
  match p, s with
  | EmptyString, _ => Some s
  | String a p', String b s' =>
      if Ascii.eqb a b then strip_prefix p' s' else None
  | String _ _, EmptyString => None
  end.

(** [scan_once], [JSONArray] and [JSONObject].  [parse_items] starts at a
    value of an array, [parse_pairs] after the opening quote of a key.  The
    recursion is bounded by [fuel]; [json_loads] gives enough of it for the
    whole text. *)
Fixpoint scan_once (fuel : nat) (s : string) : option (pyval * string) :=
  match fuel with
  | O => None
  | S fuel' =>
      match s with
      | EmptyString => None
      | String c tl =>
          if Ascii.eqb c dquote then
            match scanstring tl with
            | Some (str, r) => Some (PStr str, r)
            | None => None
            end
          else if Ascii.eqb c "{" then
            match skip_ws tl with
            | String c' r =>
                if Ascii.eqb c' "}" then Some (PDict [], r)
                else if Ascii.eqb c' dquote then
                  match parse_pairs fuel' r with
                  | Some (pairs, r') => Some (PDict (dict_of_pairs pairs), r')
                  | None => None
                  end
                else None
            | EmptyString => None
            end
          else if Ascii.eqb c "[" then
            match skip_ws tl with
            | String c' r =>
                if Ascii.eqb c' "]" then Some (PList [], r)
                else
                  match parse_items fuel' (String c' r) with
                  | Some (values, r') => Some (PList values, r')
                  | None => None
                  end
            | EmptyString => None
            end
          else
            match strip_prefix "null" s, strip_prefix "true" s,
                  strip_prefix "false" s with
            | Some r, _, _ => Some (PNone, r)
            | _, Some r, _ => Some (PBool true, r)
            | _, _, Some r => Some (PBool false, r)
            | None, None, None =>
                match match_number s with
                | Some res => Some res
                | None =>
                    match strip_prefix "NaN" s, strip_prefix "Infinity" s,
                          strip_prefix "-Infinity" s with
                    | Some r, _, _ => Some (PFloat S754_nan, r)
                    | _, Some r, _ => Some (PFloat (S754_infinity false), r)
                    | _, _, Some r => Some (PFloat (S754_infinity true), r)
                    | None, None, None => None
                    end
                end
            end
      end
  end
with parse_items (fuel : nat) (s : string) : option (list pyval * string) :=
  match fuel with
  | O => None
  | S fuel' =>
      match scan_once fuel' s with
      | None => None
      | Some (value, r) =>
          match skip_ws r with
          | String c r' =>
              if Ascii.eqb c "]" then Some ([value], r')
              else if Ascii.eqb c "," then
                match parse_items fuel' (skip_ws r') with
                | Some (values, r'') => Some (value :: values, r'')
                | None => None
                end
              else None
          | EmptyString => None
          end
      end
  end
with parse_pairs (fuel : nat) (s : string)
  : option (list (string * pyval) * string) :=
  match fuel with
  | O => None
  | S fuel' =>
      match scanstring s with
      | None => None
      | Some (key, r) =>
          match skip_ws r with
          | String colon r1 =>
              if negb (Ascii.eqb colon ":") then None else
              match scan_once fuel' (skip_ws r1) with
              | None => None
              | Some (value, r2) =>
                  match skip_ws r2 with
                  | String c r3 =>
                      if Ascii.eqb c "}" then Some ([(key, value)], r3)
                      else if Ascii.eqb c "," then
                        match skip_ws r3 with
                        | String q r4 =>
                            if Ascii.eqb q dquote then
                              match parse_pairs fuel' r4 with
                              | Some (pairs, r5) =>
                                  Some ((key, value) :: pairs, r5)
                              | None => None
                              end
                            else None
                        | EmptyString => None
                        end
                      else None
                  | EmptyString => None
                  end
              end
          | _ => None
          end
      end
  end.

Definition json_loads (s : string) : result pyval :=
  match scan_once (2 * String.length s + 2) (skip_ws s) with
  | Some (obj, r) =>
      match skip_ws r with
      | EmptyString => Ok obj
      | _ => Raise (Exc JSONDecodeError "Extra data")
      end
  | None => Raise (Exc JSONDecodeError "Expecting value")
  end.

(** ** [evm_cli._load_params] *)

Definition load_param (value : string) : result pyval :=
  match json_loads value with
  | Ok parsed => Ok parsed
  | Raise e =>
      if isinstance_exc e JSONDecodeError then Ok (PStr value) else Raise e
  end.

Definition _load_params (params : list string) : result (list pyval) :=
  mapM load_param params.


(** ** [eth_utils]: checksum addresses *)

Definition is_hexdigit (c : ascii) : bool :=
  match unhexdigit c with Some _ => true | None => false end.

(** [str.lower] and [str.upper] on the ASCII letters. *)
Definition lower_char (c : ascii) : ascii :=
  let n := N_of_ascii c in
  if (65 <=? n)%N && (n <=? 90)%N then ascii_of_N (n + 32) else c.

Definition upper_char (c : ascii) : ascii :=
  let n := N_of_ascii c in
  if (97 <=? n)%N && (n <=? 122)%N then ascii_of_N (n - 32) else c.

Fixpoint str_lower (s : string) : string :=
  match s with
  | EmptyString => EmptyString
  | String c tl => String (lower_char c) (str_lower tl)
  end.

Fixpoint str_upper (s : string) : string :=
  match s with
  | EmptyString => EmptyString
  | String c tl => String (upper_char c) (str_upper tl)
  end.

Definition remove_0x_prefix (value : string) : string :=
  match value with
  | String z (String x tl) =>
      if Ascii.eqb z "0" && (Ascii.eqb x "x" || Ascii.eqb x "X")
      then tl else value
  | _ => value
  end.

(** [is_hex_address]: forty hex digits in any case, after an optional
    [0x] or [0X]; that is, twenty bytes. *)
Definition is_hex_address (value : string) : bool :=
  string_forallb is_hexdigit (remove_0x_prefix value)
  && (String.length (remove_0x_prefix value) =? 40)%nat.

(** The casing loop of [to_checksum_address]: the i-th character of the
    lowercase address is put in upper case when the i-th hex digit of the
    hash is above 7. *)
Fixpoint checksum_case (norm_address address_hash : string) : string :=
  match norm_address with
  | EmptyString => EmptyString
  | String c tl =>
      let '(up, htl) :=
        match address_hash with
        | String h htl =>
            (match unhexdigit h with Some n => (7 <? n)%N | None => false end,
             htl)
        | EmptyString => (false, EmptyString)
        end in
      String (if up then upper_char c else c) (checksum_case tl htl)
  end.

(** ** [eth_utils]: currency *)

(** The table [units] of [eth_utils.currency]: the power of ten of a unit. *)
Definition units : list (string * Z) :=
  [("wei", 0); ("kwei", 3); ("babbage", 3); ("femtoether", 3);
   ("mwei", 6); ("lovelace", 6); ("picoether", 6);
   ("gwei", 9); ("shannon", 9); ("nanoether", 9); ("nano", 9);
   ("szabo", 12); ("microether", 12); ("micro", 12);
   ("finney", 15); ("milliether", 15); ("milli", 15);
   ("ether", 18); ("kether", 21); ("grand", 21);
   ("mether", 24); ("gether", 27); ("tether", 30)]%Z.

Definition MIN_WEI : Z := 0.
Definition MAX_WEI : Z := 2 ^ 256 - 1.

Fixpoint assoc {A} (k : string) (l : list (string * A)) : option A :=
  match l with
  | [] => None
  | (k', v) :: tl => if String.eqb k k' then Some v else assoc k tl
  end.

(** The number of decimal digits of a coefficient ([len(self._int)]). *)
Fixpoint count_digits (fuel : nat) (n : N) : nat :=
  match fuel with
  | O => 1
  | S fuel' => if (n <? 10)%N then 1 else S (count_digits fuel' (n / 10)%N)
  end.

Definition num_digits (n : N) : Z :=
  Z.of_nat (count_digits (N.to_nat (N.size n)) n).

(** Strip zeros from an exact quotient while its exponent is below the
    ideal one. *)
Fixpoint strip_zeros (fuel : nat) (coeff : N) (exp ideal_exp : Z) : N * Z :=
  match fuel with
  | O => (coeff, exp)
  | S fuel' =>
      if (exp <? ideal_exp)%Z && (coeff mod 10 =? 0)%N
      then strip_zeros fuel' (coeff / 10)%N (exp + 1)%Z ideal_exp
      else (coeff, exp)
  end.

(** Rounding of a coefficient to [prec] digits, half to even
    ([Decimal._fix]; the exponent limits of the context are not reached
    by the quotients computed here). *)
Definition decimal_fix (dprec : Z) (sign : bool) (coeff : N) (exp : Z)
  : decimal :=
  let excess := (num_digits coeff - dprec)%Z in
  if (0 <? excess)%Z then
    let p := (10 ^ Z.to_N excess)%N in
    let q := (coeff / p)%N in
    let r := (coeff mod p)%N in
    let q' := match (2 * r ?= p)%N with
              | Lt => q
              | Gt => (q + 1)%N
              | Eq => if N.even q then q else (q + 1)%N
              end in
    Dec sign q' (exp + excess)
  else Dec sign coeff exp.

(** [Decimal.__truediv__] for two finite, non-zero-divisor operands, in a
    context of precision [dprec]. *)
Definition decimal_truediv (dprec : Z) (a b : decimal) : decimal :=
  let sign := xorb (dec_sign a) (dec_sign b) in
  if (dec_int a =? 0)%N then
    decimal_fix dprec sign 0 (dec_exp a - dec_exp b)
  else
    let shift := (num_digits (dec_int b) - num_digits (dec_int a)
                  + dprec + 1)%Z in
    let exp := (dec_exp a - dec_exp b - shift)%Z in
    let '(coeff, remainder) :=
      if (0 <=? shift)%Z
      then N.div_eucl (dec_int a * 10 ^ Z.to_N shift) (dec_int b)
      else N.div_eucl (dec_int a) (dec_int b * 10 ^ Z.to_N (- shift)) in
    let '(coeff, exp) :=
      if (remainder =? 0)%N then
        strip_zeros (Z.to_nat (dprec + 2 + num_digits (dec_int a)))
          coeff exp (dec_exp a - dec_exp b)
      else ((if (coeff mod 5 =? 0)%N then coeff + 1 else coeff)%N, exp) in
    decimal_fix dprec sign coeff exp.

(** [from_wei]: an [int] 0 for 0, else the [Decimal] quotient computed
    with 999 digits. *)
Definition from_wei (number : Z) (unit : string) : result pyval :=
  match assoc (str_lower unit) units with
  | None => Raise (Exc ValueError "Unknown unit")
  | Some k =>
      if (number =? 0)%Z then Ok (PInt 0)
      else if (number <? MIN_WEI)%Z || (MAX_WEI <? number)%Z then
        Raise (Exc ValueError "value must be between 1 and 2**256 - 1")
      else
        let d_number := Dec false (Z.to_N number) 0 in
        let unit_value := Dec false (10 ^ Z.to_N k) 0 in
        Ok (PDecimal (decimal_truediv 999 d_number unit_value))
  end.

(** The number a value stands for, times [10^scale], when that is whole
    (enough for the amounts at hand: [scale] is at least [- dec_exp]). *)
Definition decimal_scaled (scale : Z) (d : decimal) : Z :=
  let m := (Z.of_N (dec_int d) * 10 ^ (dec_exp d + scale))%Z in
  if dec_sign d then (- m)%Z else m.

(** An amount of ether times [10^18], when that is a whole number: the
    [int] or [Decimal] that [from_wei] returns, back in wei. *)
Definition ether_to_wei (ether : pyval) : option Z :=
  match ether with
  | PInt n => Some (n * 10 ^ 18)%Z
  | PDecimal d =>
      if (-18 <=? dec_exp d)%Z then Some (decimal_scaled 18 d) else None
  | _ => None
  end.

(** [str] of a [Decimal]. *)
Definition str_of_N (n : N) : string := NilZero.string_of_uint (N.to_uint n).

Fixpoint zeros (n : nat) : string :=
  match n with
  | O => EmptyString
  | S n' => String "0" (zeros n')
  end.

Definition decimal_str (d : decimal) : string :=
  let sign := if dec_sign d then "-" else "" in
  let _int := str_of_N (dec_int d) in
  let len := Z.of_nat (String.length _int) in
  let leftdigits := (dec_exp d + len)%Z in
  let dotplace :=
    if (dec_exp d <=? 0)%Z && (-6 <? leftdigits)%Z then leftdigits else 1%Z in
  let '(intpart, fracpart) :=
    if (dotplace <=? 0)%Z then
      ("0", "." +:+ zeros (Z.to_nat (- dotplace)) +:+ _int)
    else if (len <=? dotplace)%Z then
      (_int +:+ zeros (Z.to_nat (dotplace - len)), "")
    else
      (String.substring 0 (Z.to_nat dotplace) _int,
       "." +:+ String.substring (Z.to_nat dotplace)
                 (Z.to_nat (len - dotplace)) _int) in
  let exp :=
    if (leftdigits =? dotplace)%Z then ""
    else "E" +:+ (if (0 <=? leftdigits - dotplace)%Z then "+" else "")
             +:+ str_of_Z (leftdigits - dotplace) in
  sign +:+ intpart +:+ fracpart +:+ exp.

(** [str] of the values the command line prints. *)
Definition py_str (v : pyval) : string :=
  match v with
  | PInt n => str_of_Z n
  | PDecimal d => decimal_str d
  | PStr s => s
  | PNone => "None"
  | PBool b => if b then "True" else "False"
  | _ => "<object>"
  end.


(** ** The world: the RPC endpoint and the two output streams *)

(** What the web3 library is asked to send to the endpoint. *)
Inductive request :=
| ReqIsConnected
| ReqChainId
| ReqBlockNumber
| ReqGetBalance (account : string) (block_identifier : pyval)
| ReqGetTransactionCount (account : string) (block_identifier : pyval)
| ReqBlocking (method : string) (params : list pyval).

(** A [Web3] instance over a provider: what each call answers.  The calls
    are blocking and either return or raise. *)
Record Web3 := {
  w3_is_connected : bool;
  w3_chain_id : result Z;
  w3_block_number : result Z;
  w3_get_balance : string -> pyval -> result Z;
  w3_get_transaction_count : string -> pyval -> result Z;
  w3_request_blocking : string -> list pyval -> result pyval
}.

(** The libraries the program stands on and does not define: the hash of
    the address checksum, the HTTP provider behind an endpoint URL (with
    the [timeout] of its [request_kwargs], when given), and
    [json.dumps(_, indent=2)]. *)
Record Externals := {
  keccak_hex : string -> string;
  HTTPProvider : string -> option Z -> Web3;
  json_dumps : pyval -> result string
}.

Record world := World {
  dispatched : list request;
  stdout : list string;
  stderr : list string
}.

Definition empty_world : world := World [] [] [].

(** Computations that may raise and that act on the world. *)
Definition io (A : Type) : Type := world -> result A * world.

Definition ret {A} (a : A) : io A := fun w => (Ok a, w).
Definition raise {A} (e : exc) : io A := fun w => (Raise e, w).
Definition lift {A} (r : result A) : io A := fun w => (r, w).

Definition io_bind {A B} (m : io A) (k : A -> io B) : io B :=
  fun w =>
    match m w with
    | (Ok a, w') => k a w'
    | (Raise e, w') => (Raise e, w')
    end.

Notation "'let!' x := m 'in' k" := (io_bind m (fun x => k))
  (at level 10, x name, m at level 100, k at level 200) : result_scope.

(** [try: body except cls as e: handler e]. *)
Definition try_except {A} (body : io A) (cls : exc_class)
    (handler : exc -> io A) : io A :=
  fun w =>
    match body w with
    | (Raise e, w') =>
        if isinstance_exc e cls then handler e w' else (Raise e, w')
    | r => r
    end.

(** A call that goes to the endpoint is recorded, then answered. *)
Definition dispatch {A} (r : request) (answer : result A) : io A :=
  fun w =>
    (answer, World (dispatched w ++ [r]) (stdout w) (stderr w)).

(** [print(text)] and [print(text, file=sys.stderr)]. *)
Definition print (text : string) : io unit :=
  fun w => (Ok tt, World (dispatched w) (stdout w ++ [text]) (stderr w)).

Definition print_stderr (text : string) : io unit :=
  fun w => (Ok tt, World (dispatched w) (stdout w) (stderr w ++ [text])).

(** ** [evm_client.client] *)

Record Balance := { wei : Z; ether : pyval }.

Record EVMClient := { _web3 : Web3 }.

Definition connection_error_message : string :=
  "Unable to connect to the RPC endpoint. Check the URL and network connectivity.".

Section Client.
Variable ext : Externals.

(** [Web3.to_checksum_address] on a [str]: an optional [0x], forty hex
    digits in any case, or a [ValueError]. *)
Definition to_checksum_address (value : string) : result string :=
  if is_hex_address value then
    let norm_address := str_lower (remove_0x_prefix value) in
    let address_hash := keccak_hex ext norm_address in
    Ok ("0x" +:+ checksum_case norm_address address_hash)
  else Raise (Exc ValueError "Unknown format, attempted to normalize").

(** [EVMClient.__init__]. *)
Definition EVMClient_init (endpoint_url : string) (timeout : option Z)
  : io EVMClient :=
  let request_kwargs := timeout in
  let provider := HTTPProvider ext endpoint_url request_kwargs in
  let self := {| _web3 := provider |} in
  let! connected :=
    dispatch ReqIsConnected (Ok (w3_is_connected (_web3 self))) in
  if negb connected then
    raise (Exc RPCConnectionError connection_error_message)
  else ret self.

Definition chain_id (self : EVMClient) : io Z :=
  dispatch ReqChainId (w3_chain_id (_web3 self)).

Definition block_number (self : EVMClient) : io Z :=
  dispatch ReqBlockNumber (w3_block_number (_web3 self)).

Definition get_balance (self : EVMClient) (address : string)
    (block_identifier : pyval) : io Balance :=
  let! checksum := lift (to_checksum_address address) in
  let! wei_balance :=
    dispatch (ReqGetBalance checksum block_identifier)
      (w3_get_balance (_web3 self) checksum block_identifier) in
  let! ether_value := lift (from_wei wei_balance "ether") in
  ret {| wei := wei_balance; ether := ether_value |}.

Definition get_transaction_count (self : EVMClient) (address : string)
    (block_identifier : pyval) : io Z :=
  let! checksum := lift (to_checksum_address address) in
  dispatch (ReqGetTransactionCount checksum block_identifier)
    (w3_get_transaction_count (_web3 self) checksum block_identifier).

Definition call_method (self : EVMClient) (method : string)
    (params : list pyval) : io pyval :=
  dispatch (ReqBlocking method params)
    (w3_request_blocking (_web3 self) method params).
End Client.

(** ** [argparse]

    An interpreter for the part of [argparse] that [parse_args] uses:
    positionals taking one string or any number of them, options that
    store one string, the help option of every parser, and one required
    set of sub-commands.  It follows [ArgumentParser._parse_known_args]:
    the arguments are first classified as option or positional, then
    consumed from left to right.  Leaving the program is a [SystemExit],
    with status 0 after the help text and 2 after an error; the wording of
    the messages is not modelled. *)

Inductive nargs_t :=
| NargsOne        (* nargs=None: one string *)
| ZERO_OR_MORE.   (* nargs="*" *)

Inductive argument :=
| StoreAction (option_strings : list string) (dest : string)
    (nargs : nargs_t) (default : pyval)
| HelpAction (option_strings : list string).

Record subparsers_action := {
  sp_dest : string;
  sp_required : bool;
  sp_choices : list (string * list argument)
}.

Record ArgumentParser := {
  actions : list argument;
  subparsers : option subparsers_action
}.

Abbreviation Namespace := (gmap string pyval).

(** The positionals of a parser, in the order they were added; the
    sub-commands are a positional that takes all that follows. *)
Inductive positional :=
| PosStore (dest : string) (nargs : nargs_t) (default : pyval)
| PosParser (sp : subparsers_action).

Definition option_strings_of (a : argument) : list string :=
  match a with
  | StoreAction os _ _ _ => os
  | HelpAction os => os
  end.

Definition positionals_of (p : ArgumentParser) : list positional :=
  flat_map (fun a =>
              match a with
              | StoreAction [] dest n d => [PosStore dest n d]
              | _ => []
              end) (actions p)
  ++ match subparsers p with Some sp => [PosParser sp] | None => [] end.

Definition option_string_actions (acts : list argument)
  : list (string * argument) :=
  flat_map (fun a => map (fun s => (s, a)) (option_strings_of a)) acts.

(** The class of an argument string: positional [A], the separator [--],
    or an option [O] with its action (if known), its option string and the
    argument glued to it. *)
Inductive tag :=
| TagA
| TagD
| TagO (action : option argument) (option_string : string)
       (explicit_arg : option string).

Definition is_option (t : tag) : bool :=
  match t with TagO _ _ _ => true | _ => false end.
Definition is_A (t : tag) : bool :=
  match t with TagA => true | _ => false end.
Definition is_D (t : tag) : bool :=
  match t with TagD => true | _ => false end.

(** [s.split('=', 1)] when there is an [=]. *)
Fixpoint split_eq (s : string) : option (string * string) :=
  match s with
  | EmptyString => None
  | String c tl =>
      if Ascii.eqb c "=" then Some (EmptyString, tl)
      else match split_eq tl with
           | Some (a, b) => Some (String c a, b)
           | None => None
           end
  end.

Definition newline : ascii := ascii_of_N 10.

(** [_negative_number_matcher]: a minus and digits, or a minus, digits
    if any, a point and digits; [$] also matches before a last newline. *)
Definition is_negative_number (s : string) : bool :=
  let at_end (r : string) :=
    match r with
    | EmptyString => true
    | String c EmptyString => Ascii.eqb c newline
    | _ => false
    end in
  let nonempty (d : string) :=
    match d with EmptyString => false | _ => true end in
  match s with
  | String "-"%char tl =>
      let '(d, r) := span_digits tl in
      (nonempty d && at_end r)
      || match r with
         | String "."%char r' =>
             let '(f, r'') := span_digits r' in nonempty f && at_end r''
         | _ => false
         end
  | _ => false
  end.

Fixpoint contains_char (c : ascii) (s : string) : bool :=
  match s with
  | EmptyString => false
  | String c' tl => Ascii.eqb c c' || contains_char c tl
  end.

(** [_get_option_tuples]: the options an abbreviation may stand for. *)
Definition _get_option_tuples (opts : list (string * argument))
    (arg_string : string) : list (argument * string * option string) :=
  match arg_string with
  | String c0 (String c1 rest) =>
      if Ascii.eqb c1 "-" then
        let '(option_prefix, explicit_arg) :=
          match split_eq arg_string with
          | Some (p, e) => (p, Some e)
          | None => (arg_string, None)
          end in
        flat_map (fun oa =>
                    if String.prefix option_prefix (fst oa)
                    then [(snd oa, fst oa, explicit_arg)] else []) opts
      else
        let short_option_prefix := String c0 (String c1 EmptyString) in
        flat_map (fun oa =>
                    if String.eqb (fst oa) short_option_prefix
                    then [(snd oa, fst oa, Some rest)]
                    else if String.prefix arg_string (fst oa)
                    then [(snd oa, fst oa, None)] else []) opts
  | _ => []
  end.

Definition exit_error (msg : string) : exc := Exc (SystemExit 2) msg.
Definition exit_help : exc := Exc (SystemExit 0) "usage".

Definition _parse_optional (opts : list (string * argument))
    (arg_string : string) : result tag :=
  match arg_string with
  | EmptyString => Ok TagA
  | String c0 tl =>
      if negb (Ascii.eqb c0 "-") then Ok TagA
      else
        match assoc arg_string opts with
        | Some a => Ok (TagO (Some a) arg_string None)
        | None =>
            match tl with
            | EmptyString => Ok TagA
            | _ =>
                let by_eq :=
                  match split_eq arg_string with
                  | Some (os, e) =>
                      match assoc os opts with
                      | Some a => Some (TagO (Some a) os (Some e))
                      | None => None
                      end
                  | None => None
                  end in
                match by_eq with
                | Some t => Ok t
                | None =>
                    match _get_option_tuples opts arg_string with
                    | _ :: _ :: _ => Raise (exit_error "ambiguous option")
                    | [(a, os, e)] => Ok (TagO (Some a) os e)
                    | [] =>
                        if is_negative_number arg_string
                           && negb (existsb (fun oa => is_negative_number (fst oa))
                                      opts)
                        then Ok TagA
                        else if contains_char " " arg_string then Ok TagA
                        else Ok (TagO None arg_string None)
                    end
                end
            end
        end
  end.

(** All arguments after the first [--] are positional. *)
Fixpoint classify (opts : list (string * argument)) (args : list string)
  : result (list (string * tag)) :=
  match args with
  | [] => Ok []
  | a :: tl =>
      if String.eqb a "--" then Ok ((a, TagD) :: map (fun x => (x, TagA)) tl)
      else
        let* t := _parse_optional opts a in
        let* r := classify opts tl in
        Ok ((a, t) :: r)
  end.

(** *** Matching positionals against the classes *)

Inductive nargs_pattern :=
| PatOne      (* -*A-*      *)
| PatStar     (* -*[A-]*    *)
| PatParser.  (* -*A[-AO]*  *)

Fixpoint count_while {A} (p : A -> bool) (l : list A) : nat :=
  match l with
  | x :: tl => if p x then S (count_while p tl) else 0
  | [] => 0
  end.

(** [n; n-1; ...; 0] shifted by [base]. *)
Fixpoint down_from (base n : nat) : list nat :=
  match n with
  | O => [base]
  | S n' => (base + n) :: down_from base n'
  end.

(** The lengths a pattern can take in front of [ts], longest first, as a
    greedy regular expression tries them. *)
Definition candidates (p : nargs_pattern) (ts : list tag) : list nat :=
  match p with
  | PatStar => down_from 0 (count_while (fun t => is_A t || is_D t) ts)
  | PatOne =>
      let lead := count_while is_D ts in
      match skipn lead ts with
      | TagA :: r => down_from (lead + 1) (count_while is_D r)
      | _ => []
      end
  | PatParser =>
      let lead := count_while is_D ts in
      match skipn lead ts with
      | TagA :: r => down_from (lead + 1) (length r)
      | _ => []
      end
  end.

Fixpoint match_all (pats : list nargs_pattern) (ts : list tag)
  : option (list nat) :=
  match pats with
  | [] => Some []
  | p :: ps =>
      fold_right
        (fun n later =>
           match match_all ps (skipn n ts) with
           | Some r => Some (n :: r)
           | None => later
           end)
        None (candidates p ts)
  end.

(** [_match_arguments_partial]: as many positionals as can be matched. *)
Fixpoint match_partial (i : nat) (pats : list nargs_pattern) (ts : list tag)
  : list nat :=
  match i with
  | O => []
  | S i' =>
      match match_all (firstn i pats) ts with
      | Some r => r
      | None => match_partial i' pats ts
      end
  end.

Definition pattern_of (p : positional) : nargs_pattern :=
  match p with
  | PosStore _ NargsOne _ => PatOne
  | PosStore _ ZERO_OR_MORE _ => PatStar
  | PosParser _ => PatParser
  end.

(** *** Values and actions *)

Fixpoint remove_first (x : string) (l : list string) : list string :=
  match l with
  | [] => []
  | y :: tl => if String.eqb x y then tl else y :: remove_first x tl
  end.

(** [_get_values] for a storing action: the first [--] is dropped. *)
Definition _get_values (n : nargs_t) (default : pyval) (is_positional : bool)
    (arg_strings : list string) : pyval :=
  let arg_strings := remove_first "--" arg_strings in
  match n, arg_strings with
  | ZERO_OR_MORE, [] =>
      if is_positional
      then match default with PNone => PList [] | d => d end
      else PList []
  | NargsOne, [s] => PStr s
  | _, l => PList (map PStr l)
  end.

Record pstate := PState {
  ns : Namespace;
  extras : list string;
  pending : list positional
}.

Definition required (p : positional) : bool :=
  match p with
  | PosStore _ NargsOne _ => true
  | PosStore _ ZERO_OR_MORE d => match d with PNone => true | _ => false end
  | PosParser sp => sp_required sp
  end.

(** The attributes every run starts with: the defaults of the actions. *)
Definition set_default (dest : string) (default : pyval) (n : Namespace)
  : Namespace :=
  match n !! dest with
  | Some _ => n
  | None => <[dest := default]> n
  end.

Definition defaults (p : ArgumentParser) : Namespace :=
  let n :=
    fold_left (fun n a =>
                 match a with
                 | StoreAction _ dest _ d => set_default dest d n
                 | HelpAction _ => n
                 end) (actions p) ∅ in
  match subparsers p with
  | Some sp => set_default (sp_dest sp) PNone n
  | None => n
  end.

(** *** The consuming loop *)

Section ParseKnownArgs.
(** What selecting a sub-command runs: the parser of the sub-command on
    the strings that follow its name. *)
Variable run_subparser :
  list argument -> list string -> result (Namespace * list string).

(** [take_action] for a positional. *)
Definition take_positional (p : positional) (arg_strings : list string)
    (n : Namespace) (ex : list string) : result (Namespace * list string) :=
  match p with
  | PosStore dest nargs default =>
      Ok (<[dest := _get_values nargs default true arg_strings]> n, ex)
  | PosParser sp =>
      match arg_strings with
      | [] => Raise (exit_error "expected one argument")
      | parser_name :: arg_strings' =>
          match assoc parser_name (sp_choices sp) with
          | None => Raise (exit_error "invalid choice")
          | Some parser =>
              let n := <[sp_dest sp := PStr parser_name]> n in
              let* sub := run_subparser parser arg_strings' in
              Ok (fst sub ∪ n, ex ++ snd sub)
          end
      end
  end.

Fixpoint consume_counts (counts : list nat) (rest : list (string * tag))
    (st : pstate) : result (list (string * tag) * pstate) :=
  match counts, pending st with
  | c :: counts', p :: pending' =>
      let* r := take_positional p (map fst (firstn c rest))
                  (ns st) (extras st) in
      consume_counts counts' (skipn c rest)
        (PState (fst r) (snd r) pending')
  | _, _ => Ok (rest, st)
  end.

Definition consume_positionals (rest : list (string * tag)) (st : pstate)
  : result (list (string * tag) * pstate) :=
  let pats := map pattern_of (pending st) in
  consume_counts (match_partial (length pats) pats (map snd rest)) rest st.

(** A cluster of one-letter options glued to a help flag ([-hx...]):
    the help is printed if every letter is an option that can take what
    follows, else the cluster is an error. *)
Fixpoint help_cluster (opts : list (string * argument)) (e : string)
    (next_is_A : bool) : exc :=
  match e with
  | EmptyString => Exc (UserError "IndexError" Exception)
                     "string index out of range"
  | String c tl =>
      match assoc (String "-" (String c EmptyString)) opts with
      | None => exit_error "ignored explicit argument"
      | Some (HelpAction _) =>
          match tl with
          | EmptyString => exit_help
          | _ => help_cluster opts tl next_is_A
          end
      | Some (StoreAction _ _ NargsOne _) =>
          match tl with
          | EmptyString =>
              if next_is_A then exit_help
              else exit_error "expected one argument"
          | _ => exit_help
          end
      | Some (StoreAction _ _ ZERO_OR_MORE _) => exit_help
      end
  end.

Definition single_dash (option_string : string) : bool :=
  match option_string with
  | String _ (String c _) => negb (Ascii.eqb c "-")
  | _ => true
  end.

(** [consume_optional] at an option [arg] followed by [tl]. *)
Definition consume_optional (opts : list (string * argument))
    (action : option argument) (option_string : string)
    (explicit_arg : option string) (arg : string)
    (tl : list (string * tag)) (st : pstate)
  : result (list (string * tag) * pstate) :=
  match action with
  | None => Ok (tl, PState (ns st) (extras st ++ [arg]) (pending st))
  | Some (HelpAction _) =>
      match explicit_arg with
      | None => Raise exit_help
      | Some e =>
          if single_dash option_string
          then Raise (help_cluster opts e
                        (match tl with (_, TagA) :: _ => true | _ => false end))
          else Raise (exit_error "ignored explicit argument")
      end
  | Some (StoreAction _ dest nargs default) =>
      match explicit_arg with
      | Some e =>
          Ok (tl, PState (<[dest := _get_values nargs default false [e]]>
                            (ns st)) (extras st) (pending st))
      | None =>
          match nargs with
          | NargsOne =>
              match tl with
              | (s, TagA) :: tl' =>
                  Ok (tl', PState (<[dest := _get_values nargs default
                                               false [s]]> (ns st))
                             (extras st) (pending st))
              | _ => Raise (exit_error "expected one argument")
              end
          | ZERO_OR_MORE =>
              let c := count_while is_A (map snd tl) in
              Ok (skipn c tl,
                  PState (<[dest := _get_values nargs default false
                                      (map fst (firstn c tl))]> (ns st))
                    (extras st) (pending st))
          end
      end
  end.

(** The loop of [_parse_known_args].  While an option is ahead:
    positionals are consumed up to it, what no positional takes goes to
    the extras, then the option is consumed.  After the last option the
    remaining positionals are consumed and the rest goes to the extras.
    Every round consumes a string, so [fuel] above the number of strings
    is never used up. *)
Fixpoint parse_loop (fuel : nat) (opts : list (string * argument))
    (rest : list (string * tag)) (st : pstate) : result pstate :=
  match fuel with
  | O => Raise (Exc RuntimeError "parse_loop: out of fuel")
  | S fuel' =>
      if negb (existsb is_option (map snd rest)) then
        let* r := consume_positionals rest st in
        Ok (PState (ns (snd r)) (extras (snd r) ++ map fst (fst r))
              (pending (snd r)))
      else
        match rest with
        | [] => Ok st
        | (arg, TagO action option_string explicit_arg) :: tl =>
            let* r := consume_optional opts action option_string
                        explicit_arg arg tl st in
            parse_loop fuel' opts (fst r) (snd r)
        | _ :: _ =>
            let* r := consume_positionals rest st in
            if (length (fst r) <? length rest)%nat then
              parse_loop fuel' opts (fst r) (snd r)
            else
              let skipped :=
                count_while (fun t => negb (is_option t))
                  (map snd (fst r)) in
              let st' := PState (ns (snd r))
                           (extras (snd r)
                            ++ map fst (firstn skipped (fst r)))
                           (pending (snd r)) in
              match skipn skipped (fst r) with
              | (arg, TagO action option_string explicit_arg) :: tl =>
                  let* r' := consume_optional opts action option_string
                               explicit_arg arg tl st' in
                  parse_loop fuel' opts (fst r') (snd r')
              | _ => Ok st'
              end
        end
  end.

(** [parse_known_args] on a fresh namespace. *)
Definition parse_known_args (p : ArgumentParser) (args : list string)
  : result (Namespace * list string) :=
  let opts := option_string_actions (actions p) in
  let* tagged := classify opts args in
  let* st := parse_loop (S (length args)) opts tagged
               (PState (defaults p) [] (positionals_of p)) in
  if existsb required (pending st)
  then Raise (exit_error "the following arguments are required")
  else Ok (ns st, extras st).
End ParseKnownArgs.

(** The parser of a sub-command has no sub-commands of its own. *)
Definition no_subparser (_ : list argument) (_ : list string)
  : result (Namespace * list string) :=
  Raise (exit_error "unknown parser").

Definition run_subparser (acts : list argument) (args : list string)
  : result (Namespace * list string) :=
  parse_known_args no_subparser
    {| actions := acts; subparsers := None |} args.

(** [ArgumentParser.parse_args]: strings nobody took are an error. *)
Definition ArgumentParser_parse_args (p : ArgumentParser)
    (args : list string) : result Namespace :=
  let* r := parse_known_args run_subparser p args in
  match snd r with
  | [] => Ok (fst r)
  | _ => Raise (exit_error "unrecognized arguments")
  end.

(** [ArgumentParser(...)]: a parser is born with its help option. *)
Definition new_parser : list argument := [HelpAction ["-h"; "--help"]].

Definition add_argument (p : list argument) (a : argument) : list argument :=
  p ++ [a].

(** ** [evm_cli.parse_args] *)

Definition cli_parser : ArgumentParser :=
  let parser :=
    add_argument new_parser (StoreAction [] "endpoint" NargsOne PNone) in
  let info_parser := new_parser in
  let balance_parser :=
    add_argument
      (add_argument new_parser (StoreAction [] "address" NargsOne PNone))
      (StoreAction ["--block"] "block_identifier" NargsOne (PStr "latest")) in
  let tx_count_parser :=
    add_argument
      (add_argument new_parser (StoreAction [] "address" NargsOne PNone))
      (StoreAction ["--block"] "block_identifier" NargsOne (PStr "latest")) in
  let call_parser :=
    add_argument
      (add_argument new_parser (StoreAction [] "method" NargsOne PNone))
      (StoreAction [] "params" ZERO_OR_MORE PNone) in
  {| actions := parser;
     subparsers :=
       Some {| sp_dest := "command";
               sp_required := true;
               sp_choices := [("info", info_parser);
                              ("balance", balance_parser);
                              ("tx-count", tx_count_parser);
                              ("call", call_parser)] |} |}.

Definition parse_args (argv : list string) : result Namespace :=
  ArgumentParser_parse_args cli_parser argv.


(** ** [evm_cli.run_cli] *)

(** [argparse] writes before it leaves: the help text to standard output,
    an error to standard error. *)
Definition parse_args_io (argv : list string) : io Namespace :=
  match parse_args argv with
  | Ok args => ret args
  | Raise e =>
      match exc_type e with
      | SystemExit 0 => let! _ := print (exc_msg e) in raise e
      | SystemExit _ => let! _ := print_stderr (exc_msg e) in raise e
      | _ => raise e
      end
  end.

(** [args.name]. *)
Definition getattr (args : Namespace) (name : string) : io pyval :=
  match args !! name with
  | Some v => ret v
  | None => raise (Exc AttributeError name)
  end.

(** Where a library wants a [str] (the endpoint URL, the address, the
    method name, a parameter to decode) anything else is a [TypeError]. *)
Definition as_str (v : pyval) : result string :=
  match v with
  | PStr s => Ok s
  | _ => Raise (Exc TypeError "expected str")
  end.

Definition as_str_list (v : pyval) : result (list string) :=
  match v with
  | PList items => mapM as_str items
  | _ => Raise (Exc TypeError "object is not iterable")
  end.

(** [value == "text"]. *)
Definition eq_str (value : pyval) (text : string) : bool :=
  match value with
  | PStr s => String.eqb s text
  | _ => false
  end.

Section CLI.
Variable ext : Externals.

(** The [try] around the construction of the client: the client, or the
    status [run_cli] returns at once. *)
Definition connect (args : Namespace) : io (EVMClient + Z) :=
  try_except
    (let! endpoint := getattr args "endpoint" in
     let! url := lift (as_str endpoint) in
     let! client := EVMClient_init ext url None in
     ret (inl client))
    RPCConnectionError
    (fun exc =>
       let! _ := print_stderr ("Connection failed: " +:+ exc_msg exc) in
       ret (inr 1%Z)).

Definition run_info (client : EVMClient) : io Z :=
  let! cid := chain_id client in
  let! number := block_number client in
  let info := PDict [("chain_id", PInt cid); ("block_number", PInt number)] in
  let! text := lift (json_dumps ext info) in
  let! _ := print text in
  ret 0%Z.

Definition run_balance (client : EVMClient) (args : Namespace) : io Z :=
  let! address := getattr args "address" in
  let! block_identifier := getattr args "block_identifier" in
  let! address := lift (as_str address) in
  let! balance := get_balance ext client address block_identifier in
  let info := PDict [("wei", PStr (py_str (PInt (wei balance))));
                     ("ether", PStr (py_str (ether balance)))] in
  let! text := lift (json_dumps ext info) in
  let! _ := print text in
  ret 0%Z.

Definition run_tx_count (client : EVMClient) (args : Namespace) : io Z :=
  let! address := getattr args "address" in
  let! block_identifier := getattr args "block_identifier" in
  let! address := lift (as_str address) in
  let! count := get_transaction_count ext client address block_identifier in
  let! _ := print (py_str (PInt count)) in
  ret 0%Z.

Definition run_call (client : EVMClient) (args : Namespace) : io Z :=
  let! raw := getattr args "params" in
  let! raw := lift (as_str_list raw) in
  let! params := lift (_load_params raw) in
  let! method := getattr args "method" in
  let! method := lift (as_str method) in
  let! result := call_method client method params in
  let! normalised := lift (_normalise result) in
  let! text := lift (json_dumps ext normalised) in
  let! _ := print text in
  ret 0%Z.

(** The four branches, then the [raise AssertionError] under them. *)
Definition dispatch_command (client : EVMClient) (args : Namespace)
  : io Z :=
  let! command := getattr args "command" in
  if eq_str command "info" then run_info client
  else if eq_str command "balance" then run_balance client args
  else if eq_str command "tx-count" then run_tx_count client args
  else if eq_str command "call" then run_call client args
  else raise (Exc AssertionError ("Unknown command: " +:+ py_str command)).

Definition run_cli (argv : list string) : io Z :=
  let! args := parse_args_io argv in
  let! connected := connect args in
  match connected with
  | inr status => ret status
  | inl client => dispatch_command client args
  end.
End CLI.

(** ** A stand-in world for the examples

    An endpoint at one URL that answers every query, a hash that is not
    Keccak, and a printer that only names what it prints. *)

Definition sample_web3 (reachable : bool) : Web3 := {|
  w3_is_connected := reachable;
  w3_chain_id := Ok 1%Z;
  w3_block_number := Ok 19000000%Z;
  w3_get_balance := fun _ _ => Ok 1500000000000000000%Z;
  w3_get_transaction_count := fun _ _ => Ok 7%Z;
  w3_request_blocking := fun method _ =>
    if String.eqb method "eth_blockNumber" then Ok (PStr "0x121eac0")
    else Raise (Exc ValueError "the method does not exist")
|}.

Definition sample_externals : Externals := {|
  keccak_hex := fun _ => "f00f8c3b9a2e4d7f10f00f8c3b9a2e4d7f10f00f";
  HTTPProvider := fun endpoint_url _ =>
    sample_web3 (String.eqb endpoint_url "http://localhost:8545");
  json_dumps := fun v =>
    match v with
    | PDict _ => Ok "{...}"
    | PStr s => Ok s
    | _ => Raise (Exc TypeError "Object is not JSON serializable")
    end
|}.

Definition sample_client : EVMClient := {| _web3 := sample_web3 true |}.

Definition sample_address : string :=
  "0xDE0B295669A9FD93D5F28D9EC85E40F4CB697BAE".

(** ** Predicates of the statements about the parser *)

(** An action that does not store under the attribute [k]. *)
Definition act_avoids (k : string) (a : argument) : Prop :=
  match a with
  | StoreAction _ d _ _ => d <> k
  | HelpAction _ => True
  end.

Definition tag_avoids (k : string) (t : tag) : Prop :=
  match t with
  | TagO (Some a) _ _ => act_avoids k a
  | _ => True
  end.

Definition pos_avoids (k : string) (p : positional) : Prop :=
  match p with
  | PosStore d _ _ => d <> k
  | PosParser _ => False
  end.

(** How [argparse] leaves: [SystemExit], or the [IndexError] of an empty
    argument glued to a one-letter flag. *)
Definition leaves_parser (e : exc) : Prop :=
  match exc_type e with
  | SystemExit _ => True
  | UserError _ _ => True
  | _ => False
  end.

Definition command_names : list string := ["info"; "balance"; "tx-count"; "call"].

(** The attribute [command] holds one of the four names. *)
Definition command_ok (n : Namespace) : Prop :=
  exists c, In c command_names /\ n !! "command" = Some (PStr c).

(** Where the top-level parser stands: nothing taken yet, the endpoint
    taken, or the sub-command taken too, and then [command] is set. *)
Definition top_inv (n : Namespace) (p : list positional) : Prop :=
  p = positionals_of cli_parser \/
  p = tl (positionals_of cli_parser) \/
  (p = [] /\ command_ok n).

Definition sample_argv : list string :=
  ["http://localhost:8545"; "balance"; sample_address; "--block"; "latest"].

Definition offline_argv : list string := ["http://10.0.0.1:8545"; "info"].


(** The namespaces [parse_args] gives for the two command lines. *)
Definition sample_args : Namespace :=
  <["command" := PStr "balance"]>
    (<["endpoint" := PStr "http://localhost:8545"]>
       (<["address" := PStr sample_address]>
          (<["block_identifier" := PStr "latest"]> ∅))).

Definition offline_args : Namespace :=
  <["command" := PStr "info"]>
    (<["endpoint" := PStr "http://10.0.0.1:8545"]> ∅).

(** A response of the kind [call] prints. *)
Definition sample_response : pyval :=
  PAttributeDict
    [("hash", PBytes [x0a; xff]);
     ("logs", PList [PTuple [PFloat one_and_a_half; PInt 7];
                     PObject "bytearray" (HexReturns (PStr "00ab"))]);
     ("miner", PStr "0xabc")].


(** ** Command lines of plain words *)

(** A string that does not start with a dash: never an option. *)
Definition plain (s : string) : bool :=
  match s with
  | String c _ => negb (Ascii.eqb c "-")
  | EmptyString => true
  end.

(** Strings that are all positional. *)
Definition all_A (l : list string) : list (string * tag) :=
  map (fun a => (a, TagA)) l.

(** The sub-commands and their parsers, as [parse_args] registers them,
    and the option strings of each level. *)
Definition subcommands : list (string * list argument) :=
  match subparsers cli_parser with
  | Some sp => sp_choices sp
  | None => []
  end.

Definition top_opts : list (string * argument) :=
  Eval cbv in option_string_actions (actions cli_parser).

Definition top_state : pstate :=
  PState (defaults cli_parser) [] (positionals_of cli_parser).

Definition block_action : argument :=
  StoreAction ["--block"] "block_identifier" NargsOne (PStr "latest").

Definition balance_actions : list argument :=
  [HelpAction ["-h"; "--help"];
   StoreAction [] "address" NargsOne PNone;
   block_action].

Definition call_actions : list argument :=
  [HelpAction ["-h"; "--help"];
   StoreAction [] "method" NargsOne PNone;
   StoreAction [] "params" ZERO_OR_MORE PNone].

Definition balance_opts : list (string * argument) :=
  Eval cbv in option_string_actions balance_actions.

(** The commands that take an address. *)
Definition address_commands : list string := ["balance"; "tx-count"].

(** The namespaces of the accepted forms. *)
Definition info_args (url : string) : Namespace :=
  <["command" := PStr "info"]> (<["endpoint" := PStr url]> ∅).

Definition address_args (url cmd address block : string) : Namespace :=
  <["command" := PStr cmd]>
    (<["endpoint" := PStr url]>
       (<["address" := PStr address]>
          (<["block_identifier" := PStr block]> ∅))).

Definition call_args (url method : string) (params : list string)
  : Namespace :=
  <["command" := PStr "call"]>
    (<["endpoint" := PStr url]>
       (<["method" := PStr method]>
          (<["params" := PList (map PStr params)]> ∅))).

(** ** What a run writes *)

(** Nothing written to either stream, and one line written to the
    standard output. *)
Definition prints_nothing (w w' : world) : Prop :=
  stdout w' = stdout w /\ stderr w' = stderr w.

Definition prints_line (w w' : world) : Prop :=
  (exists line, stdout w' = stdout w ++ [line]) /\ stderr w' = stderr w.

(** A computation that writes nothing, and one that writes its one line
    when it returns and nothing when it raises. *)
Definition quiet {A} (m : io A) : Prop :=
  forall w r w', m w = (r, w') -> prints_nothing w w'.

Definition reports {A} (m : io A) : Prop :=
  forall w r w', m w = (r, w') ->
    match r with
    | Ok _ => prints_line w w'
    | Raise _ => prints_nothing w w'
    end.

(** The checksummed form of [sample_address] under the stand-in hash,
    and command lines for the other commands. *)
Definition sample_checksum : string :=
  "0xDe0B295669a9fD93d5F28D9Ec85E40f4cB697baE".

Definition sample_url : string := "http://localhost:8545".

Definition info_argv : list string := [sample_url; "info"].
Definition tx_count_argv : list string :=
  [sample_url; "tx-count"; sample_address].
Definition call_argv : list string := [sample_url; "call"; "eth_blockNumber"].
Definition bad_address_argv : list string := [sample_url; "balance"; "0x12"].

(** ** The answers of a node *)

(** What an answer of the node is made of: the JSON scalars, byte
    strings (an object whose [hex()] returns a [str] stands for the
    [HexBytes] of the library), and lists, tuples and [AttributeDict]s
    of such values. *)
Fixpoint response_tree (v : pyval) : bool :=
  match v with
  | PNone | PBool _ | PInt _ | PFloat _ | PStr _ | PBytes _ => true
  | PList items | PTuple items => forallb response_tree items
  | PAttributeDict items => forallb (fun kv => response_tree (snd kv)) items
  | PObject _ (HexReturns (PStr _)) => true
  | _ => false
  end.

(** What [json.dumps] prints without a [default]: no byte string, no
    [AttributeDict], no other object (and no number but the integers,
    for a float has a [hex]). *)
Fixpoint json_plain (v : pyval) : bool :=
  match v with
  | PNone | PBool _ | PInt _ | PStr _ => true
  | PList items | PTuple items => forallb json_plain items
  | PDict items => forallb (fun kv => json_plain (snd kv)) items
  | _ => false
  end.

(** ** Parameters that are not JSON *)

(** A character a JSON text can start with: a blank, a digit, and
    the first characters of a string, an object, an array, a negative
    number, [null], [true], [false], [NaN] and [Infinity]. *)
Definition json_start (c : ascii) : bool :=
  is_ws c || is_digit c
  || existsb (Ascii.eqb c) [dquote; "{"; "["; "-"; "n"; "t"; "f"; "N"; "I"]%char.

(** A node that answers a negative balance, and the [Balance] of the
    stand-in endpoint. *)
Definition overdrawn_client : EVMClient :=
  {| _web3 := {| w3_is_connected := true;
                 w3_chain_id := Ok 1%Z;
                 w3_block_number := Ok 0%Z;
                 w3_get_balance := fun _ _ => Ok (-1)%Z;
                 w3_get_transaction_count := fun _ _ => Ok 0%Z;
                 w3_request_blocking := fun _ _ => Ok PNone |} |}.

Definition sample_balance : Balance :=
  {| wei := 1500000000000000000; ether := PDecimal (Dec false 15 (-1)) |}.

(** The abbreviations of [--block]: no other option of the parser
    starts like them. *)
Definition block_abbreviations : list string :=
  ["--b"; "--bl"; "--blo"; "--bloc"].

(** ** The attributes a branch reads *)

(** The classified strings while no positional has been taken: before
    the separator no positional word is [--], the separator is [--], and
    after it every string is positional. *)
Fixpoint fresh (rest : list (string * tag)) : Prop :=
  match rest with
  | [] => True
  | (s, TagA) :: tl => s <> "--" /\ fresh tl
  | (s, TagD) :: tl => s = "--" /\ Forall (fun x => snd x = TagA) tl
  | (_, TagO _ _ _) :: tl => fresh tl
  end.

(** A positional that, whatever it takes, leaves the attribute [k] as it
    is. *)
Definition keeps
    (run_sub : list argument -> list string
               -> result (Namespace * list string))
    (k : string) (p : positional) : Prop :=
  forall args n ex r,
    take_positional run_sub p args n ex = Ok r -> fst r !! k = n !! k.

(** An attribute that holds a string. *)
Definition holds_str (n : Namespace) (k : string) : Prop :=
  exists s, n !! k = Some (PStr s).

(** An attribute that holds a list of strings. *)
Definition holds_strs (n : Namespace) (k : string) : Prop :=
  exists l, n !! k = Some (PList (map PStr l)).

(** What the branch of a command reads is there, and is a string where
    the client wants one. *)
Definition command_ready (n : Namespace) : Prop :=
  exists c, n !! "command" = Some (PStr c) /\
    (c = "info" \/
     (In c address_commands /\ holds_str n "address" /\
      is_Some (n !! "block_identifier")) \/
     (c = "call" /\ holds_str n "method" /\ holds_strs n "params")).

Definition branch_ready (n : Namespace) : Prop :=
  holds_str n "endpoint" /\ command_ready n.

(** Where a parser stands with respect to its first positional, a
    positional of one word stored under [d]: not taken yet, and then no
    string has been dropped in front of it; or taken, and then [d] holds
    a string that nothing pending overwrites.  No option to read stores
    under [d]. *)
Definition first_inv
    (run_sub : list argument -> list string
               -> result (Namespace * list string))
    (d : string) (dflt : pyval) (others : list positional)
    (n : Namespace) (p : list positional) (rest : list (string * tag))
  : Prop :=
  Forall (fun x => tag_avoids d (snd x)) rest /\
  ((p = PosStore d NargsOne dflt :: others /\ fresh rest) \/
   (holds_str n d /\ Forall (keeps run_sub d) p)).

(** The positionals of [call], and where its parser stands with respect
    to [params]. *)
Definition method_positional : positional := PosStore "method" NargsOne PNone.
Definition params_positional : positional :=
  PosStore "params" ZERO_OR_MORE PNone.

Definition call_inv (n : Namespace) (p : list positional) : Prop :=
  p = [method_positional; params_positional] \/
  p = [params_positional] \/
  (p = [] /\ holds_strs n "params").

(** An option that stores nothing: the help, or a string no option
    matches. *)
Definition no_store (t : tag) : Prop :=
  match t with
  | TagO (Some (StoreAction _ _ _ _)) _ _ => False
  | _ => True
  end.

(** Where the top-level parser stands with respect to the sub-command. *)
Definition ready_inv (n : Namespace) (p : list positional) : Prop :=
  p = positionals_of cli_parser \/
  p = tl (positionals_of cli_parser) \/
  (p = [] /\ command_ready n).

(** The action of the sub-commands, as the top-level parser holds it. *)
Definition command_action : subparsers_action :=
  {| sp_dest := "command"; sp_required := true; sp_choices := subcommands |}.

(** ** What a run sends *)

(** A computation that sends at most [k] requests, and changes nothing
    of what was sent before. *)
Definition sends {A} (m : io A) (k : nat) : Prop :=
  forall w r w', m w = (r, w') ->
    exists l, dispatched w' = dispatched w ++ l /\ length l <= k.

(** A value that is already plain JSON. *)
Definition plain_answer : pyval :=
  PList [PInt 1; PStr "0xabc"; PDict [("removed", PBool false)];
         PTuple [PNone]].

(** A character that stands for itself inside a JSON string: no quote,
    no backslash, no control character. *)
Definition ordinary (c : ascii) : bool :=
  negb (Ascii.eqb c dquote) && negb (N_of_ascii c <? 32)%N
  && negb (Ascii.eqb c backslash).

(** [text] between double quotes. *)
Definition quoted (text : string) : string :=
  String dquote (text +:+ String dquote EmptyString).

(** An endpoint that answers the probe and then fails, with the very
    exception of a failed connection. *)
Definition failing_externals : Externals := {|
  keccak_hex := keccak_hex sample_externals;
  HTTPProvider := fun _ _ =>
    {| w3_is_connected := true;
       w3_chain_id := Raise (Exc RPCConnectionError "connection lost");
       w3_block_number := Ok 0%Z;
       w3_get_balance := fun _ _ => Ok 0%Z;
       w3_get_transaction_count := fun _ _ => Ok 0%Z;
       w3_request_blocking := fun _ _ => Ok PNone |};
  json_dumps := json_dumps sample_externals
|}.

(** * Theorems *)

(** ** Result normalisation *)

Lemma mapM_Forall2 {A B} (f : A -> result B) (l : list A) (r : list B) :
  mapM f l = Ok r <-> Forall2 (fun x y => f x = Ok y) l r.
Proof.
  revert r. induction l as [|x tl IH]; intros r; simpl.
  - split.
    + intros [= <-]. constructor.
    + intros H. inversion H. reflexivity.
  - split.
    + destruct (f x) as [y|e] eqn:Hx; simpl; [|discriminate].
      destruct (mapM f tl) as [ys|e] eqn:Htl; simpl; [|discriminate].
      intros [= <-]. constructor; [exact Hx|]. apply IH. reflexivity.
    + intros H. inversion H as [|? y ? ys Hx Htl]; subst.
      apply IH in Htl. rewrite Hx. simpl.
      change (mapM f tl) with (mapM f tl) in Htl.
      rewrite Htl. reflexivity.
Qed.

Lemma mapM_fixed {A} (f : A -> result A) (l : list A) :
  Forall (fun x => f x = Ok x) l -> mapM f l = Ok l.
Proof.
  intros H. apply mapM_Forall2. induction H; constructor; assumption.
Qed.

Lemma mapM_bind_fixed {A} (f : A -> result A) (l : list A) :
  Forall (fun x => bind (f x) f = f x) l ->
  bind (mapM f l) (mapM f) = mapM f l.
Proof.
  induction 1 as [|x tl Hx _ IH]; simpl; [reflexivity|].
  destruct (f x) as [y|e] eqn:Ex; simpl in *; [|reflexivity].
  destruct (mapM f tl) as [ys|e] eqn:Etl; simpl in *; [|reflexivity].
  rewrite Hx. simpl. rewrite IH. reflexivity.
Qed.

Lemma normalise_plain_dict items : _normalise (PDict items) = Ok (PDict items).
Proof. reflexivity. Qed.

Lemma normalise_str s : _normalise (PStr s) = Ok (PStr s).
Proof. reflexivity. Qed.

Lemma forallb_Forall_imp {A} (p : A -> bool) (Q : A -> Prop) (l : list A) :
  Forall (fun x => p x = true -> Q x) l -> forallb p l = true -> Forall Q l.
Proof.
  induction 1 as [|x tl Hx _ IH]; simpl; intros Hp; [constructor|].
  apply andb_true_iff in Hp as [Hpx Hptl]. constructor; auto.
Qed.

Lemma normalise_twice (v : pyval) :
  hex_returns_str v = true -> bind (_normalise v) _normalise = _normalise v.
Proof.
  induction v as [| | | | | | |items IH|items IH|items IH|items IH|cls h]
    using pyval_ind; intros Hv; try reflexivity.
  - (* list *)
    simpl in Hv. pose proof (forallb_Forall_imp _ _ _ IH Hv) as Hall.
    apply mapM_bind_fixed in Hall. simpl.
    destruct (mapM _normalise items) as [l|e]; simpl in *; [|reflexivity].
    rewrite Hall. reflexivity.
  - (* tuple *)
    simpl in Hv. pose proof (forallb_Forall_imp _ _ _ IH Hv) as Hall.
    apply mapM_bind_fixed in Hall. simpl.
    destruct (mapM _normalise items) as [l|e]; simpl in *; [|reflexivity].
    rewrite Hall. reflexivity.
  - (* AttributeDict: the result is a plain dict *)
    simpl. destruct (mapM _ items) as [d|e]; reflexivity.
  - (* any other object *)
    destruct h as [| |r|e]; try reflexivity.
    + destruct r; try discriminate Hv. reflexivity.
    + simpl. destruct (isinstance_exc e TypeError) eqn:He; simpl;
        [rewrite He|]; reflexivity.
Qed.



(** C1 (as amended).  For every value whose probed objects return a [str]
    from [hex()], normalising twice is normalising once:
    [_normalise(_normalise(v)) == _normalise(v)], an exception of the first
    pass included; so a value that [_normalise] returns is returned
    unchanged by a second pass. *)
Theorem normalise_idempotent (v : pyval) :
  hex_returns_str v = true ->
  bind (_normalise v) _normalise = _normalise v /\
  (forall r, _normalise v = Ok r -> _normalise r = Ok r).
Proof.
  intros Hv. pose proof (normalise_twice v Hv) as H2. split; [exact H2|].
  intros r Hr. rewrite Hr in H2. exact H2.
Qed.

Lemma normalise_idempotent_witness :
  hex_returns_str (PList [sample_response; PBytes [x01]]) = true /\
  bind (_normalise (PList [sample_response; PBytes [x01]])) _normalise
  = _normalise (PList [sample_response; PBytes [x01]]).
Proof.
  split; [reflexivity|].
  exact (proj1 (normalise_idempotent
                  (PList [sample_response; PBytes [x01]]) eq_refl)).
Defined.

(** C1, as stated, fails on an object whose [hex()] returns [bytes]: the
    first pass returns the bytes, the second turns them into a string. *)
Lemma normalise_not_idempotent :
  _normalise (PObject "Blob" (HexReturns (PBytes [x01]))) = Ok (PBytes [x01]) /\
  bind (_normalise (PObject "Blob" (HexReturns (PBytes [x01])))) _normalise
  = Ok (PStr "01") /\
  bind (_normalise (PObject "Blob" (HexReturns (PBytes [x01])))) _normalise
  <> _normalise (PObject "Blob" (HexReturns (PBytes [x01]))).
Proof. repeat split. discriminate. Qed.



(** ** Byte sequences *)









Example bytes_hex_sample : bytes_hex [xde; xad; xbe; xef; x00] = "deadbeef00".
Proof. reflexivity. Qed.

(** ** Mappings and sequences *)




Example normalise_sample :
  _normalise sample_response =
  Ok (PDict [("hash", PStr "0aff");
             ("logs", PList [PTuple [PStr "0x1.8000000000000p+0"; PInt 7];
                             PStr "00ab"]);
             ("miner", PStr "0xabc")]).
Proof. reflexivity. Qed.

(** A plain [dict] is not walked: it is returned as it is. *)
Example normalise_plain_dict_kept :
  _normalise (PDict [("raw", PBytes [x01])]) = Ok (PDict [("raw", PBytes [x01])]).
Proof. reflexivity. Qed.

(** ** Floats *)

(** C9 (as amended).  A float is not passed through: [_normalise] returns
    the text of [float.hex], which for 1.5 is ["0x1.8000000000000p+0"]
    (CPython prints all 13 hex digits of the fraction). *)
Theorem normalise_float (x : spec_float) :
  _normalise (PFloat x) = Ok (PStr (float_hex x)) /\
  _normalise (PFloat x) <> Ok (PFloat x) /\
  _normalise (PFloat one_and_a_half) = Ok (PStr "0x1.8000000000000p+0").
Proof. split; [reflexivity|]. split; [discriminate|reflexivity]. Qed.

(** C9, as stated, gives the wrong text for 1.5. *)
Lemma normalise_float_one_and_a_half :
  _normalise (PFloat one_and_a_half) <> Ok (PStr "0x1.8p+0").
Proof. discriminate. Qed.

(** ** Parameters of [call] *)




(** A parameter that carries its own quotation marks is a JSON string. *)
Example load_params_quoted :
  _load_params [String dquote ("42" +:+ String dquote EmptyString)]
  = Ok [PStr "42"].
Proof. vm_compute. reflexivity. Qed.

Example load_params_structured :
  _load_params ["[1, true, null]"; "0x10"; "-7"; "tx-count"]
  = Ok [PList [PInt 1; PBool true; PNone]; PStr "0x10"; PInt (-7);
        PStr "tx-count"].
Proof. vm_compute. reflexivity. Qed.

(** ** Wei and ether *)

Lemma count_digits_le fuel n : (count_digits fuel n <= S fuel)%nat.
Proof.
  revert n. induction fuel as [|fuel IH]; intros n; simpl; [lia|].
  destruct (n <? 10)%N; [lia|]. specialize (IH (n / 10)%N). lia.
Qed.

Lemma num_digits_bound (n : N) :
  (n < 2 ^ 256)%N -> (1 <= num_digits n <= 257)%Z.
Proof.
  intros Hn. unfold num_digits.
  pose proof (count_digits_le (N.to_nat (N.size n)) n) as Hle.
  assert (Hsize : (N.size n <= 256)%N).
  { destruct (N.eq_dec n 0%N) as [->|Hnz]; [vm_compute; discriminate|].
    rewrite N.size_log2 by assumption.
    assert (N.log2 n < 256)%N by (apply N.log2_lt_pow2; lia). lia. }
  assert (1 <= count_digits (N.to_nat (N.size n)) n)%nat.
  { destruct (N.to_nat (N.size n)); simpl; [lia|].
    destruct (n <? 10)%N; lia. }
  lia.
Qed.

(** Zeros are stripped at least while the exponent allows it. *)
Lemma strip_zeros_at_least (j : nat) :
  forall fuel m e i,
    (j <= fuel)%nat -> (e + Z.of_nat j <= i)%Z ->
    strip_zeros fuel (m * 10 ^ N.of_nat j)%N e i
    = strip_zeros (fuel - j) m (e + Z.of_nat j)%Z i.
Proof.
  induction j as [|j IH]; intros fuel m e i Hf He.
  - rewrite N.mul_1_r, Z.add_0_r, Nat.sub_0_r. reflexivity.
  - destruct fuel as [|fuel]; [lia|].
    replace (m * 10 ^ N.of_nat (S j))%N with ((m * 10 ^ N.of_nat j) * 10)%N
      by (rewrite Nat2N.inj_succ, N.pow_succ_r'; lia).
    simpl strip_zeros.
    replace (e <? i)%Z with true by (symmetry; apply Z.ltb_lt; lia).
    rewrite N.Div0.mod_mul. simpl andb. cbv iota.
    rewrite N.div_mul by discriminate.
    rewrite IH by lia.
    replace (e + 1 + Z.of_nat j)%Z with (e + Z.of_nat (S j))%Z by lia.
    reflexivity.
Qed.

(** What is stripped is zeros, and the exponent does not pass the ideal. *)
Lemma strip_zeros_spec (fuel : nat) :
  forall c e i c' e',
    (e <= i)%Z ->
    strip_zeros fuel c e i = (c', e') ->
    exists j : N, c = (c' * 10 ^ j)%N /\ e' = (e + Z.of_N j)%Z /\ (e' <= i)%Z.
Proof.
  induction fuel as [|fuel IH]; intros c e i c' e' Hei; simpl.
  - intros [= <- <-]. exists 0%N. rewrite N.mul_1_r. split; [reflexivity|lia].
  - destruct (Z.ltb_spec e i) as [Hlt|Hge]; simpl.
    + destruct (N.eqb_spec (c mod 10) 0) as [Hmod|Hmod].
      * intros H. apply IH in H as (j & Hc & He & Hi); [|lia].
        exists (N.succ j). split; [|lia].
        rewrite N.pow_succ_r'.
        rewrite (N.div_mod c 10) by discriminate. rewrite Hmod, Hc. lia.
      * intros [= <- <-]. exists 0%N. rewrite N.mul_1_r.
        split; [reflexivity|lia].
    + intros [= <- <-]. exists 0%N. rewrite N.mul_1_r.
      split; [reflexivity|lia].
Qed.

Lemma num_digits_ether : num_digits (10 ^ Z.to_N 18)%N = 19%Z.
Proof. vm_compute. reflexivity. Qed.

Lemma decimal_fix_small (dprec : Z) (sign : bool) (coeff : N) (exp : Z) :
  (num_digits coeff <= dprec)%Z ->
  decimal_fix dprec sign coeff exp = Dec sign coeff exp.
Proof.
  intros H. unfold decimal_fix.
  replace (0 <? num_digits coeff - dprec)%Z with false; [reflexivity|].
  symmetry. apply Z.ltb_ge. lia.
Qed.

(** The quotient of a positive amount by [10^18] is exact. *)
Lemma truediv_ether_exact (a : N) :
  (0 < a < 2 ^ 256)%N ->
  exists c e,
    decimal_truediv 999 (Dec false a 0) (Dec false (10 ^ Z.to_N 18)%N 0)
    = Dec false c e /\
    (-18 <= e <= 0)%Z /\ (Z.of_N c * 10 ^ (e + 18) = Z.of_N a)%Z.
Proof.
  intros [Hpos Hlt].
  pose proof (num_digits_bound a Hlt) as Hnd.
  unfold decimal_truediv. cbn [dec_sign dec_int dec_exp xorb].
  replace (a =? 0)%N with false by (symmetry; apply N.eqb_neq; lia).
  rewrite num_digits_ether.
  set (nd := num_digits a) in *.
  set (shift := (19 - nd + 999 + 1)%Z).
  assert (Hshift : (762 <= shift <= 1019)%Z) by (unfold shift; lia).
  replace (0 <=? shift)%Z with true by (symmetry; apply Z.leb_le; lia).
  set (k := Z.to_N (shift - 18)).
  assert (Hk : Z.to_N shift = (k + 18)%N) by (unfold k; lia).
  assert (Hdiv : N.div_eucl (a * 10 ^ Z.to_N shift) (10 ^ Z.to_N 18)
                 = ((a * 10 ^ k)%N, 0%N)).
  { set (P := (10 ^ Z.to_N 18)%N).
    assert (HP : (0 < P)%N)
      by (apply N.neq_0_lt_0, N.pow_nonzero; discriminate).
    assert (E : (a * 10 ^ Z.to_N shift = (a * 10 ^ k) * P)%N).
    { rewrite Hk, N.pow_add_r. unfold P. change (Z.to_N 18) with 18%N. lia. }
    rewrite E.
    pose proof (N.div_mul (a * 10 ^ k) P ltac:(lia)) as Q.
    pose proof (N.Div0.mod_mul (a * 10 ^ k) P) as M.
    unfold N.div, N.modulo in Q, M.
    destruct (N.div_eucl (a * 10 ^ k * P) P) as [q r]. cbn [fst snd] in *.
    subst q r. reflexivity. }
  rewrite Hdiv. cbn [N.eqb].
  replace (0 - 0 - shift)%Z with (- shift)%Z by lia.
  replace (0 - 0)%Z with 0%Z by lia.
  set (fuel := Z.to_nat (999 + 2 + nd)).
  destruct (strip_zeros fuel (a * 10 ^ k) (- shift) 0) as [c e] eqn:Hs.
  replace k with (N.of_nat (N.to_nat k)) in Hs by lia.
  rewrite strip_zeros_at_least in Hs by (unfold fuel, k; lia).
  apply strip_zeros_spec in Hs as (j & Ha & He & Hi); [|unfold k; lia].
  replace (- shift + Z.of_nat (N.to_nat k))%Z with (-18)%Z in He
    by (unfold k; lia).
  assert (Hc : (c <= a)%N).
  { rewrite Ha. assert (0 < 10 ^ j)%N
      by (apply N.neq_0_lt_0, N.pow_nonzero; discriminate). nia. }
  exists c, e. split; [|split].
  - apply decimal_fix_small.
    assert (c < 2 ^ 256)%N by lia.
    pose proof (num_digits_bound c ltac:(assumption)). lia.
  - lia.
  - rewrite He. replace (-18 + Z.of_N j + 18)%Z with (Z.of_N j) by lia.
    rewrite Ha, N2Z.inj_mul, N2Z.inj_pow. reflexivity.
Qed.

Lemma from_wei_ether_exact (n : Z) :
  (0 < n <= MAX_WEI)%Z ->
  exists d, from_wei n "ether" = Ok (PDecimal d) /\
    dec_sign d = false /\ (-18 <= dec_exp d <= 0)%Z /\
    (Z.of_N (dec_int d) * 10 ^ (dec_exp d + 18) = n)%Z.
Proof.
  intros [Hpos Hmax]. unfold from_wei.
  replace (assoc (str_lower "ether") units) with (Some 18%Z) by reflexivity.
  replace (n =? 0)%Z with false by (symmetry; apply Z.eqb_neq; lia).
  replace ((n <? MIN_WEI)%Z || (MAX_WEI <? n)%Z) with false.
  2:{ symmetry. apply orb_false_iff. unfold MIN_WEI. split.
      - apply Z.ltb_ge. lia.
      - apply Z.ltb_ge. lia. }
  destruct (truediv_ether_exact (Z.to_N n)) as (c & e & Hd & He & Hv).
  { unfold MAX_WEI in Hmax. split; [lia|].
    apply N2Z.inj_lt. rewrite Z2N.id by lia.
    rewrite N2Z.inj_pow. simpl Z.of_N. lia. }
  exists (Dec false c e). rewrite Hd. cbn [dec_sign dec_exp dec_int].
  split; [reflexivity|]. repeat split; lia.
Qed.

Lemma from_wei_ether_back (n : Z) (e : pyval) :
  from_wei n "ether" = Ok e -> ether_to_wei e = Some n /\ (0 <= n <= MAX_WEI)%Z.
Proof.
  intros H.
  destruct (Z.eq_dec n 0%Z) as [->|Hnz].
  { vm_compute in H. injection H as <-. split; [reflexivity|].
    unfold MAX_WEI. lia. }
  destruct (Z_lt_le_dec n 0%Z) as [Hneg|Hnn].
  { unfold from_wei in H.
    replace (assoc (str_lower "ether") units) with (Some 18%Z) in H
      by reflexivity.
    replace (n =? 0)%Z with false in H by (symmetry; apply Z.eqb_neq; lia).
    replace (n <? MIN_WEI)%Z with true in H
      by (symmetry; apply Z.ltb_lt; unfold MIN_WEI; lia).
    discriminate H. }
  destruct (Z_lt_le_dec MAX_WEI n) as [Hbig|Hok].
  { unfold from_wei in H.
    replace (assoc (str_lower "ether") units) with (Some 18%Z) in H
      by reflexivity.
    replace (n =? 0)%Z with false in H by (symmetry; apply Z.eqb_neq; lia).
    replace (MAX_WEI <? n)%Z with true in H
      by (symmetry; apply Z.ltb_lt; lia).
    rewrite orb_true_r in H. discriminate H. }
  destruct (from_wei_ether_exact n) as (d & Hd & Hs & He & Hv); [lia|].
  rewrite Hd in H. injection H as <-. split; [|lia].
  unfold ether_to_wei.
  replace (-18 <=? dec_exp d)%Z with true by (symmetry; apply Z.leb_le; lia).
  unfold decimal_scaled. rewrite Hs, Hv. reflexivity.
Qed.

(** ** Checksum addresses *)

Ltac by_cases_on_char c :=
  destruct c as [[] [] [] [] [] [] [] []]; reflexivity.

Lemma lower_upper_char c : lower_char (upper_char c) = lower_char c.
Proof. by_cases_on_char c. Qed.

Lemma lower_lower_char c : lower_char (lower_char c) = lower_char c.
Proof. by_cases_on_char c. Qed.

Lemma is_hexdigit_upper c : is_hexdigit (upper_char c) = is_hexdigit c.
Proof. by_cases_on_char c. Qed.

Lemma is_hexdigit_lower c : is_hexdigit (lower_char c) = is_hexdigit c.
Proof. by_cases_on_char c. Qed.

Lemma is_zero_lower c : Ascii.eqb (lower_char c) "0" = Ascii.eqb c "0".
Proof. by_cases_on_char c. Qed.

Lemma is_x_lower c :
  Ascii.eqb (lower_char c) "x" || Ascii.eqb (lower_char c) "X"
  = Ascii.eqb c "x" || Ascii.eqb c "X".
Proof. by_cases_on_char c. Qed.

Lemma str_lower_idem s : str_lower (str_lower s) = str_lower s.
Proof.
  induction s as [|c tl IH]; simpl; [reflexivity|].
  rewrite lower_lower_char, IH. reflexivity.
Qed.

Lemma str_lower_length s : String.length (str_lower s) = String.length s.
Proof. induction s; simpl; congruence. Qed.

Lemma str_lower_hex s :
  string_forallb is_hexdigit (str_lower s) = string_forallb is_hexdigit s.
Proof.
  induction s as [|c tl IH]; simpl; [reflexivity|].
  rewrite is_hexdigit_lower, IH. reflexivity.
Qed.

Lemma remove_0x_prefix_lower s :
  remove_0x_prefix (str_lower s) = str_lower (remove_0x_prefix s).
Proof.
  destruct s as [|z [|x tl]]; try reflexivity.
  cbn [str_lower remove_0x_prefix]. rewrite is_zero_lower, is_x_lower.
  destruct (_ && _); reflexivity.
Qed.

Lemma checksum_case_lower n h :
  str_lower (checksum_case n h) = str_lower n.
Proof.
  revert h. induction n as [|c tl IH]; intros h; [reflexivity|].
  destruct h as [|d htl]; simpl.
  - rewrite IH. reflexivity.
  - destruct (unhexdigit d) as [x|]; [destruct (7 <? x)%N|]; simpl;
      rewrite ?lower_upper_char, IH; reflexivity.
Qed.

Lemma checksum_case_length n h :
  String.length (checksum_case n h) = String.length n.
Proof.
  revert h. induction n as [|c tl IH]; intros h; simpl; [reflexivity|].
  destruct h as [|d htl]; simpl; rewrite IH; reflexivity.
Qed.

Lemma checksum_case_hex n h :
  string_forallb is_hexdigit (checksum_case n h)
  = string_forallb is_hexdigit n.
Proof.
  revert h. induction n as [|c tl IH]; intros h; [reflexivity|].
  destruct h as [|d htl]; simpl.
  - rewrite IH. reflexivity.
  - destruct (unhexdigit d) as [x|]; [destruct (7 <? x)%N|]; simpl;
      rewrite ?is_hexdigit_upper, IH; reflexivity.
Qed.

(** Validity does not depend on the casing. *)
Lemma is_hex_address_lower s : is_hex_address (str_lower s) = is_hex_address s.
Proof.
  unfold is_hex_address.
  rewrite remove_0x_prefix_lower, str_lower_hex, str_lower_length.
  reflexivity.
Qed.

Section ClientFacts.
Variable ext : Externals.

Lemma to_checksum_address_valid address :
  is_hex_address address = true ->
  to_checksum_address ext address =
  Ok ("0x" +:+ checksum_case (str_lower (remove_0x_prefix address))
                 (keccak_hex ext (str_lower (remove_0x_prefix address)))).
Proof. intros H. unfold to_checksum_address. rewrite H. reflexivity. Qed.

Lemma to_checksum_address_invalid address :
  is_hex_address address = false ->
  exists e, to_checksum_address ext address = Raise e /\
            exc_type e = ValueError.
Proof.
  intros H. unfold to_checksum_address. rewrite H. eexists.
  split; reflexivity.
Qed.

Lemma to_checksum_address_casing a b :
  str_lower a = str_lower b ->
  to_checksum_address ext a = to_checksum_address ext b.
Proof.
  intros H. unfold to_checksum_address.
  rewrite <- (is_hex_address_lower a), <- (is_hex_address_lower b), H.
  rewrite <- !remove_0x_prefix_lower, H. reflexivity.
Qed.

Lemma to_checksum_address_idempotent address c :
  to_checksum_address ext address = Ok c ->
  to_checksum_address ext c = Ok c.
Proof.
  unfold to_checksum_address at 1.
  destruct (is_hex_address address) eqn:Hv; [|discriminate].
  intros [= <-].
  set (norm := str_lower (remove_0x_prefix address)).
  assert (Hrm : forall s, remove_0x_prefix ("0x" +:+ s) = s) by reflexivity.
  unfold is_hex_address in Hv. apply andb_true_iff in Hv as [Hhex Hlen].
  assert (Hvalid : is_hex_address
                     ("0x" +:+ checksum_case norm (keccak_hex ext norm))
                   = true).
  { unfold is_hex_address. rewrite Hrm, checksum_case_hex,
      checksum_case_length. unfold norm.
    rewrite str_lower_hex, str_lower_length, Hhex, Hlen. reflexivity. }
  rewrite to_checksum_address_valid by exact Hvalid.
  rewrite Hrm, checksum_case_lower. unfold norm.
  rewrite str_lower_idem. reflexivity.
Qed.

(** The two queries, step by step. *)
Lemma get_balance_run client address block w :
  get_balance ext client address block w =
  match to_checksum_address ext address with
  | Raise e => (Raise e, w)
  | Ok c =>
      let w' := World (dispatched w ++ [ReqGetBalance c block])
                  (stdout w) (stderr w) in
      match w3_get_balance (_web3 client) c block with
      | Raise e => (Raise e, w')
      | Ok n =>
          match from_wei n "ether" with
          | Raise e => (Raise e, w')
          | Ok e => (Ok {| wei := n; ether := e |}, w')
          end
      end
  end.
Proof.
  unfold get_balance, io_bind, lift, dispatch, ret.
  destruct (to_checksum_address ext address) as [c|e]; [|reflexivity].
  destruct (w3_get_balance _ c block) as [n|e]; [|reflexivity].
  destruct (from_wei n "ether"); reflexivity.
Qed.

Lemma get_transaction_count_run client address block w :
  get_transaction_count ext client address block w =
  match to_checksum_address ext address with
  | Raise e => (Raise e, w)
  | Ok c =>
      (w3_get_transaction_count (_web3 client) c block,
       World (dispatched w ++ [ReqGetTransactionCount c block])
         (stdout w) (stderr w))
  end.
Proof.
  unfold get_transaction_count, io_bind, lift, dispatch.
  destruct (to_checksum_address ext address) as [c|e]; reflexivity.
Qed.

(** C6.  A [Balance] that [get_balance] returns holds the wei amount the
    endpoint answered, between 0 and [2^256 - 1], and an ether amount
    that is exactly that amount over [10^18]: times [10^18] it is the
    wei amount again, whatever the amount.  Every amount in that range
    gives a [Balance]. *)
Theorem get_balance_ether_exact client address block w :
  (forall b w',
     get_balance ext client address block w = (Ok b, w') ->
     (0 <= wei b <= MAX_WEI)%Z /\
     ether_to_wei (ether b) = Some (wei b) /\
     exists c, to_checksum_address ext address = Ok c /\
               w3_get_balance (_web3 client) c block = Ok (wei b)) /\
  (forall c n,
     to_checksum_address ext address = Ok c ->
     w3_get_balance (_web3 client) c block = Ok n ->
     (0 <= n <= MAX_WEI)%Z ->
     exists e,
       fst (get_balance ext client address block w)
       = Ok {| wei := n; ether := e |} /\
       ether_to_wei e = Some n).
Proof.
  split.
  - intros b w'. rewrite get_balance_run.
    destruct (to_checksum_address ext address) as [c|e]; [|discriminate].
    cbv zeta.
    destruct (w3_get_balance _ c block) as [n|e] eqn:Hn; [|discriminate].
    destruct (from_wei n "ether") as [e|e] eqn:He; [|discriminate].
    intros [= <- <-]. cbn [wei ether].
    apply from_wei_ether_back in He as [Hback Hrange]. eauto 10.
  - intros c n Hc Hn Hrange. rewrite get_balance_run, Hc. cbv zeta.
    rewrite Hn.
    destruct (Z.eq_dec n 0%Z) as [->|Hnz].
    + exists (PInt 0). split; reflexivity.
    + destruct (from_wei_ether_exact n) as (d & Hd & Hs & He & Hv); [lia|].
      rewrite Hd. exists (PDecimal d). split; [reflexivity|].
      apply (from_wei_ether_back n). exact Hd.
Qed.

(** C7.  For a valid address (forty hex digits, in any casing, with or
    without [0x]) both queries send the same checksummed form of it to
    the endpoint; spelling the address in another casing gives the same
    form; and the checksummed form is its own checksummed form. *)
Theorem queries_send_checksum_address client address block w :
  is_hex_address address = true ->
  exists c,
    to_checksum_address ext address = Ok c /\
    dispatched (snd (get_balance ext client address block w))
    = dispatched w ++ [ReqGetBalance c block] /\
    dispatched (snd (get_transaction_count ext client address block w))
    = dispatched w ++ [ReqGetTransactionCount c block] /\
    (forall other, str_lower other = str_lower address ->
                   to_checksum_address ext other = Ok c) /\
    to_checksum_address ext c = Ok c.
Proof.
  intros Hv. pose proof (to_checksum_address_valid address Hv) as Hc.
  eexists. split; [exact Hc|]. split; [|split; [|split]].
  - rewrite get_balance_run, Hc. cbv zeta.
    destruct (w3_get_balance _ _ block) as [n|e]; [|reflexivity].
    destruct (from_wei n "ether"); reflexivity.
  - rewrite get_transaction_count_run, Hc. reflexivity.
  - intros other Ho.
    rewrite (to_checksum_address_casing other address Ho). exact Hc.
  - eapply to_checksum_address_idempotent. exact Hc.
Qed.
End ClientFacts.

Lemma get_balance_ether_exact_witness :
  exists e,
    fst (get_balance sample_externals sample_client sample_address
           (PStr "latest") empty_world)
    = Ok {| wei := 1500000000000000000; ether := e |} /\
    ether_to_wei e = Some 1500000000000000000%Z.
Proof.
  eapply (proj2 (get_balance_ether_exact sample_externals sample_client
                   sample_address (PStr "latest") empty_world)).
  - vm_compute. reflexivity.
  - reflexivity.
  - vm_compute. split; discriminate.
Defined.

Lemma queries_send_checksum_address_witness :
  exists c,
    to_checksum_address sample_externals sample_address = Ok c /\
    dispatched (snd (get_balance sample_externals sample_client
                       sample_address (PStr "latest") empty_world))
    = dispatched empty_world ++ [ReqGetBalance c (PStr "latest")] /\
    dispatched (snd (get_transaction_count sample_externals sample_client
                       sample_address (PStr "latest") empty_world))
    = dispatched empty_world ++ [ReqGetTransactionCount c (PStr "latest")] /\
    (forall other, str_lower other = str_lower sample_address ->
                   to_checksum_address sample_externals other = Ok c) /\
    to_checksum_address sample_externals c = Ok c.
Proof.
  apply (queries_send_checksum_address sample_externals sample_client
           sample_address (PStr "latest") empty_world).
  vm_compute. reflexivity.
Defined.

Example checksum_sample :
  to_checksum_address sample_externals sample_address
  = Ok "0xDe0B295669a9fD93d5F28D9Ec85E40f4cB697baE".
Proof. vm_compute. reflexivity. Qed.

Example balance_sample :
  fst (get_balance sample_externals sample_client sample_address
         (PStr "latest") empty_world)
  = Ok {| wei := 1500000000000000000;
          ether := PDecimal (Dec false 15 (-1)) |}.
Proof. vm_compute. reflexivity. Qed.

(** Above [2^256 - 1] the conversion refuses the amount: no [Balance]. *)
Example from_wei_too_large :
  from_wei (2 ^ 256) "ether"
  = Raise (Exc ValueError "value must be between 1 and 2**256 - 1").
Proof. vm_compute. reflexivity. Qed.

(** ** The argument parser *)

Lemma assoc_In {A} (k : string) (l : list (string * A)) (v : A) :
  assoc k l = Some v -> In (k, v) l.
Proof.
  induction l as [|[k' v'] tl IH]; simpl; [discriminate|].
  destruct (String.eqb_spec k k') as [->|_].
  - intros [= ->]. left. reflexivity.
  - intros H. right. auto.
Qed.

Lemma opts_avoid (k : string) (acts : list argument) :
  Forall (act_avoids k) acts ->
  forall s a, In (s, a) (option_string_actions acts) -> act_avoids k a.
Proof.
  intros Hall s a Hin. unfold option_string_actions in Hin.
  apply in_flat_map in Hin as (a' & Ha' & Hin).
  apply in_map_iff in Hin as (s' & [= _ <-] & _).
  rewrite Forall_forall in Hall. apply Hall. apply list_elem_of_In. exact Ha'.
Qed.

Lemma option_tuples_from_opts opts arg a os e :
  In (a, os, e) (_get_option_tuples opts arg) -> In (os, a) opts.
Proof.
  unfold _get_option_tuples.
  destruct arg as [|c0 [|c1 rest]]; [intros []|intros []|].
  destruct (Ascii.eqb c1 "-").
  - destruct (match split_eq _ with Some _ => _ | None => _ end) as [p ex].
    intros Hin. apply in_flat_map in Hin as ([s a'] & Hopt & Hin).
    simpl in Hin. destruct (String.prefix p s); [|destruct Hin].
    destruct Hin as [[= <- <- _]|[]]. exact Hopt.
  - intros Hin. apply in_flat_map in Hin as ([s a'] & Hopt & Hin).
    simpl in Hin. destruct (String.eqb s _).
    + destruct Hin as [[= <- <- _]|[]]. exact Hopt.
    + destruct (String.prefix _ s); [|destruct Hin].
      destruct Hin as [[= <- <- _]|[]]. exact Hopt.
Qed.

Lemma parse_optional_avoids k opts arg t :
  (forall s a, In (s, a) opts -> act_avoids k a) ->
  _parse_optional opts arg = Ok t -> tag_avoids k t.
Proof.
  intros Hopts. unfold _parse_optional.
  destruct arg as [|c0 tl]; [intros [= <-]; exact I|].
  destruct (negb (Ascii.eqb c0 "-")); [intros [= <-]; exact I|].
  destruct (assoc (String c0 tl) opts) as [a|] eqn:Ha.
  { intros [= <-]. simpl. eapply Hopts, assoc_In, Ha. }
  destruct tl as [|c1 tl']; [intros [= <-]; exact I|].
  destruct (split_eq (String c0 (String c1 tl'))) as [[os e]|].
  - destruct (assoc os opts) as [a|] eqn:Hos.
    { intros [= <-]. simpl. eapply Hopts, assoc_In, Hos. }
    destruct (_get_option_tuples opts _) as [|[[a os'] e'] [|? ?]] eqn:Ht;
      try discriminate.
    + destruct (_ && _); [intros [= <-]; exact I|].
      destruct (contains_char _ _); intros [= <-]; exact I.
    + intros [= <-]. simpl. eapply Hopts, option_tuples_from_opts.
      rewrite Ht. left. reflexivity.
  - destruct (_get_option_tuples opts _) as [|[[a os'] e'] [|? ?]] eqn:Ht;
      try discriminate.
    + destruct (_ && _); [intros [= <-]; exact I|].
      destruct (contains_char _ _); intros [= <-]; exact I.
    + intros [= <-]. simpl. eapply Hopts, option_tuples_from_opts.
      rewrite Ht. left. reflexivity.
Qed.

Lemma classify_avoids k opts args tagged :
  (forall s a, In (s, a) opts -> act_avoids k a) ->
  classify opts args = Ok tagged ->
  Forall (fun x => tag_avoids k (snd x)) tagged.
Proof.
  intros Hopts. revert tagged.
  induction args as [|a tl IH]; intros tagged; simpl.
  - intros [= <-]. constructor.
  - destruct (String.eqb a "--").
    + intros [= <-]. constructor; [exact I|].
      apply Forall_forall. intros x Hx. apply list_elem_of_In in Hx.
      apply in_map_iff in Hx as (y & <- & _). exact I.
    + destruct (_parse_optional opts a) as [t|e] eqn:Ht; [|discriminate].
      simpl. destruct (classify opts tl) as [r|e]; [|discriminate].
      simpl. intros [= <-]. constructor; [|apply IH; reflexivity].
      eapply parse_optional_avoids; eauto.
Qed.

Lemma Forall_skipn {A} (P : A -> Prop) (n : nat) (l : list A) :
  Forall P l -> Forall P (skipn n l).
Proof.
  revert l. induction n as [|n IH]; intros l H; [exact H|].
  destruct H; simpl; [constructor|]. apply IH. assumption.
Qed.

Section LoopInvariant.
Variable run_sub :
  list argument -> list string -> result (Namespace * list string).
Variable opts : list (string * argument).
(** A property of the namespace and of the pending positionals, and a
    property of the classified strings still to read. *)
Variable I : Namespace -> list positional -> Prop.
Variable T : tag -> Prop.

Hypothesis positionals_keep :
  forall rest st rest' st',
    I (ns st) (pending st) -> Forall (fun x => T (snd x)) rest ->
    consume_positionals run_sub rest st = Ok (rest', st') ->
    I (ns st') (pending st') /\ Forall (fun x => T (snd x)) rest'.

Hypothesis optional_keeps :
  forall action os e arg tl st rest' st',
    I (ns st) (pending st) -> T (TagO action os e) ->
    Forall (fun x => T (snd x)) tl ->
    consume_optional opts action os e arg tl st = Ok (rest', st') ->
    I (ns st') (pending st') /\ Forall (fun x => T (snd x)) rest'.

(** What every step keeps, the loop keeps. *)
Lemma parse_loop_invariant fuel :
  forall rest st st',
    I (ns st) (pending st) -> Forall (fun x => T (snd x)) rest ->
    parse_loop run_sub fuel opts rest st = Ok st' ->
    I (ns st') (pending st').
Proof.
  induction fuel as [|fuel IH]; intros rest st st' Hi Hr; simpl;
    [discriminate|].
  destruct (negb (existsb is_option (map snd rest))).
  { destruct (consume_positionals run_sub rest st) as [[r s]|e] eqn:Hc;
      [|discriminate].
    simpl. intros [= <-]. cbn [ns pending].
    apply positionals_keep in Hc as [Hi' _]; auto. }
  destruct rest as [|[arg t] tl]; [intros [= <-]; exact Hi|].
  inversion Hr as [|? ? Ht Htl]; subst. simpl in Ht.
  assert (Hpos :
    match consume_positionals run_sub ((arg, t) :: tl) st with
    | Ok r =>
        if (length (fst r) <? length ((arg, t) :: tl))%nat
        then parse_loop run_sub fuel opts (fst r) (snd r)
        else
          let skipped :=
            count_while (fun t => negb (is_option t)) (map snd (fst r)) in
          let st0 := PState (ns (snd r))
                       (extras (snd r) ++ map fst (firstn skipped (fst r)))
                       (pending (snd r)) in
          match skipn skipped (fst r) with
          | (arg', TagO action os e) :: tl' =>
              let* r' := consume_optional opts action os e arg' tl' st0 in
              parse_loop run_sub fuel opts (fst r') (snd r')
          | _ => Ok st0
          end
    | Raise e => Raise e
    end = Ok st' -> I (ns st') (pending st')).
  { destruct (consume_positionals run_sub ((arg, t) :: tl) st)
      as [[r s]|e] eqn:Hc; [|discriminate].
    apply positionals_keep in Hc as [Hi' Hr']; auto.
    cbn [fst snd]. destruct (_ <? _)%nat.
    { intros H. apply IH in H; auto. }
    cbv zeta.
    set (skipped := count_while _ _).
    pose proof (Forall_skipn _ skipped _ Hr') as Hsk.
    destruct (skipn skipped r) as [|[arg' [| |action os e]] tl'];
      try (intros [= <-]; exact Hi').
    inversion Hsk as [|? ? Ht' Htl']; subst. simpl in Ht'.
    destruct (consume_optional _ _ _ _ _ _ _) as [[r' s']|e'] eqn:Ho;
      [|discriminate].
    apply optional_keeps in Ho as [Hi'' Hr'']; auto.
    simpl. intros H. apply IH in H; auto. }
  destruct t as [| |action os e]; [exact Hpos|exact Hpos|].
  destruct (consume_optional _ _ _ _ _ _ _) as [[r' s']|e'] eqn:Ho;
    [|discriminate].
  apply optional_keeps in Ho as [Hi' Hr']; auto.
  simpl. intros H. apply IH in H; auto.
Qed.
End LoopInvariant.

Section Frame.
Variable run_sub :
  list argument -> list string -> result (Namespace * list string).
Variable k : string.

(** An option that stores elsewhere leaves [k] and the pending
    positionals alone. *)
Lemma consume_optional_frame opts action os e arg tl st rest' st' :
  tag_avoids k (TagO action os e) ->
  Forall (fun x => tag_avoids k (snd x)) tl ->
  consume_optional opts action os e arg tl st = Ok (rest', st') ->
  ns st' !! k = ns st !! k /\ pending st' = pending st /\
  Forall (fun x => tag_avoids k (snd x)) rest'.
Proof.
  intros Hact Htl. unfold consume_optional.
  destruct action as [[opt_strings dest nargs default|opt_strings]|].
  - simpl in Hact. destruct e as [e|].
    + intros [= <- <-]. cbn [ns pending].
      rewrite lookup_insert_ne by exact Hact. auto.
    + destruct nargs.
      * destruct tl as [|[s [| |? ? ?]] tl']; try discriminate.
        intros [= <- <-]. cbn [ns pending].
        rewrite lookup_insert_ne by exact Hact.
        inversion Htl; subst. auto.
      * intros [= <- <-]. cbn [ns pending].
        rewrite lookup_insert_ne by exact Hact.
        split; [reflexivity|]. split; [reflexivity|].
        apply Forall_skipn; exact Htl.
  - destruct e as [e|]; [|discriminate].
    destruct (single_dash os); discriminate.
  - intros [= <- <-]. cbn [ns pending]. auto.
Qed.

(** Positionals that store elsewhere leave [k] alone. *)
Lemma consume_counts_frame counts :
  forall rest st rest' st',
    Forall (pos_avoids k) (pending st) ->
    Forall (fun x => tag_avoids k (snd x)) rest ->
    consume_counts run_sub counts rest st = Ok (rest', st') ->
    ns st' !! k = ns st !! k /\ Forall (pos_avoids k) (pending st') /\
    Forall (fun x => tag_avoids k (snd x)) rest'.
Proof.
  induction counts as [|c counts IH]; intros rest st rest' st' Hp Hr; simpl.
  - intros [= <- <-]. auto.
  - destruct st as [n ex pend]. cbn [pending ns extras] in *.
    destruct pend as [|p pend]; [intros [= <- <-]; auto|].
    inversion Hp as [|? ? Hp1 Hp2]; subst.
    destruct p as [dest nargs default|sp]; [|destruct Hp1].
    simpl in Hp1. cbn [take_positional bind fst snd].
    intros H. apply IH in H as (Hk & Hp' & Hr');
      [|exact Hp2|apply Forall_skipn; exact Hr].
    cbn [ns] in Hk. rewrite lookup_insert_ne in Hk by exact Hp1. auto.
Qed.

(** The loop of a parser whose actions all store elsewhere, and that has
    no sub-commands pending, leaves [k] alone. *)
Lemma parse_loop_frame fuel opts rest st st' :
  Forall (pos_avoids k) (pending st) ->
  Forall (fun x => tag_avoids k (snd x)) rest ->
  parse_loop run_sub fuel opts rest st = Ok st' ->
  ns st' !! k = ns st !! k.
Proof.
  intros Hp Hr H.
  apply (parse_loop_invariant run_sub opts
           (fun n p => n !! k = ns st !! k /\ Forall (pos_avoids k) p)
           (tag_avoids k)) in H; auto.
  - tauto.
  - clear. intros rest st0 rest' st' [Hk Hp] Hr Hc.
    apply consume_counts_frame in Hc as (Hk' & Hp' & Hr'); auto.
    rewrite Hk'. auto.
  - clear. intros action os e arg tl st0 rest' st' [Hk Hp] Ht Htl Ho.
    apply consume_optional_frame in Ho as (Hk' & Hp' & Hr'); auto.
    rewrite Hk', Hp'. auto.
Qed.
End Frame.

Lemma set_default_frame k dest d (n : Namespace) :
  dest <> k -> set_default dest d n !! k = n !! k.
Proof.
  intros Hne. unfold set_default. destruct (n !! dest); [reflexivity|].
  apply lookup_insert_ne. exact Hne.
Qed.

Lemma defaults_frame k acts :
  Forall (act_avoids k) acts ->
  defaults {| actions := acts; subparsers := None |} !! k = None.
Proof.
  intros Hall. unfold defaults. cbn [actions subparsers].
  assert (G : forall n : Namespace, n !! k = None ->
            fold_left (fun n a =>
                         match a with
                         | StoreAction _ dest _ d => set_default dest d n
                         | HelpAction _ => n
                         end) acts n !! k = None).
  { induction Hall as [|a tl Ha _ IH]; intros n Hn; simpl; [exact Hn|].
    apply IH. destruct a as [os dest nargs d|os]; [|exact Hn].
    simpl in Ha. rewrite set_default_frame by exact Ha. exact Hn. }
  apply G. apply lookup_empty.
Qed.

Lemma positionals_avoid k acts :
  Forall (act_avoids k) acts ->
  Forall (pos_avoids k)
    (positionals_of {| actions := acts; subparsers := None |}).
Proof.
  intros Hall. unfold positionals_of. cbn [actions subparsers].
  rewrite app_nil_r.
  induction Hall as [|a tl Ha _ IH]; simpl; [constructor|].
  destruct a as [[|o os] dest nargs d|os]; simpl; auto.
Qed.

(** The namespace of a sub-command has no attribute that none of its
    actions stores. *)
Lemma run_subparser_frame k acts args sub :
  Forall (act_avoids k) acts ->
  run_subparser acts args = Ok sub -> fst sub !! k = None.
Proof.
  intros Hall. unfold run_subparser, parse_known_args. cbn [actions].
  destruct (classify _ args) as [tagged|e] eqn:Hc; [|discriminate].
  cbn [bind].
  destruct (parse_loop _ _ _ _ _) as [st|e] eqn:Hl; [|discriminate].
  cbn [bind]. destruct (existsb required (pending st)); [discriminate|].
  intros [= <-]. cbn [fst].
  apply (parse_loop_frame _ k) in Hl.
  - rewrite Hl. cbn [ns]. apply defaults_frame. exact Hall.
  - cbn [pending]. apply positionals_avoid. exact Hall.
  - eapply classify_avoids; [|exact Hc]. apply opts_avoid. exact Hall.
Qed.

Lemma consume_counts_rest run_sub (T : tag -> Prop) counts :
  forall rest st rest' st',
    Forall (fun x => T (snd x)) rest ->
    consume_counts run_sub counts rest st = Ok (rest', st') ->
    Forall (fun x => T (snd x)) rest'.
Proof.
  induction counts as [|c counts IH]; intros rest st rest' st' Hr; simpl.
  - intros [= <- <-]. exact Hr.
  - destruct (pending st) as [|p pend]; [intros [= <- <-]; exact Hr|].
    destruct (take_positional _ _ _ _ _) as [r|e]; [|discriminate].
    simpl. intros H. apply IH in H; [exact H|]. apply Forall_skipn, Hr.
Qed.

Lemma subcommand_actions_avoid c acts :
  assoc c
    (match subparsers cli_parser with
     | Some sp => sp_choices sp
     | None => []
     end) = Some acts ->
  In c command_names /\ Forall (act_avoids "command") acts.
Proof.
  cbn [cli_parser subparsers sp_choices assoc].
  destruct (String.eqb_spec c "info") as [->|_].
  { intros [= <-]. split; [simpl; auto|].
    repeat constructor; discriminate. }
  destruct (String.eqb_spec c "balance") as [->|_].
  { intros [= <-]. split; [simpl; auto|].
    repeat constructor; discriminate. }
  destruct (String.eqb_spec c "tx-count") as [->|_].
  { intros [= <-]. split; [simpl; auto|].
    repeat constructor; discriminate. }
  destruct (String.eqb_spec c "call") as [->|_].
  { intros [= <-]. split; [simpl; auto 6|].
    repeat constructor; discriminate. }
  discriminate.
Qed.

(** Selecting the sub-command sets [command] to its name, and the
    attributes of the sub-command do not overwrite it. *)
Lemma take_subcommand sp args (n : Namespace) ex n' ex' :
  subparsers cli_parser = Some sp ->
  take_positional run_subparser (PosParser sp) args n ex = Ok (n', ex') ->
  command_ok n'.
Proof.
  intros Hsp. cbn [take_positional].
  destruct args as [|c rest]; [discriminate|].
  destruct (assoc c (sp_choices sp)) as [acts|] eqn:Hc; [|discriminate].
  pose proof (subcommand_actions_avoid c acts) as Hacts.
  rewrite Hsp in Hacts. apply Hacts in Hc as [Hin Hav]. clear Hacts.
  destruct (run_subparser acts rest) as [sub|e] eqn:Hsub; [|discriminate].
  cbn [bind]. intros [= <- _].
  apply (run_subparser_frame "command") in Hsub; [|exact Hav].
  exists c. split; [exact Hin|].
  rewrite lookup_union_r by exact Hsub.
  injection Hsp as <-. cbn [sp_dest]. apply lookup_insert_eq.
Qed.

Lemma consume_counts_top counts :
  forall rest st rest' st',
    top_inv (ns st) (pending st) ->
    consume_counts run_subparser counts rest st = Ok (rest', st') ->
    top_inv (ns st') (pending st').
Proof.
  induction counts as [|c counts IH]; intros rest st rest' st' Hi; simpl.
  - intros [= _ <-]. exact Hi.
  - destruct st as [n ex pend]. cbn [ns pending extras] in *.
    destruct Hi as [->|[->|[-> Hok]]].
    + cbn [positionals_of cli_parser actions subparsers flat_map app
             new_parser add_argument take_positional bind fst snd].
      intros H. apply IH in H; [exact H|]. right. left. reflexivity.
    + cbn [positionals_of cli_parser actions subparsers flat_map app
             new_parser add_argument tl].
      destruct (take_positional _ _ _ _ _) as [[n' ex']|e] eqn:Ht;
        [|discriminate].
      apply take_subcommand in Ht; [|reflexivity].
      cbn [bind fst snd]. intros H. apply IH in H; [exact H|].
      right. right. split; [reflexivity|exact Ht].
    + intros [= _ <-]. right. right. split; [reflexivity|exact Hok].
Qed.

(** C10, the parser's part: an accepted command line names one of the
    four commands. *)
Lemma parse_args_command argv args :
  parse_args argv = Ok args -> command_ok args.
Proof.
  unfold parse_args, ArgumentParser_parse_args, parse_known_args.
  destruct (classify _ argv) as [tagged|e] eqn:Hc; [|discriminate].
  cbn [bind].
  destruct (parse_loop _ _ _ _ _) as [st|e] eqn:Hl; [|discriminate].
  cbn [bind].
  destruct (existsb required (pending st)) eqn:Hreq; [discriminate|].
  cbn [bind fst snd]. destruct (extras st); [|discriminate].
  intros [= <-].
  apply (parse_loop_invariant run_subparser _ top_inv
           (tag_avoids "command")) in Hl.
  - destruct Hl as [Hp|[Hp|[_ Hok]]]; [| |exact Hok];
      rewrite Hp in Hreq; discriminate Hreq.
  - intros rest st0 rest' st1 Hi Hr Hcc. split.
    + eapply consume_counts_top; eauto.
    + eapply consume_counts_rest; eauto.
  - intros action os e arg tl st0 rest' st1 Hi Ht Htl Ho.
    apply (consume_optional_frame "command") in Ho as (Hk & Hp & Hr); auto.
    split; [|exact Hr]. rewrite Hp.
    destruct Hi as [Hi|[Hi|[Hi (c & Hin & Hcmd)]]]; [left|right; left|];
      try exact Hi.
    right. right. split; [exact Hi|]. exists c. split; [exact Hin|].
    rewrite Hk. exact Hcmd.
  - left. reflexivity.
  - eapply classify_avoids; [|exact Hc]. apply opts_avoid.
    repeat constructor. discriminate.
Qed.

(** ** The command line *)

Section CLIFacts.
Variable ext : Externals.

Lemma EVMClient_init_run url timeout w :
  EVMClient_init ext url timeout w =
  (if w3_is_connected (HTTPProvider ext url timeout)
   then Ok {| _web3 := HTTPProvider ext url timeout |}
   else Raise (Exc RPCConnectionError connection_error_message),
   World (dispatched w ++ [ReqIsConnected]) (stdout w) (stderr w)).
Proof.
  unfold EVMClient_init, io_bind, dispatch, raise, ret. cbn [_web3].
  destruct (w3_is_connected _); reflexivity.
Qed.

Lemma connect_run args url w :
  args !! "endpoint" = Some (PStr url) ->
  connect ext args w =
  if w3_is_connected (HTTPProvider ext url None)
  then (Ok (inl {| _web3 := HTTPProvider ext url None |}),
        World (dispatched w ++ [ReqIsConnected]) (stdout w) (stderr w))
  else (Ok (inr 1%Z),
        World (dispatched w ++ [ReqIsConnected]) (stdout w)
          (stderr w ++ ["Connection failed: " +:+ connection_error_message])).
Proof.
  intros He. unfold connect, try_except, io_bind, getattr, lift, as_str.
  rewrite He. cbn [ret]. rewrite EVMClient_init_run.
  destruct (w3_is_connected _); reflexivity.
Qed.

(** Whatever the namespace, the only status [connect] hands back is 1. *)
Lemma connect_status args w n w' :
  connect ext args w = (Ok (inr n), w') -> n = 1%Z.
Proof.
  unfold connect, try_except, io_bind, getattr, lift.
  destruct (args !! "endpoint") as [v|]; cbn [ret raise].
  - destruct (as_str v) as [url|e].
    + rewrite EVMClient_init_run.
      destruct (w3_is_connected _); [discriminate|].
      cbn. intros [= <- _]. reflexivity.
    + destruct (isinstance_exc e RPCConnectionError); [|discriminate].
      cbn. intros [= <- _]. reflexivity.
  - cbn. discriminate.
Qed.

Ltac step_io H :=
  match type of H with
  | context [match ?x with _ => _ end] =>
      let E := fresh "E" in destruct x eqn:E; try discriminate H
  end.

Lemma run_info_status client w n w' :
  run_info ext client w = (Ok n, w') -> n = 0%Z.
Proof.
  unfold run_info, io_bind, chain_id, block_number, dispatch, lift, print,
    ret.
  intros H. repeat step_io H. injection H as <- _. reflexivity.
Qed.

Lemma run_balance_status client args w n w' :
  run_balance ext client args w = (Ok n, w') -> n = 0%Z.
Proof.
  unfold run_balance, io_bind, getattr, lift, print, ret, raise.
  intros H. repeat step_io H. injection H as <- _. reflexivity.
Qed.

Lemma run_tx_count_status client args w n w' :
  run_tx_count ext client args w = (Ok n, w') -> n = 0%Z.
Proof.
  unfold run_tx_count, io_bind, getattr, lift, print, ret, raise.
  intros H. repeat step_io H. injection H as <- _. reflexivity.
Qed.

Lemma run_call_status client args w n w' :
  run_call ext client args w = (Ok n, w') -> n = 0%Z.
Proof.
  unfold run_call, io_bind, getattr, lift, print, ret, raise.
  intros H. repeat step_io H. injection H as <- _. reflexivity.
Qed.

Lemma dispatch_command_branch client args c :
  In c command_names -> args !! "command" = Some (PStr c) ->
  dispatch_command ext client args =
  if String.eqb c "info" then run_info ext client
  else if String.eqb c "balance" then run_balance ext client args
  else if String.eqb c "tx-count" then run_tx_count ext client args
  else run_call ext client args.
Proof.
  intros Hin Hc. unfold dispatch_command, getattr. rewrite Hc.
  destruct Hin as [<-|[<-|[<-|[<-|[]]]]]; reflexivity.
Qed.

Lemma dispatch_command_status client args w n w' :
  command_ok args ->
  dispatch_command ext client args w = (Ok n, w') -> n = 0%Z.
Proof.
  intros (c & Hin & Hc). rewrite (dispatch_command_branch client args c Hin Hc).
  destruct (String.eqb c "info"); [apply run_info_status|].
  destruct (String.eqb c "balance"); [apply run_balance_status|].
  destruct (String.eqb c "tx-count");
    [apply run_tx_count_status|apply run_call_status].
Qed.

Lemma run_cli_run argv args w :
  parse_args argv = Ok args ->
  run_cli ext argv w =
  match connect ext args w with
  | (Ok (inr status), w') => (Ok status, w')
  | (Ok (inl client), w') => dispatch_command ext client args w'
  | (Raise e, w') => (Raise e, w')
  end.
Proof.
  intros Hp. unfold run_cli, parse_args_io, io_bind. rewrite Hp.
  cbn [ret]. destruct (connect ext args w) as [[[client|status]|e] w'];
    reflexivity.
Qed.

(** C5.  When the command line is accepted and the endpoint it names is
    unreachable, the construction of the client raises
    [RPCConnectionError], and [run_cli] returns 1 after printing one
    line that begins with [Connection failed: ] to standard error and
    nothing to standard output.  When the endpoint is reachable and
    [run_cli] returns, it returns 0. *)
Theorem run_cli_exit_status argv args url w :
  parse_args argv = Ok args ->
  args !! "endpoint" = Some (PStr url) ->
  (w3_is_connected (HTTPProvider ext url None) = false ->
   fst (EVMClient_init ext url None w)
   = Raise (Exc RPCConnectionError connection_error_message) /\
   run_cli ext argv w =
   (Ok 1%Z,
    World (dispatched w ++ [ReqIsConnected]) (stdout w)
      (stderr w ++ ["Connection failed: " +:+ connection_error_message])))
  /\
  (w3_is_connected (HTTPProvider ext url None) = true ->
   forall n w', run_cli ext argv w = (Ok n, w') -> n = 0%Z).
Proof.
  intros Hp He. split; intros Hconn.
  - split.
    + rewrite EVMClient_init_run, Hconn. reflexivity.
    + rewrite (run_cli_run argv args w Hp), (connect_run args url w He),
        Hconn. reflexivity.
  - intros n w'.
    rewrite (run_cli_run argv args w Hp), (connect_run args url w He),
      Hconn.
    apply dispatch_command_status. apply parse_args_command with argv.
    exact Hp.
Qed.

(** C10 (as amended).  An accepted command line names one of the four
    commands; with the client constructed, [run_cli] runs the branch of
    that name, never the [raise AssertionError] under the branches; and
    when [run_cli] returns, it returns the integer 0, or 1 after a
    failed connection. *)
Theorem accepted_command_dispatches argv args :
  parse_args argv = Ok args ->
  exists c,
    In c command_names /\ args !! "command" = Some (PStr c) /\
    (forall client,
       dispatch_command ext client args =
       if String.eqb c "info" then run_info ext client
       else if String.eqb c "balance" then run_balance ext client args
       else if String.eqb c "tx-count" then run_tx_count ext client args
       else run_call ext client args) /\
    (forall w n w', run_cli ext argv w = (Ok n, w') -> n = 0%Z \/ n = 1%Z).
Proof.
  intros Hp. pose proof (parse_args_command argv args Hp) as Hok.
  destruct Hok as (c & Hin & Hc). exists c.
  split; [exact Hin|]. split; [exact Hc|]. split.
  - intros client. apply dispatch_command_branch; assumption.
  - intros w n w'. rewrite (run_cli_run argv args w Hp).
    destruct (connect ext args w) as [[[client|status]|e] w0] eqn:Hco.
    + intros H. left. eapply dispatch_command_status; [|exact H].
      exists c. auto.
    + intros [= <- _]. right. eapply connect_status. exact Hco.
    + discriminate.
Qed.
End CLIFacts.

Lemma run_cli_exit_status_witness :
  run_cli sample_externals offline_argv empty_world
  = (Ok 1%Z,
     World [ReqIsConnected] []
       ["Connection failed: " +:+ connection_error_message]) /\
  (forall n w',
     run_cli sample_externals sample_argv empty_world = (Ok n, w') ->
     n = 0%Z).
Proof.
  split.
  - refine (proj2 (proj1 (run_cli_exit_status sample_externals offline_argv
             offline_args "http://10.0.0.1:8545" empty_world _ _) _)).
    + vm_compute. reflexivity.
    + vm_compute. reflexivity.
    + reflexivity.
  - refine (proj2 (run_cli_exit_status sample_externals sample_argv
             sample_args "http://localhost:8545" empty_world _ _) _).
    + vm_compute. reflexivity.
    + vm_compute. reflexivity.
    + reflexivity.
Defined.

Lemma accepted_command_dispatches_witness :
  exists c,
    In c command_names /\ sample_args !! "command" = Some (PStr c) /\
    (forall client,
       dispatch_command sample_externals client sample_args =
       if String.eqb c "info" then run_info sample_externals client
       else if String.eqb c "balance"
            then run_balance sample_externals client sample_args
       else if String.eqb c "tx-count"
            then run_tx_count sample_externals client sample_args
       else run_call sample_externals client sample_args) /\
    (forall w n w',
       run_cli sample_externals sample_argv w = (Ok n, w') ->
       n = 0%Z \/ n = 1%Z).
Proof.
  apply (accepted_command_dispatches sample_externals sample_argv sample_args).
  vm_compute. reflexivity.
Defined.

(** C10, as stated, fails: an accepted command line whose address is not
    one makes [run_cli] raise instead of returning an integer, and with an
    unreachable endpoint [run_cli] returns before any of the four
    branches (nothing but the liveness probe is sent). *)
Lemma run_cli_may_raise :
  (exists args, parse_args ["http://localhost:8545"; "balance"; "zzz"]
                = Ok args) /\
  fst (run_cli sample_externals ["http://localhost:8545"; "balance"; "zzz"]
         empty_world)
  = Raise (Exc ValueError "Unknown format, attempted to normalize") /\
  (exists args, parse_args offline_argv = Ok args) /\
  dispatched (snd (run_cli sample_externals offline_argv empty_world))
  = [ReqIsConnected].
Proof.
  split; [eexists; vm_compute; reflexivity|].
  split; [vm_compute; reflexivity|].
  split; [eexists; vm_compute; reflexivity|].
  vm_compute. reflexivity.
Qed.

Example run_cli_sample :
  run_cli sample_externals sample_argv empty_world
  = (Ok 0%Z,
     World [ReqIsConnected;
            ReqGetBalance "0xDe0B295669a9fD93d5F28D9Ec85E40f4cB697baE"
              (PStr "latest")]
       ["{...}"] []).
Proof. vm_compute. reflexivity. Qed.

Example run_cli_help :
  run_cli sample_externals ["-h"] empty_world
  = (Raise exit_help, World [] ["usage"] []).
Proof. vm_compute. reflexivity. Qed.

Example run_cli_no_command :
  fst (run_cli sample_externals ["http://localhost:8545"] empty_world)
  = Raise (exit_error "the following arguments are required").
Proof. vm_compute. reflexivity. Qed.

(** ** The parser always decides *)

Lemma help_cluster_leaves opts e next : leaves_parser (help_cluster opts e next).
Proof.
  induction e as [|c tl IH]; simpl; [exact I|].
  destruct (assoc _ opts) as [[? ? [] ?|?]|]; try exact I.
  - destruct tl; [destruct next|]; exact I.
  - destruct tl; [exact I|exact IH].
Qed.

Lemma consume_optional_length opts action os e arg tl st :
  match consume_optional opts action os e arg tl st with
  | Ok r => (length (fst r) <= length tl)%nat
  | Raise x => leaves_parser x
  end.
Proof.
  unfold consume_optional.
  destruct action as [[opt_strings dest nargs default|opt_strings]|].
  - destruct e as [e|]; [simpl; lia|].
    destruct nargs.
    + destruct tl as [|[s [| |? ? ?]] tl']; simpl; try exact I. lia.
    + cbn [fst]. rewrite length_skipn. lia.
  - destruct e as [e|]; [|exact I].
    destruct (single_dash os); [apply help_cluster_leaves|exact I].
  - simpl. lia.
Qed.

Section Decides.
Variable run_sub :
  list argument -> list string -> result (Namespace * list string).
Hypothesis run_sub_leaves :
  forall acts args e, run_sub acts args = Raise e -> leaves_parser e.

Lemma take_positional_leaves p args (n : Namespace) ex e :
  take_positional run_sub p args n ex = Raise e -> leaves_parser e.
Proof.
  destruct p as [dest nargs default|sp]; simpl; [discriminate|].
  destruct args as [|c rest]; [intros [= <-]; exact I|].
  destruct (assoc c (sp_choices sp)) as [acts|]; [|intros [= <-]; exact I].
  destruct (run_sub acts rest) as [sub|x] eqn:Hs; [discriminate|].
  simpl. intros [= <-]. eapply run_sub_leaves, Hs.
Qed.

Lemma consume_counts_length counts :
  forall rest st,
    match consume_counts run_sub counts rest st with
    | Ok r => (length (fst r) <= length rest)%nat
    | Raise x => leaves_parser x
    end.
Proof.
  induction counts as [|c counts IH]; intros rest st; simpl; [lia|].
  destruct (pending st) as [|p pend]; [simpl; lia|].
  destruct (take_positional _ _ _ _ _) as [r|x] eqn:Ht.
  - simpl. specialize (IH (skipn c rest) (PState (fst r) (snd r) pend)).
    destruct (consume_counts _ _ _ _) as [r'|x]; [|exact IH].
    rewrite length_skipn in IH. lia.
  - simpl. eapply take_positional_leaves, Ht.
Qed.

(** With more fuel than strings to read, the loop ends by itself: it
    returns, or leaves the way [argparse] does. *)
Lemma parse_loop_decides fuel opts :
  forall rest st e,
    (length rest < fuel)%nat ->
    parse_loop run_sub fuel opts rest st = Raise e -> leaves_parser e.
Proof.
  induction fuel as [|fuel IH]; intros rest st e Hf; [lia|]. simpl.
  pose proof (consume_counts_length
                (match_partial (length (map pattern_of (pending st)))
                   (map pattern_of (pending st)) (map snd rest)) rest st)
    as Hcp.
  fold (consume_positionals run_sub rest st) in Hcp.
  destruct (negb (existsb is_option (map snd rest))).
  { destruct (consume_positionals run_sub rest st) as [r|x];
      [discriminate|]. simpl. intros [= <-]. exact Hcp. }
  destruct rest as [|[arg t] tl]; [discriminate|].
  assert (Hpos :
    match consume_positionals run_sub ((arg, t) :: tl) st with
    | Ok r =>
        if (length (fst r) <? length ((arg, t) :: tl))%nat
        then parse_loop run_sub fuel opts (fst r) (snd r)
        else
          let skipped :=
            count_while (fun t => negb (is_option t)) (map snd (fst r)) in
          let st0 := PState (ns (snd r))
                       (extras (snd r) ++ map fst (firstn skipped (fst r)))
                       (pending (snd r)) in
          match skipn skipped (fst r) with
          | (arg', TagO action os e) :: tl' =>
              let* r' := consume_optional opts action os e arg' tl' st0 in
              parse_loop run_sub fuel opts (fst r') (snd r')
          | _ => Ok st0
          end
    | Raise e => Raise e
    end = Raise e -> leaves_parser e).
  { destruct (consume_positionals run_sub ((arg, t) :: tl) st) as [[r s]|x];
      [|intros [= <-]; exact Hcp].
    cbn [fst snd] in *.
    destruct (Nat.ltb_spec (length r) (length ((arg, t) :: tl))) as [Hlt|_].
    { apply IH. lia. }
    cbv zeta. set (skipped := count_while _ _).
    pose proof (length_skipn skipped r) as Hsk.
    destruct (skipn skipped r) as [|[arg' [| |action os x]] tl'];
      try discriminate.
    match goal with
    | |- context [consume_optional ?o ?a ?s ?x ?g ?t ?st] =>
        pose proof (consume_optional_length o a s x g t st) as Ho;
        destruct (consume_optional o a s x g t st) as [r'|y]
    end.
    - simpl. apply IH. simpl in Hsk, Hcp, Hf. lia.
    - simpl. intros [= <-]. exact Ho. }
  destruct t as [| |action os x]; [exact Hpos|exact Hpos|].
  match goal with
  | |- context [consume_optional ?o ?a ?s ?x ?g ?t ?st] =>
      pose proof (consume_optional_length o a s x g t st) as Ho;
      destruct (consume_optional o a s x g t st) as [r'|y]
  end.
  - simpl. apply IH. simpl in Hf. lia.
  - simpl. intros [= <-]. exact Ho.
Qed.

Lemma classify_leaves opts args e :
  classify opts args = Raise e -> leaves_parser e.
Proof.
  induction args as [|a tl IH]; simpl; [discriminate|].
  destruct (String.eqb a "--"); [discriminate|].
  destruct (_parse_optional opts a) as [t|x] eqn:Hp.
  - simpl. destruct (classify opts tl) as [r|x]; [discriminate|].
    simpl. intros [= <-]. apply IH. reflexivity.
  - simpl. intros [= <-]. revert Hp. unfold _parse_optional.
    repeat match goal with
           | |- context [match ?x with _ => _ end] => destruct x
           end; try discriminate; intros [= <-]; exact I.
Qed.

Lemma classify_length opts args tagged :
  classify opts args = Ok tagged -> length tagged = length args.
Proof.
  revert tagged. induction args as [|a tl IH]; intros tagged; simpl.
  - intros [= <-]. reflexivity.
  - destruct (String.eqb a "--").
    + intros [= <-]. simpl. rewrite length_map. reflexivity.
    + destruct (_parse_optional opts a); [|discriminate]. simpl.
      destruct (classify opts tl) as [r|]; [|discriminate]. simpl.
      intros [= <-]. simpl. rewrite (IH r); reflexivity.
Qed.

Lemma parse_known_args_decides p args e :
  parse_known_args run_sub p args = Raise e -> leaves_parser e.
Proof.
  unfold parse_known_args.
  destruct (classify _ args) as [tagged|x] eqn:Hc.
  - cbn [bind].
    destruct (parse_loop _ _ _ _ _) as [st|x] eqn:Hl.
    + cbn [bind]. destruct (existsb required (pending st)); [|discriminate].
      intros [= <-]. exact I.
    + cbn [bind]. intros [= <-].
      eapply parse_loop_decides; [|exact Hl].
      rewrite (classify_length _ _ _ Hc). lia.
  - cbn [bind]. intros [= <-]. eapply classify_leaves, Hc.
Qed.
End Decides.

(** [parse_args] returns a namespace or leaves with [SystemExit]
    ([IndexError] for [-h=]): it never runs out of fuel. *)
Lemma parse_args_decides argv e :
  parse_args argv = Raise e -> leaves_parser e.
Proof.
  unfold parse_args, ArgumentParser_parse_args.
  destruct (parse_known_args run_subparser cli_parser argv) as [r|x] eqn:Hp.
  - cbn [bind]. destruct (snd r); [discriminate|]. intros [= <-]. exact I.
  - cbn [bind]. intros [= <-].
    eapply parse_known_args_decides; [|exact Hp].
    intros acts args y Hy. unfold run_subparser in Hy.
    eapply parse_known_args_decides; [|exact Hy].
    intros ? ? ? [= <-]. exact I.
Qed.

(** ** The command lines [parse_args] accepts *)

Lemma plain_not_separator s : plain s = true -> String.eqb s "--" = false.
Proof.
  destruct s as [|c tl]; [reflexivity|]. simpl. intros H.
  destruct (Ascii.eqb c "-"); [discriminate|reflexivity].
Qed.

Lemma separator_not_plain s : plain s = true -> String.eqb "--" s = false.
Proof. intros H. rewrite String.eqb_sym. apply plain_not_separator, H. Qed.

Lemma parse_optional_plain opts s :
  plain s = true -> _parse_optional opts s = Ok TagA.
Proof.
  destruct s as [|c tl]; [reflexivity|]. simpl. intros ->. reflexivity.
Qed.

Lemma classify_plain opts args :
  forallb plain args = true -> classify opts args = Ok (all_A args).
Proof.
  induction args as [|a tl IH]; [reflexivity|]. simpl.
  intros H. apply andb_true_iff in H as [Ha Htl].
  rewrite (plain_not_separator a Ha), (parse_optional_plain opts a Ha).
  simpl. rewrite (IH Htl). reflexivity.
Qed.

Lemma classify_plain_cons opts a tl :
  plain a = true ->
  classify opts (a :: tl) =
  let* r := classify opts tl in Ok ((a, TagA) :: r).
Proof.
  intros Ha. simpl.
  rewrite (plain_not_separator a Ha), (parse_optional_plain opts a Ha).
  reflexivity.
Qed.

Lemma classify_fst opts args tagged :
  classify opts args = Ok tagged -> map fst tagged = args.
Proof.
  revert tagged. induction args as [|a tl IH]; intros tagged; cbn [classify].
  - intros [= <-]. reflexivity.
  - destruct (String.eqb a "--").
    + intros [= <-]. cbn. f_equal. rewrite map_map. apply map_id.
    + destruct (_parse_optional opts a); [|discriminate]. cbn [bind].
      destruct (classify opts tl) as [r|]; [|discriminate]. cbn [bind].
      intros [= <-]. cbn. f_equal. apply IH. reflexivity.
Qed.

Lemma all_A_fst l : map fst (all_A l) = l.
Proof. induction l; simpl; congruence. Qed.

Lemma all_A_length l : length (all_A l) = length l.
Proof. apply length_map. Qed.

Lemma all_A_no_option l : existsb is_option (map snd (all_A l)) = false.
Proof. induction l; simpl; auto. Qed.

Lemma all_A_no_D l : count_while is_D (map snd (all_A l)) = 0.
Proof. destruct l; reflexivity. Qed.

Lemma all_A_run l :
  count_while (fun t => is_A t || is_D t) (map snd (all_A l)) = length l.
Proof. induction l; simpl; congruence. Qed.

Lemma down_from_first b n : exists l, down_from b n = (b + n) :: l.
Proof.
  destruct n; simpl; eauto. exists []. rewrite Nat.add_0_r. reflexivity.
Qed.

Lemma remove_first_plain l :
  forallb plain l = true -> remove_first "--" l = l.
Proof.
  induction l as [|a tl IH]; [reflexivity|]. cbn [remove_first forallb].
  intros H. apply andb_true_iff in H as [Ha Htl].
  rewrite (separator_not_plain a Ha), (IH Htl). reflexivity.
Qed.

(** *** The parsers of the sub-commands *)

Ltac consume_args :=
  cbn -[String.eqb insert union empty lookup set_default];
  rewrite ?separator_not_plain by assumption;
  cbn -[insert union empty lookup set_default].

Ltac enter_subparser opts :=
  unfold run_subparser, parse_known_args; cbn [actions];
  change (option_string_actions balance_actions) with opts.

Lemma subparser_info : run_subparser new_parser [] = Ok (∅, []).
Proof. vm_compute. reflexivity. Qed.

Lemma classify_block_flag tl :
  classify balance_opts ("--block" :: tl) =
  let* r := classify balance_opts tl in
  Ok (("--block", TagO (Some block_action) "--block" None) :: r).
Proof. reflexivity. Qed.

Lemma classify_block_equals b tl :
  classify balance_opts (("--block=" +:+ b) :: tl) =
  let* r := classify balance_opts tl in
  Ok (("--block=" +:+ b, TagO (Some block_action) "--block" (Some b)) :: r).
Proof. reflexivity. Qed.

Lemma subparser_address address :
  plain address = true ->
  run_subparser balance_actions [address] =
  Ok (<["address" := PStr address]>
        (<["block_identifier" := PStr "latest"]> ∅), []).
Proof.
  intros Ha. enter_subparser balance_opts.
  rewrite classify_plain by (cbn; rewrite Ha; reflexivity).
  cbn [bind all_A map]. consume_args. reflexivity.
Qed.

Lemma subparser_address_block address block :
  plain address = true -> plain block = true ->
  run_subparser balance_actions [address; "--block"; block] =
  Ok (<["address" := PStr address]>
        (<["block_identifier" := PStr block]> ∅), []).
Proof.
  intros Ha Hb. enter_subparser balance_opts.
  rewrite (classify_plain_cons _ _ _ Ha), classify_block_flag.
  rewrite classify_plain by (cbn; rewrite Hb; reflexivity).
  cbn [bind all_A map]. consume_args. reflexivity.
Qed.

Lemma subparser_block_address address block :
  plain address = true -> plain block = true ->
  run_subparser balance_actions ["--block"; block; address] =
  Ok (<["address" := PStr address]>
        (<["block_identifier" := PStr block]> ∅), []).
Proof.
  intros Ha Hb. enter_subparser balance_opts.
  rewrite classify_block_flag.
  rewrite classify_plain by (cbn; rewrite Ha, Hb; reflexivity).
  cbn [bind all_A map]. consume_args. reflexivity.
Qed.

Lemma subparser_address_block_equals address block :
  plain address = true -> String.eqb "--" block = false ->
  run_subparser balance_actions [address; "--block=" +:+ block] =
  Ok (<["address" := PStr address]>
        (<["block_identifier" := PStr block]> ∅), []).
Proof.
  intros Ha Hb. enter_subparser balance_opts.
  rewrite (classify_plain_cons _ _ _ Ha), classify_block_equals.
  cbn [bind classify].
  cbn -[String.eqb insert union empty lookup set_default].
  rewrite Hb, (separator_not_plain _ Ha). reflexivity.
Qed.

Lemma subparser_call method params :
  plain method = true -> forallb plain params = true ->
  run_subparser call_actions (method :: params) =
  Ok (<["method" := PStr method]>
        (<["params" := PList (map PStr params)]> ∅), []).
Proof.
  intros Hm Hp. unfold run_subparser, parse_known_args. cbn [actions].
  rewrite classify_plain by (simpl; rewrite Hm, Hp; reflexivity).
  cbn [bind]. cbn [parse_loop length]. rewrite all_A_no_option. cbn [negb].
  unfold consume_positionals.
  cbn [pending positionals_of call_actions actions subparsers flat_map app
       map pattern_of length].
  assert (Hcounts :
    match_partial 2 [PatOne; PatStar] (map snd (all_A (method :: params)))
    = [1; length params]).
  { cbn [match_partial firstn]. cbn [match_all all_A map snd candidates
      count_while is_D skipn]. fold (all_A params).
    rewrite all_A_no_D. cbn [down_from Nat.add fold_right skipn].
    rewrite ?skipn_O, all_A_run.
    destruct (down_from_first 0 (length params)) as [l ->]. reflexivity. }
  rewrite Hcounts. cbn [consume_counts pending take_positional bind ns extras
    fst snd]. cbn [all_A map firstn skipn fst]. fold (all_A params).
  rewrite <- (all_A_length params) at 1 2. rewrite firstn_all, skipn_all.
  rewrite skipn_O, all_A_fst. cbn [firstn map existsb app].
  unfold _get_values. cbn [remove_first]. rewrite (separator_not_plain _ Hm).
  rewrite (remove_first_plain _ Hp).
  replace (match params with [] => PList [] | _ :: _ => PList (map PStr params) end)
    with (PList (map PStr params)) by (destruct params; reflexivity).
  reflexivity.
Qed.

(** *** The top level: no option but the help *)

Lemma split_eq_dashes rest p e :
  split_eq (String "-" (String "-" rest)) = Some (p, e) ->
  exists p', p = String "-" (String "-" p').
Proof.
  cbn. destruct (split_eq rest) as [[a b]|]; [|discriminate].
  intros [= <- <-]. eauto.
Qed.

Lemma option_tuples_top c1 rest :
  length (_get_option_tuples top_opts (String "-" (String c1 rest))) <= 1.
Proof.
  unfold _get_option_tuples. destruct (Ascii.eqb c1 "-") eqn:H1.
  - apply Ascii.eqb_eq in H1. subst c1.
    destruct (split_eq (String "-" (String "-" rest))) as [[p e]|] eqn:Hs.
    + destruct (split_eq_dashes _ _ _ Hs) as [p' ->]. cbn.
      match goal with
      | |- length ((if ?b then _ else _) ++ _) <= 1 => destruct b
      end; cbn; lia.
    + cbn.
      match goal with
      | |- length ((if ?b then _ else _) ++ _) <= 1 => destruct b
      end; cbn; lia.
  - cbn [top_opts flat_map fst snd app].
    assert (H2 : String.eqb "--help" (String "-" (String c1 "")) = false).
    { cbn. destruct c1 as [[] [] [] [] [] [] [] []]; reflexivity. }
    assert (H3 : String.prefix (String "-" (String c1 rest)) "--help" = false).
    { cbn. destruct (ascii_dec c1 "-") as [->|]; [discriminate|reflexivity]. }
    rewrite H2, H3.
    destruct (String.eqb "-h" _); [cbn [length app]; lia|].
    destruct (String.prefix _ "-h"); cbn [length app]; lia.
Qed.

(** At the top level no string is an ambiguous abbreviation. *)
Lemma parse_optional_top a : exists t, _parse_optional top_opts a = Ok t.
Proof.
  unfold _parse_optional. destruct a as [|c0 tl]; [eauto|].
  destruct (Ascii.eqb c0 "-") eqn:H0; [|cbn; eauto].
  apply Ascii.eqb_eq in H0. subst c0. cbn [negb].
  destruct (assoc _ top_opts); [eauto|].
  destruct tl as [|c1 rest]; [eauto|].
  destruct (match split_eq _ with Some _ => _ | None => _ end); [eauto|].
  pose proof (option_tuples_top c1 rest) as Hlen.
  destruct (_get_option_tuples top_opts _) as [|[[x os] e] [|y l]].
  - destruct (_ && _); [eauto|]. destruct (contains_char _ _); eauto.
  - eauto.
  - cbn in Hlen. lia.
Qed.

Lemma classify_top args : exists tagged, classify top_opts args = Ok tagged.
Proof.
  induction args as [|a tl [r IH]]; cbn [classify]; [eauto|].
  destruct (String.eqb a "--"); [eauto|].
  destruct (parse_optional_top a) as [t ->]. rewrite IH. cbn. eauto.
Qed.

Lemma match_command ts :
  match_partial 2 [PatOne; PatParser] (TagA :: TagA :: ts)
  = [1; S (length ts)].
Proof.
  cbn. destruct (down_from_first 1 (length ts)) as [l Hl].
  destruct (length ts); cbn; reflexivity.
Qed.

Lemma subcommand_plain c acts :
  assoc c subcommands = Some acts -> plain c = true.
Proof.
  cbn.
  destruct (String.eqb c "info") eqn:H1;
    [apply String.eqb_eq in H1; subst; reflexivity|].
  destruct (String.eqb c "balance") eqn:H2;
    [apply String.eqb_eq in H2; subst; reflexivity|].
  destruct (String.eqb c "tx-count") eqn:H3;
    [apply String.eqb_eq in H3; subst; reflexivity|].
  destruct (String.eqb c "call") eqn:H4;
    [apply String.eqb_eq in H4; subst; reflexivity|].
  discriminate.
Qed.

(** The endpoint and the command word take the whole command line: the
    words after the command go to the parser the command names. *)
Lemma consume_command url c tagged :
  plain url = true ->
  consume_positionals run_subparser ((url, TagA) :: (c, TagA) :: tagged)
    top_state =
  match assoc c subcommands with
  | None => Raise (exit_error "invalid choice")
  | Some acts =>
      let* sub := run_subparser acts (map fst tagged) in
      Ok ([], PState (fst sub ∪ <["command" := PStr c]>
                                    (<["endpoint" := PStr url]> ∅))
                (snd sub) [])
  end.
Proof.
  intros Hu. unfold consume_positionals.
  change (map pattern_of (pending top_state)) with [PatOne; PatParser].
  cbn [map snd length]. rewrite match_command.
  cbn [consume_counts].
  change (pending top_state) with
    [PosStore "endpoint" NargsOne PNone;
     PosParser {| sp_dest := "command"; sp_required := true;
                  sp_choices := subcommands |}].
  cbn [consume_counts pending take_positional bind firstn skipn map fst snd
       ns extras top_state sp_choices sp_dest].
  rewrite length_map, firstn_all, skipn_all.
  destruct (assoc c subcommands) as [acts|]; [|reflexivity].
  unfold _get_values. cbn [remove_first]. rewrite (separator_not_plain _ Hu).
  destruct (run_subparser acts (map fst tagged)) as [[subns subex]|e];
    cbn [bind fst snd app]; reflexivity.
Qed.

Lemma consume_nothing st :
  pending st = [] -> consume_positionals run_subparser [] st = Ok ([], st).
Proof.
  intros H. unfold consume_positionals. rewrite H. reflexivity.
Qed.

Lemma parse_args_enters url c rest :
  plain url = true -> plain c = true ->
  parse_args (url :: c :: rest) =
  match assoc c subcommands with
  | None => Raise (exit_error "invalid choice")
  | Some acts =>
      let* sub := run_subparser acts rest in
      match snd sub with
      | [] => Ok (fst sub ∪ <["command" := PStr c]>
                              (<["endpoint" := PStr url]> ∅))
      | _ :: _ => Raise (exit_error "unrecognized arguments")
      end
  end.
Proof.
  intros Hu Hp.
  unfold parse_args, ArgumentParser_parse_args, parse_known_args.
  change (option_string_actions (actions cli_parser)) with top_opts.
  destruct (classify_top rest) as [tagged Ht].
  rewrite !classify_plain_cons by assumption. rewrite Ht. cbn [bind].
  fold top_state. pose proof (classify_fst _ _ _ Ht) as Hfst.
  cbn [parse_loop map snd existsb is_option orb length].
  destruct (existsb is_option (map snd tagged)); cbn [negb];
    rewrite (consume_command url c tagged Hu), Hfst;
    (destruct (assoc c subcommands) as [acts|]; [|reflexivity]).
  - destruct (run_subparser acts rest) as [[subns subex]|e];
      cbn [bind fst snd ns extras pending map existsb length Nat.ltb
           Nat.leb parse_loop negb]; [|reflexivity].
    rewrite consume_nothing by reflexivity.
    cbn [bind fst snd ns extras pending map existsb].
    rewrite app_nil_r. reflexivity.
  - destruct (run_subparser acts rest) as [[subns subex]|e];
      cbn [bind fst snd ns extras pending map existsb]; [|reflexivity].
    rewrite app_nil_r. reflexivity.
Qed.

(** X1.  After the endpoint and the command word, the rest of the command
    line is parsed by the parser of that sub-command alone, whatever it
    holds; the attributes it sets are added to [endpoint] and [command],
    and a word it does not take makes [parse_args] leave with status 2. *)
Theorem parse_args_subcommand url c acts rest :
  plain url = true -> assoc c subcommands = Some acts ->
  parse_args (url :: c :: rest) =
  let* sub := run_subparser acts rest in
  match snd sub with
  | [] => Ok (fst sub ∪ <["command" := PStr c]>
                          (<["endpoint" := PStr url]> ∅))
  | _ :: _ => Raise (exit_error "unrecognized arguments")
  end.
Proof.
  intros Hu Hc.
  rewrite (parse_args_enters url c rest Hu (subcommand_plain _ _ Hc)), Hc.
  reflexivity.
Qed.

Lemma parse_args_subcommand_witness :
  parse_args ("http://localhost:8545" :: "balance" :: [sample_address]) =
  let* sub := run_subparser balance_actions [sample_address] in
  match snd sub with
  | [] => Ok (fst sub ∪ <["command" := PStr "balance"]>
                          (<["endpoint" := PStr "http://localhost:8545"]> ∅))
  | _ :: _ => Raise (exit_error "unrecognized arguments")
  end.
Proof.
  apply (parse_args_subcommand "http://localhost:8545" "balance"
           balance_actions [sample_address]); reflexivity.
Defined.

(** X2.  A word after the endpoint that is no command is refused with
    status 2, whatever follows it. *)
Theorem parse_args_unknown_command url c rest :
  plain url = true -> plain c = true -> assoc c subcommands = None ->
  parse_args (url :: c :: rest) = Raise (exit_error "invalid choice").
Proof.
  intros Hu Hp Hc. rewrite (parse_args_enters url c rest Hu Hp), Hc.
  reflexivity.
Qed.

Lemma parse_args_unknown_command_witness :
  parse_args ("http://localhost:8545" :: "nonce" :: ["0x00"]) =
  Raise (exit_error "invalid choice").
Proof.
  apply (parse_args_unknown_command "http://localhost:8545" "nonce" ["0x00"]);
    reflexivity.
Defined.

(** X3.  [info] takes the endpoint and nothing else. *)
Theorem parse_args_info url :
  plain url = true -> parse_args [url; "info"] = Ok (info_args url).
Proof.
  intros Hu.
  rewrite (parse_args_enters url "info" [] Hu eq_refl).
  cbn [assoc subcommands cli_parser subparsers sp_choices String.eqb
       Ascii.eqb Bool.eqb].
  rewrite subparser_info. reflexivity.
Qed.

Lemma parse_args_info_witness :
  parse_args ["http://10.0.0.1:8545"; "info"]
  = Ok (info_args "http://10.0.0.1:8545").
Proof. apply (parse_args_info "http://10.0.0.1:8545"). reflexivity. Defined.

Lemma address_command_parser cmd :
  In cmd address_commands -> assoc cmd subcommands = Some balance_actions.
Proof. intros [<-|[<-|[]]]; reflexivity. Qed.

Lemma address_command_plain cmd : In cmd address_commands -> plain cmd = true.
Proof. intros [<-|[<-|[]]]; reflexivity. Qed.

(** X4.  [balance] and [tx-count] with an address and no [--block] ask for
    the block [latest]. *)
Theorem parse_args_address url cmd address :
  plain url = true -> plain address = true -> In cmd address_commands ->
  parse_args [url; cmd; address] = Ok (address_args url cmd address "latest").
Proof.
  intros Hu Ha Hc.
  rewrite (parse_args_enters url cmd _ Hu (address_command_plain _ Hc)).
  rewrite (address_command_parser _ Hc), (subparser_address _ Ha).
  reflexivity.
Qed.

Lemma parse_args_address_witness :
  parse_args ["http://localhost:8545"; "tx-count"; sample_address]
  = Ok (address_args "http://localhost:8545" "tx-count" sample_address
          "latest").
Proof.
  apply (parse_args_address "http://localhost:8545" "tx-count"
           sample_address); [reflexivity|reflexivity|].
  simpl. right. left. reflexivity.
Defined.

(** X5.  [--block] may stand after the address or before it, and its value
    may be glued to it with [=]: the three forms give the same
    namespace, with the block that was named. *)
Theorem parse_args_block url cmd address block :
  plain url = true -> plain address = true -> plain block = true ->
  In cmd address_commands ->
  parse_args [url; cmd; address; "--block"; block]
  = Ok (address_args url cmd address block) /\
  parse_args [url; cmd; "--block"; block; address]
  = Ok (address_args url cmd address block) /\
  parse_args [url; cmd; address; "--block=" +:+ block]
  = Ok (address_args url cmd address block).
Proof.
  intros Hu Ha Hb Hc.
  rewrite !(parse_args_enters url cmd _ Hu (address_command_plain _ Hc)).
  rewrite (address_command_parser _ Hc).
  rewrite (subparser_address_block _ _ Ha Hb).
  rewrite (subparser_block_address _ _ Ha Hb).
  rewrite (subparser_address_block_equals _ _ Ha (separator_not_plain _ Hb)).
  repeat split; reflexivity.
Qed.

Lemma parse_args_block_witness :
  parse_args ["http://localhost:8545"; "balance"; sample_address;
              "--block"; "0x10"]
  = Ok (address_args "http://localhost:8545" "balance" sample_address
          "0x10") /\
  parse_args ["http://localhost:8545"; "balance"; "--block"; "0x10";
              sample_address]
  = Ok (address_args "http://localhost:8545" "balance" sample_address
          "0x10") /\
  parse_args ["http://localhost:8545"; "balance"; sample_address;
              "--block=0x10"]
  = Ok (address_args "http://localhost:8545" "balance" sample_address
          "0x10").
Proof.
  apply (parse_args_block "http://localhost:8545" "balance" sample_address
           "0x10"); [reflexivity|reflexivity|reflexivity|].
  simpl. left. reflexivity.
Defined.

(** X6.  [call] takes the method and then any number of parameters, kept in
    their order as strings. *)
Theorem parse_args_call url method params :
  plain url = true -> plain method = true -> forallb plain params = true ->
  parse_args (url :: "call" :: method :: params)
  = Ok (call_args url method params).
Proof.
  intros Hu Hm Hp.
  rewrite (parse_args_enters url "call" _ Hu eq_refl).
  change (assoc "call" subcommands) with (Some call_actions).
  cbv beta iota. rewrite (subparser_call _ _ Hm Hp). reflexivity.
Qed.

Lemma parse_args_call_witness :
  parse_args ("http://localhost:8545" :: "call" :: "eth_getBlockByNumber"
              :: ["0x10"; "true"])
  = Ok (call_args "http://localhost:8545" "eth_getBlockByNumber"
          ["0x10"; "true"]).
Proof.
  apply (parse_args_call "http://localhost:8545" "eth_getBlockByNumber"
           ["0x10"; "true"]); reflexivity.
Defined.

Lemma classify_block_abbreviation p tl :
  In p block_abbreviations ->
  classify balance_opts (p :: tl) =
  let* r := classify balance_opts tl in
  Ok ((p, TagO (Some block_action) "--block" None) :: r).
Proof. intros [<-|[<-|[<-|[<-|[]]]]]; reflexivity. Qed.

Lemma subparser_address_abbreviation address p block :
  plain address = true -> plain block = true -> In p block_abbreviations ->
  run_subparser balance_actions [address; p; block] =
  Ok (<["address" := PStr address]>
        (<["block_identifier" := PStr block]> ∅), []).
Proof.
  intros Ha Hb Hp. enter_subparser balance_opts.
  rewrite (classify_plain_cons _ _ _ Ha), (classify_block_abbreviation _ _ Hp).
  rewrite classify_plain by (cbn; rewrite Hb; reflexivity).
  cbn [bind all_A map]. consume_args. reflexivity.
Qed.

(** X7.  [--block] may be cut short, down to [--b]. *)
Theorem parse_args_block_abbreviated url cmd address p block :
  plain url = true -> plain address = true -> plain block = true ->
  In cmd address_commands -> In p block_abbreviations ->
  parse_args [url; cmd; address; p; block]
  = Ok (address_args url cmd address block).
Proof.
  intros Hu Ha Hb Hc Hp.
  rewrite (parse_args_enters url cmd _ Hu (address_command_plain _ Hc)).
  rewrite (address_command_parser _ Hc).
  rewrite (subparser_address_abbreviation _ _ _ Ha Hb Hp). reflexivity.
Qed.

Lemma parse_args_block_abbreviated_witness :
  parse_args ["http://localhost:8545"; "balance"; sample_address; "--bl";
              "0x10"]
  = Ok (address_args "http://localhost:8545" "balance" sample_address
          "0x10").
Proof.
  apply (parse_args_block_abbreviated "http://localhost:8545" "balance"
           sample_address "--bl" "0x10");
    [reflexivity|reflexivity|reflexivity|simpl; left; reflexivity|].
  simpl. right. left. reflexivity.
Defined.

Lemma classify_help_flag h tl :
  In h ["-h"; "--help"] ->
  classify top_opts (h :: tl) =
  let* r := classify top_opts tl in
  Ok ((h, TagO (Some (HelpAction ["-h"; "--help"])) h None) :: r).
Proof. intros [<-|[<-|[]]]; reflexivity. Qed.

(** X8.  A help flag in front makes [parse_args] leave with status 0,
    whatever follows it. *)
Theorem parse_args_help h rest :
  In h ["-h"; "--help"] -> parse_args (h :: rest) = Raise exit_help.
Proof.
  intros Hh.
  unfold parse_args, ArgumentParser_parse_args, parse_known_args.
  change (option_string_actions (actions cli_parser)) with top_opts.
  rewrite (classify_help_flag h rest Hh).
  destruct (classify_top rest) as [tagged ->]. reflexivity.
Qed.

Lemma parse_args_help_witness :
  parse_args ("--help" :: ["balance"; "--block"]) = Raise exit_help.
Proof.
  apply (parse_args_help "--help" ["balance"; "--block"]).
  simpl. right. left. reflexivity.
Defined.

(** X9.  A command line that stops before the command, the address or the
    method is refused with status 2. *)
Theorem parse_args_incomplete url cmd :
  plain url = true -> In cmd ["balance"; "tx-count"; "call"] ->
  parse_args [url]
  = Raise (exit_error "the following arguments are required") /\
  parse_args [url; cmd]
  = Raise (exit_error "the following arguments are required").
Proof.
  intros Hu Hc. split.
  - unfold parse_args, ArgumentParser_parse_args, parse_known_args.
    rewrite classify_plain by (cbn; rewrite Hu; reflexivity).
    cbn [bind all_A map]. consume_args. reflexivity.
  - assert (plain cmd = true) as Hp
      by (destruct Hc as [<-|[<-|[<-|[]]]]; reflexivity).
    rewrite (parse_args_enters url cmd [] Hu Hp).
    destruct Hc as [<-|[<-|[<-|[]]]]; vm_compute; reflexivity.
Qed.

Lemma parse_args_incomplete_witness :
  parse_args ["http://localhost:8545"]
  = Raise (exit_error "the following arguments are required") /\
  parse_args ["http://localhost:8545"; "call"]
  = Raise (exit_error "the following arguments are required").
Proof.
  apply (parse_args_incomplete "http://localhost:8545" "call");
    [reflexivity|].
  simpl. right. right. left. reflexivity.
Defined.

(** ** [run_cli], from the command line to the printed line *)

Lemma as_str_list_strings l : as_str_list (PList (map PStr l)) = Ok l.
Proof.
  unfold as_str_list. induction l as [|s tl IH]; [reflexivity|].
  cbn [map mapM as_str bind]. cbn [map mapM] in IH. rewrite IH. reflexivity.
Qed.

(** *** What is written, and when *)

Lemma prints_nothing_refl w : prints_nothing w w.
Proof. split; reflexivity. Qed.

Lemma prints_nothing_trans w1 w2 w3 :
  prints_nothing w1 w2 -> prints_nothing w2 w3 -> prints_nothing w1 w3.
Proof. intros [H1 H2] [H3 H4]. split; congruence. Qed.

Lemma prints_nothing_line w1 w2 w3 :
  prints_nothing w1 w2 -> prints_line w2 w3 -> prints_line w1 w3.
Proof.
  intros [H1 H2] [[line H3] H4]. split; [exists line|]; congruence.
Qed.

Lemma quiet_ret {A} (a : A) : quiet (ret a).
Proof. intros w r w' [= <- <-]. apply prints_nothing_refl. Qed.

Lemma quiet_raise {A} (e : exc) : quiet (@raise A e).
Proof. intros w r w' [= <- <-]. apply prints_nothing_refl. Qed.

Lemma quiet_lift {A} (x : result A) : quiet (lift x).
Proof. intros w r w' [= <- <-]. apply prints_nothing_refl. Qed.

Lemma quiet_dispatch {A} (q : request) (answer : result A) :
  quiet (dispatch q answer).
Proof. intros w r w' [= <- <-]. split; reflexivity. Qed.

Lemma quiet_getattr args name : quiet (getattr args name).
Proof.
  unfold getattr. destruct (args !! name); [apply quiet_ret|apply quiet_raise].
Qed.

Lemma quiet_bind {A B} (m : io A) (k : A -> io B) :
  quiet m -> (forall a, quiet (k a)) -> quiet (io_bind m k).
Proof.
  intros Hm Hk w r w'. unfold io_bind.
  destruct (m w) as [[a|e] w1] eqn:E; intros H.
  - eapply prints_nothing_trans; [eapply Hm, E|eapply Hk, H].
  - injection H as <- <-. eapply Hm, E.
Qed.

Lemma reports_bind {A B} (m : io A) (k : A -> io B) :
  quiet m -> (forall a, reports (k a)) -> reports (io_bind m k).
Proof.
  intros Hm Hk w r w'. unfold io_bind.
  destruct (m w) as [[a|e] w1] eqn:E; intros H.
  - pose proof (Hm _ _ _ E) as H1. pose proof (Hk a _ _ _ H) as H2.
    destruct r.
    + eapply prints_nothing_line; eassumption.
    + eapply prints_nothing_trans; eassumption.
  - injection H as <- <-. eapply Hm, E.
Qed.

Lemma reports_print {A} (text : string) (a : A) :
  reports (io_bind (print text) (fun _ => ret a)).
Proof.
  intros w r w' [= <- <-]. split; [exists text|]; reflexivity.
Qed.

Lemma reports_raise {A} (e : exc) : reports (@raise A e).
Proof. intros w r w' [= <- <-]. apply prints_nothing_refl. Qed.

Section RunFacts.
Variable ext : Externals.

(** Past the construction of the client nothing is caught: [run_cli]
    is the branch of the command, after the liveness probe. *)
Lemma run_cli_connected argv args url w :
  parse_args argv = Ok args ->
  args !! "endpoint" = Some (PStr url) ->
  w3_is_connected (HTTPProvider ext url None) = true ->
  run_cli ext argv w =
  dispatch_command ext {| _web3 := HTTPProvider ext url None |} args
    (World (dispatched w ++ [ReqIsConnected]) (stdout w) (stderr w)).
Proof.
  intros Hp He Hc. rewrite (run_cli_run ext argv args w Hp).
  rewrite (connect_run ext args url w He), Hc. reflexivity.
Qed.

(** X10.  [info] on a reachable endpoint: after the probe, the chain id and
    the block number are asked for in this order, and the one line
    printed is the JSON text of the two numbers; the status is 0. *)
Theorem run_cli_info argv url cid number text w :
  parse_args argv = Ok (info_args url) ->
  w3_is_connected (HTTPProvider ext url None) = true ->
  w3_chain_id (HTTPProvider ext url None) = Ok cid ->
  w3_block_number (HTTPProvider ext url None) = Ok number ->
  json_dumps ext (PDict [("chain_id", PInt cid);
                         ("block_number", PInt number)]) = Ok text ->
  run_cli ext argv w =
  (Ok 0%Z,
   World (dispatched w ++ [ReqIsConnected; ReqChainId; ReqBlockNumber])
     (stdout w ++ [text]) (stderr w)).
Proof.
  intros Hp Hc Hid Hn Ht.
  rewrite (run_cli_connected argv _ url w Hp eq_refl Hc).
  unfold dispatch_command, getattr, io_bind, ret. cbn [eq_str info_args].
  change (info_args url !! "command") with (Some (PStr "info")).
  cbn [eq_str String.eqb Ascii.eqb Bool.eqb].
  unfold run_info, io_bind, chain_id, block_number, dispatch, lift, print,
    ret. cbn [_web3 dispatched stdout stderr].
  rewrite Hid, Hn, Ht. rewrite <- !app_assoc. reflexivity.
Qed.

(** X11.  [balance] on a reachable endpoint with a well-formed address: after
    the probe one query is sent, with the checksummed address and the
    block of the command line, and the one line printed is the JSON
    text of the balance in wei and in ether, both as strings. *)
Theorem run_cli_balance argv url address block checksum n e text w :
  parse_args argv = Ok (address_args url "balance" address block) ->
  w3_is_connected (HTTPProvider ext url None) = true ->
  to_checksum_address ext address = Ok checksum ->
  w3_get_balance (HTTPProvider ext url None) checksum (PStr block) = Ok n ->
  from_wei n "ether" = Ok e ->
  json_dumps ext (PDict [("wei", PStr (py_str (PInt n)));
                         ("ether", PStr (py_str e))]) = Ok text ->
  run_cli ext argv w =
  (Ok 0%Z,
   World (dispatched w ++ [ReqIsConnected;
                           ReqGetBalance checksum (PStr block)])
     (stdout w ++ [text]) (stderr w)).
Proof.
  intros Hp Hc Ha Hb He Ht.
  rewrite (run_cli_connected argv _ url w Hp eq_refl Hc).
  unfold dispatch_command, getattr, io_bind, ret.
  change (address_args url "balance" address block !! "command")
    with (Some (PStr "balance")).
  cbn [eq_str String.eqb Ascii.eqb Bool.eqb].
  unfold run_balance, io_bind, getattr, lift, print, ret.
  change (address_args url "balance" address block !! "address")
    with (Some (PStr address)).
  change (address_args url "balance" address block !! "block_identifier")
    with (Some (PStr block)).
  cbn [as_str]. rewrite get_balance_run, Ha. cbn [_web3].
  rewrite Hb, He. cbn [wei ether dispatched stdout stderr]. rewrite Ht.
  rewrite <- !app_assoc. reflexivity.
Qed.

(** X12.  [tx-count] likewise sends one query after the probe and prints the
    count in decimal. *)
Theorem run_cli_tx_count argv url address block checksum count w :
  parse_args argv = Ok (address_args url "tx-count" address block) ->
  w3_is_connected (HTTPProvider ext url None) = true ->
  to_checksum_address ext address = Ok checksum ->
  w3_get_transaction_count (HTTPProvider ext url None) checksum (PStr block)
  = Ok count ->
  run_cli ext argv w =
  (Ok 0%Z,
   World (dispatched w ++ [ReqIsConnected;
                           ReqGetTransactionCount checksum (PStr block)])
     (stdout w ++ [str_of_Z count]) (stderr w)).
Proof.
  intros Hp Hc Ha Hn.
  rewrite (run_cli_connected argv _ url w Hp eq_refl Hc).
  unfold dispatch_command, getattr, io_bind, ret.
  change (address_args url "tx-count" address block !! "command")
    with (Some (PStr "tx-count")).
  cbn [eq_str String.eqb Ascii.eqb Bool.eqb].
  unfold run_tx_count, io_bind, getattr, lift, print, ret.
  change (address_args url "tx-count" address block !! "address")
    with (Some (PStr address)).
  change (address_args url "tx-count" address block !! "block_identifier")
    with (Some (PStr block)).
  cbn [as_str]. rewrite get_transaction_count_run, Ha. cbn [_web3].
  rewrite Hn. cbn [dispatched stdout stderr py_str].
  rewrite <- !app_assoc. reflexivity.
Qed.

(** X13.  [call] sends the method with the decoded parameters and prints the
    JSON text of the normalised answer. *)
Theorem run_cli_call argv url method params loaded response value text w :
  parse_args argv = Ok (call_args url method params) ->
  w3_is_connected (HTTPProvider ext url None) = true ->
  _load_params params = Ok loaded ->
  w3_request_blocking (HTTPProvider ext url None) method loaded
  = Ok response ->
  _normalise response = Ok value ->
  json_dumps ext value = Ok text ->
  run_cli ext argv w =
  (Ok 0%Z,
   World (dispatched w ++ [ReqIsConnected; ReqBlocking method loaded])
     (stdout w ++ [text]) (stderr w)).
Proof.
  intros Hp Hc Hl Hr Hn Ht.
  rewrite (run_cli_connected argv _ url w Hp eq_refl Hc).
  unfold dispatch_command, getattr, io_bind, ret.
  change (call_args url method params !! "command")
    with (Some (PStr "call")).
  cbn [eq_str String.eqb Ascii.eqb Bool.eqb].
  unfold run_call, io_bind, getattr, lift, print, ret, call_method, dispatch.
  change (call_args url method params !! "params")
    with (Some (PList (map PStr params))).
  change (call_args url method params !! "method")
    with (Some (PStr method)).
  cbv beta iota. rewrite as_str_list_strings, Hl. cbn [as_str _web3].
  rewrite Hr, Hn, Ht. cbn [dispatched stdout stderr].
  rewrite <- !app_assoc. reflexivity.
Qed.

(** X14.  An address that is not forty hex digits is found before any query:
    only the probe is sent, nothing is printed, and [run_cli] raises
    the [ValueError] instead of returning a status. *)
Theorem run_cli_invalid_address argv url cmd address block w :
  parse_args argv = Ok (address_args url cmd address block) ->
  In cmd address_commands ->
  w3_is_connected (HTTPProvider ext url None) = true ->
  is_hex_address address = false ->
  run_cli ext argv w =
  (Raise (Exc ValueError "Unknown format, attempted to normalize"),
   World (dispatched w ++ [ReqIsConnected]) (stdout w) (stderr w)).
Proof.
  intros Hp Hcmd Hc Ha.
  rewrite (run_cli_connected argv _ url w Hp eq_refl Hc).
  unfold dispatch_command, getattr, io_bind, ret.
  destruct Hcmd as [<-|[<-|[]]].
  - change (address_args url "balance" address block !! "command")
      with (Some (PStr "balance")).
    cbn [eq_str String.eqb Ascii.eqb Bool.eqb].
    unfold run_balance, io_bind, getattr, lift, ret.
    change (address_args url "balance" address block !! "address")
      with (Some (PStr address)).
    change (address_args url "balance" address block !! "block_identifier")
      with (Some (PStr block)).
    cbn [as_str]. rewrite get_balance_run. unfold to_checksum_address.
    rewrite Ha. reflexivity.
  - change (address_args url "tx-count" address block !! "command")
      with (Some (PStr "tx-count")).
    cbn [eq_str String.eqb Ascii.eqb Bool.eqb].
    unfold run_tx_count, io_bind, getattr, lift, ret.
    change (address_args url "tx-count" address block !! "address")
      with (Some (PStr address)).
    change (address_args url "tx-count" address block !! "block_identifier")
      with (Some (PStr block)).
    cbn [as_str]. rewrite get_transaction_count_run.
    unfold to_checksum_address. rewrite Ha. reflexivity.
Qed.

(** X15.  A command line the parser refuses never reaches the endpoint:
    [run_cli] leaves as the parser does, having sent nothing. *)
Theorem run_cli_rejected argv e w :
  parse_args argv = Raise e ->
  fst (run_cli ext argv w) = Raise e /\
  dispatched (snd (run_cli ext argv w)) = dispatched w /\
  leaves_parser e.
Proof.
  intros Hp. pose proof (parse_args_decides argv e Hp) as Hl.
  unfold run_cli, parse_args_io, io_bind. rewrite Hp.
  split; [|split; [|exact Hl]];
    destruct e as [[| | | | | | | |[|p|p]|name base] msg]; reflexivity.
Qed.

Lemma get_balance_quiet client address block :
  quiet (get_balance ext client address block).
Proof.
  unfold get_balance.
  repeat first [apply quiet_bind; [|intros ?] | apply quiet_lift
               | apply quiet_dispatch | apply quiet_ret].
Qed.

Lemma get_transaction_count_quiet client address block :
  quiet (get_transaction_count ext client address block).
Proof.
  unfold get_transaction_count.
  repeat first [apply quiet_bind; [|intros ?] | apply quiet_lift
               | apply quiet_dispatch | apply quiet_ret].
Qed.

Ltac reports_steps :=
  repeat first
    [ apply reports_print
    | apply reports_raise
    | apply reports_bind; [|intros ?]
    | apply quiet_getattr
    | apply quiet_lift
    | apply quiet_dispatch
    | apply get_balance_quiet
    | apply get_transaction_count_quiet ].

Lemma dispatch_command_reports client args :
  reports (dispatch_command ext client args).
Proof.
  unfold dispatch_command. apply reports_bind; [apply quiet_getattr|].
  intros command.
  destruct (eq_str command "info");
    [unfold run_info, chain_id, block_number; reports_steps|].
  destruct (eq_str command "balance"); [unfold run_balance; reports_steps|].
  destruct (eq_str command "tx-count"); [unfold run_tx_count; reports_steps|].
  destruct (eq_str command "call");
    [unfold run_call, call_method; reports_steps|].
  apply reports_raise.
Qed.

Lemma connect_writes args w r w' :
  connect ext args w = (r, w') ->
  match r with
  | Ok (inl _) | Raise _ => prints_nothing w w'
  | Ok (inr _) =>
      stdout w' = stdout w /\
      stderr w' = stderr w ++ ["Connection failed: " +:+ connection_error_message]
  end.
Proof.
  unfold connect, try_except, io_bind, getattr, lift.
  destruct (args !! "endpoint") as [v|]; cbn [ret raise].
  - destruct v; cbn [as_str];
      try (cbn; intros [= <- <-]; split; reflexivity).
    rewrite EVMClient_init_run.
    destruct (w3_is_connected _); cbn; intros [= <- <-]; split; reflexivity.
  - cbn. intros [= <- <-]. split; reflexivity.
Qed.

(** X16.  What an accepted command line makes [run_cli] write: one line on
    the standard output when it returns 0, the one line of the failed
    connection on the standard error when it returns 1, and nothing at
    all when it raises. *)
Theorem run_cli_output argv args w r w' :
  parse_args argv = Ok args ->
  run_cli ext argv w = (r, w') ->
  match r with
  | Ok n =>
      (n = 0%Z /\ prints_line w w') \/
      (n = 1%Z /\ stdout w' = stdout w /\
       stderr w' = stderr w
                   ++ ["Connection failed: " +:+ connection_error_message])
  | Raise _ => prints_nothing w w'
  end.
Proof.
  intros Hp. rewrite (run_cli_run ext argv args w Hp).
  destruct (connect ext args w) as [[[client|status]|e] w1] eqn:Hc;
    pose proof (connect_writes _ _ _ _ Hc) as Hw; cbv beta iota in Hw.
  - intros Hd. pose proof (dispatch_command_reports client args _ _ _ Hd) as Hr.
    destruct r as [n|e].
    + left. split.
      * eapply dispatch_command_status; [|exact Hd].
        eapply parse_args_command, Hp.
      * eapply prints_nothing_line; eassumption.
    + eapply prints_nothing_trans; eassumption.
  - intros [= <- <-]. right. split; [|exact Hw].
    eapply connect_status, Hc.
  - intros [= <- <-]. exact Hw.
Qed.
End RunFacts.

Lemma run_cli_info_witness :
  run_cli sample_externals info_argv empty_world =
  (Ok 0%Z, World [ReqIsConnected; ReqChainId; ReqBlockNumber] ["{...}"] []).
Proof.
  apply (run_cli_info sample_externals info_argv sample_url 1%Z 19000000%Z
           "{...}" empty_world); reflexivity.
Defined.

Lemma run_cli_balance_witness :
  run_cli sample_externals sample_argv empty_world =
  (Ok 0%Z,
   World [ReqIsConnected; ReqGetBalance sample_checksum (PStr "latest")]
     ["{...}"] []).
Proof.
  apply (run_cli_balance sample_externals sample_argv sample_url
           sample_address "latest" sample_checksum 1500000000000000000%Z
           (PDecimal (Dec false 15 (-1))) "{...}" empty_world);
    [reflexivity|reflexivity|reflexivity|reflexivity
    |vm_compute; reflexivity|reflexivity].
Defined.

Lemma run_cli_tx_count_witness :
  run_cli sample_externals tx_count_argv empty_world =
  (Ok 0%Z,
   World [ReqIsConnected;
          ReqGetTransactionCount sample_checksum (PStr "latest")]
     ["7"] []).
Proof.
  apply (run_cli_tx_count sample_externals tx_count_argv sample_url
           sample_address "latest" sample_checksum 7%Z empty_world);
    reflexivity.
Defined.

Lemma run_cli_call_witness :
  run_cli sample_externals call_argv empty_world =
  (Ok 0%Z,
   World [ReqIsConnected; ReqBlocking "eth_blockNumber" []]
     ["0x121eac0"] []).
Proof.
  apply (run_cli_call sample_externals call_argv sample_url
           "eth_blockNumber" [] [] (PStr "0x121eac0") (PStr "0x121eac0")
           "0x121eac0" empty_world); reflexivity.
Defined.

Lemma run_cli_invalid_address_witness :
  run_cli sample_externals bad_address_argv empty_world =
  (Raise (Exc ValueError "Unknown format, attempted to normalize"),
   World [ReqIsConnected] [] []).
Proof.
  apply (run_cli_invalid_address sample_externals bad_address_argv
           sample_url "balance" "0x12" "latest" empty_world);
    [reflexivity|simpl; left; reflexivity
    |reflexivity|reflexivity].
Defined.

Lemma run_cli_rejected_witness :
  fst (run_cli sample_externals [sample_url; "nonce"] empty_world)
  = Raise (exit_error "invalid choice") /\
  dispatched (snd (run_cli sample_externals [sample_url; "nonce"]
                     empty_world))
  = dispatched empty_world /\
  leaves_parser (exit_error "invalid choice").
Proof.
  apply (run_cli_rejected sample_externals [sample_url; "nonce"]
           (exit_error "invalid choice") empty_world).
  reflexivity.
Defined.

Lemma run_cli_output_witness :
  (0%Z = 0%Z /\
   prints_line empty_world
     (World [ReqIsConnected; ReqChainId; ReqBlockNumber] ["{...}"] [])) \/
  (0%Z = 1%Z /\
   stdout (World [ReqIsConnected; ReqChainId; ReqBlockNumber] ["{...}"] [])
   = stdout empty_world /\
   stderr (World [ReqIsConnected; ReqChainId; ReqBlockNumber] ["{...}"] [])
   = stderr empty_world
     ++ ["Connection failed: " +:+ connection_error_message]).
Proof.
  apply (run_cli_output sample_externals info_argv (info_args sample_url)
           empty_world (Ok 0%Z)
           (World [ReqIsConnected; ReqChainId; ReqBlockNumber] ["{...}"] []));
    reflexivity.
Defined.

(** ** [_normalise]: when it returns, and what *)







Lemma mapM_all {A B} (f : A -> result B) (Q : B -> Prop) (l : list A) :
  Forall (fun x => exists y, f x = Ok y /\ Q y) l ->
  exists r, mapM f l = Ok r /\ Forall Q r.
Proof.
  induction 1 as [|x tl (y & Hy & Hq) _ (ys & Hys & Hqs)]; simpl.
  - exists []. split; [reflexivity|constructor].
  - rewrite Hy. simpl. change (mapM f tl) with (mapM f tl) in Hys.
    rewrite Hys. simpl. exists (y :: ys). split; [reflexivity|].
    constructor; assumption.
Qed.

Lemma Forall_forallb {A} (p : A -> bool) (l : list A) :
  Forall (fun x => p x = true) l -> forallb p l = true.
Proof. induction 1; simpl; [reflexivity|]. apply andb_true_iff. auto. Qed.

(** X18.  An answer made of JSON scalars, byte strings, lists, tuples and
    [AttributeDict]s is normalised, without an exception, to a value
    that holds no byte string, no [AttributeDict] and no float. *)
Theorem normalise_response (v : pyval) :
  response_tree v = true ->
  exists r, _normalise v = Ok r /\ json_plain r = true.
Proof.
  induction v as [| | | | | | |items IH|items IH|items IH|items IH|cls h]
    using pyval_ind; intros Hv; try discriminate Hv;
    try (simpl; eauto; fail).
  - simpl in Hv. pose proof (forallb_Forall_imp _ _ _ IH Hv) as Hall.
    apply mapM_all in Hall as (l & Hl & Hq). simpl. rewrite Hl. simpl.
    eexists. split; [reflexivity|]. simpl. apply Forall_forallb, Hq.
  - simpl in Hv. pose proof (forallb_Forall_imp _ _ _ IH Hv) as Hall.
    apply mapM_all in Hall as (l & Hl & Hq). simpl. rewrite Hl. simpl.
    eexists. split; [reflexivity|]. simpl. apply Forall_forallb, Hq.
  - simpl in Hv.
    assert (Hall : Forall (fun kv => exists y,
                     normalise_item _normalise kv = Ok y /\
                     json_plain (snd y) = true) items).
    { pose proof (forallb_Forall_imp
        (fun kv => response_tree (snd kv))
        (fun kv => exists r, _normalise (snd kv) = Ok r /\ json_plain r = true)
        items IH Hv) as H.
      eapply Forall_impl; [exact H|]. intros kv (r & Hr & Hq).
      unfold normalise_item. rewrite Hr. simpl. eauto. }
    apply mapM_all in Hall as (l & Hl & Hq). simpl. rewrite Hl. simpl.
    eexists. split; [reflexivity|]. simpl.
    apply (Forall_forallb (fun kv => json_plain (snd kv))), Hq.
  - destruct h as [| |r|e]; try discriminate Hv.
    destruct r; try discriminate Hv. simpl. eauto.
Qed.

Lemma normalise_response_witness :
  exists r, _normalise sample_response = Ok r /\ json_plain r = true.
Proof. apply (normalise_response sample_response). reflexivity. Defined.

(** ** The client: what reaches the endpoint *)

Section QueryFacts.
Variable ext : Externals.

(** X19.  Both queries check the address first: one that is not forty hex
    digits raises a [ValueError] and nothing is sent. *)
Theorem queries_check_address client address block w :
  is_hex_address address = false ->
  get_balance ext client address block w =
  (Raise (Exc ValueError "Unknown format, attempted to normalize"), w) /\
  get_transaction_count ext client address block w =
  (Raise (Exc ValueError "Unknown format, attempted to normalize"), w).
Proof.
  intros H. rewrite get_balance_run, get_transaction_count_run.
  unfold to_checksum_address. rewrite H. split; reflexivity.
Qed.

(** X20.  An amount outside [0 .. 2^256 - 1] is refused after the query was
    sent: [get_balance] raises the [ValueError] of the conversion. *)
Theorem get_balance_out_of_range client address block c n w :
  to_checksum_address ext address = Ok c ->
  w3_get_balance (_web3 client) c block = Ok n ->
  (n < 0 \/ MAX_WEI < n)%Z ->
  get_balance ext client address block w =
  (Raise (Exc ValueError "value must be between 1 and 2**256 - 1"),
   World (dispatched w ++ [ReqGetBalance c block]) (stdout w) (stderr w)).
Proof.
  intros Hc Hn Hr. rewrite get_balance_run, Hc, Hn. unfold from_wei.
  replace (assoc (str_lower "ether") units) with (Some 18%Z) by reflexivity.
  replace (n =? 0)%Z with false
    by (symmetry; apply Z.eqb_neq; unfold MAX_WEI in Hr; lia).
  replace ((n <? MIN_WEI)%Z || (MAX_WEI <? n)%Z) with true; [reflexivity|].
  symmetry. apply orb_true_iff. unfold MIN_WEI.
  destruct Hr as [Hr|Hr]; [left|right]; apply Z.ltb_lt; lia.
Qed.

(** X21.  The ether amount of a [Balance] is the integer 0 for an empty
    account and a non-negative [Decimal] for any other. *)
Theorem get_balance_ether_kind client address block w b w' :
  get_balance ext client address block w = (Ok b, w') ->
  (wei b = 0%Z -> ether b = PInt 0) /\
  (wei b <> 0%Z -> exists d, ether b = PDecimal d /\ dec_sign d = false).
Proof.
  rewrite get_balance_run.
  destruct (to_checksum_address ext address) as [c|e]; [|discriminate].
  destruct (w3_get_balance _ c block) as [n|e]; [|discriminate].
  destruct (from_wei n "ether") as [e|e] eqn:He; [|discriminate].
  intros [= <- _]. cbn [wei ether]. split.
  - intros ->. vm_compute in He. congruence.
  - intros Hn. pose proof (from_wei_ether_back n e He) as [_ Hr].
    destruct (from_wei_ether_exact n) as (d & Hd & Hs & _); [lia|].
    rewrite He in Hd. injection Hd as ->. eauto.
Qed.
End QueryFacts.

Lemma queries_check_address_witness :
  get_balance sample_externals sample_client "0x12" (PStr "latest")
    empty_world =
  (Raise (Exc ValueError "Unknown format, attempted to normalize"),
   empty_world) /\
  get_transaction_count sample_externals sample_client "0x12" (PStr "latest")
    empty_world =
  (Raise (Exc ValueError "Unknown format, attempted to normalize"),
   empty_world).
Proof.
  apply (queries_check_address sample_externals sample_client "0x12"
           (PStr "latest") empty_world). reflexivity.
Defined.

Lemma get_balance_out_of_range_witness :
  get_balance sample_externals overdrawn_client sample_address
    (PStr "latest") empty_world =
  (Raise (Exc ValueError "value must be between 1 and 2**256 - 1"),
   World [ReqGetBalance sample_checksum (PStr "latest")] [] []).
Proof.
  apply (get_balance_out_of_range sample_externals overdrawn_client
           sample_address (PStr "latest") sample_checksum (-1)%Z empty_world);
    [reflexivity|reflexivity|left; lia].
Defined.

Lemma get_balance_ether_kind_witness :
  (wei sample_balance = 0%Z -> ether sample_balance = PInt 0) /\
  (wei sample_balance <> 0%Z ->
   exists d, ether sample_balance = PDecimal d /\ dec_sign d = false).
Proof.
  apply (get_balance_ether_kind sample_externals sample_client sample_address
           (PStr "latest") empty_world sample_balance
           (World [ReqGetBalance sample_checksum (PStr "latest")] [] [])).
  vm_compute. reflexivity.
Defined.

(** ** [_load_params]: what stays a string *)

(** X22.  A parameter that starts with [0x] is never decoded: a hex quantity
    or an address reaches the endpoint as the string that was typed. *)
Theorem load_param_hex (s : string) :
  load_param ("0x" +:+ s) = Ok (PStr ("0x" +:+ s)).
Proof. reflexivity. Qed.

(** X23.  A parameter that does not start as a JSON text does is kept as a
    string, whatever follows its first character; so is the empty
    parameter. *)
Theorem load_param_word (c : ascii) (tl : string) :
  json_start c = false ->
  load_param (String c tl) = Ok (PStr (String c tl)) /\
  load_param "" = Ok (PStr "").
Proof.
  intros H. split; [|reflexivity].
  destruct c as [[] [] [] [] [] [] [] []]; try discriminate H; reflexivity.
Qed.

Lemma load_param_word_witness :
  load_param (String "l" "atest") = Ok (PStr (String "l" "atest")) /\
  load_param "" = Ok (PStr "").
Proof. apply (load_param_word "l" "atest"). reflexivity. Defined.

(** ** The attributes of an accepted command line *)

(** *** The loop, with the state and the strings to read together *)

Section LoopJoint.
Variable run_sub :
  list argument -> list string -> result (Namespace * list string).
Variable opts : list (string * argument).
Variable J : Namespace -> list positional -> list (string * tag) -> Prop.

Hypothesis positionals_keep :
  forall rest st rest' st',
    J (ns st) (pending st) rest ->
    consume_positionals run_sub rest st = Ok (rest', st') ->
    J (ns st') (pending st') rest'.

Hypothesis optional_keeps :
  forall action os e arg tl st rest' st',
    J (ns st) (pending st) ((arg, TagO action os e) :: tl) ->
    consume_optional opts action os e arg tl st = Ok (rest', st') ->
    J (ns st') (pending st') rest'.

Hypothesis skip_keeps :
  forall n p rest,
    J n p rest ->
    J n p (skipn (count_while (fun t => negb (is_option t)) (map snd rest))
             rest).

Lemma parse_loop_joint fuel :
  forall rest st st',
    J (ns st) (pending st) rest ->
    parse_loop run_sub fuel opts rest st = Ok st' ->
    exists rest', J (ns st') (pending st') rest'.
Proof.
  induction fuel as [|fuel IH]; intros rest st st' Hj; simpl;
    [discriminate|].
  destruct (negb (existsb is_option (map snd rest))).
  { destruct (consume_positionals run_sub rest st) as [[r s]|e] eqn:Hc;
      [|discriminate].
    simpl. intros [= <-]. cbn [ns pending].
    apply positionals_keep in Hc; eauto. }
  destruct rest as [|[arg t] tl]; [intros [= <-]; eauto|].
  assert (Hpos :
    match consume_positionals run_sub ((arg, t) :: tl) st with
    | Ok r =>
        if (length (fst r) <? length ((arg, t) :: tl))%nat
        then parse_loop run_sub fuel opts (fst r) (snd r)
        else
          let skipped :=
            count_while (fun t => negb (is_option t)) (map snd (fst r)) in
          let st0 := PState (ns (snd r))
                       (extras (snd r) ++ map fst (firstn skipped (fst r)))
                       (pending (snd r)) in
          match skipn skipped (fst r) with
          | (arg', TagO action os e) :: tl' =>
              let* r' := consume_optional opts action os e arg' tl' st0 in
              parse_loop run_sub fuel opts (fst r') (snd r')
          | _ => Ok st0
          end
    | Raise e => Raise e
    end = Ok st' -> exists rest', J (ns st') (pending st') rest').
  { destruct (consume_positionals run_sub ((arg, t) :: tl) st)
      as [[r s]|e] eqn:Hc; [|discriminate].
    apply positionals_keep in Hc; [|exact Hj].
    cbn [fst snd]. destruct (_ <? _)%nat.
    { intros H. apply IH in H; auto. }
    cbv zeta. apply skip_keeps in Hc.
    set (skipped := count_while _ _) in *.
    destruct (skipn skipped r) as [|[arg' [| |action os e]] tl'] eqn:Hsk;
      try (intros [= <-]; cbn [ns pending]; eauto).
    destruct (consume_optional _ _ _ _ _ _ _) as [[r' s']|e'] eqn:Ho;
      [|discriminate].
    apply optional_keeps in Ho; [|exact Hc].
    simpl. intros H. apply IH in H; auto. }
  destruct t as [| |action os e]; [exact Hpos|exact Hpos|].
  destruct (consume_optional _ _ _ _ _ _ _) as [[r' s']|e'] eqn:Ho;
    [|discriminate].
  apply optional_keeps in Ho; [|exact Hj].
  simpl. intros H. apply IH in H; auto.
Qed.
End LoopJoint.

(** *** The strings as they were classified *)

Lemma parse_optional_not_D opts a t : _parse_optional opts a = Ok t -> t <> TagD.
Proof.
  unfold _parse_optional. destruct a as [|c0 tl]; [intros [= <-]; discriminate|].
  destruct (negb (Ascii.eqb c0 "-")); [intros [= <-]; discriminate|].
  destruct (assoc _ opts); [intros [= <-]; discriminate|].
  destruct tl as [|c1 tl']; [intros [= <-]; discriminate|].
  assert (Htuples :
    match _get_option_tuples opts (String c0 (String c1 tl')) with
    | [] =>
        if is_negative_number (String c0 (String c1 tl'))
           && negb (existsb (fun oa => is_negative_number (fst oa)) opts)
        then Ok TagA
        else if contains_char " " (String c0 (String c1 tl')) then Ok TagA
        else Ok (TagO None (String c0 (String c1 tl')) None)
    | [(a, os, e)] => Ok (TagO (Some a) os e)
    | _ :: _ :: _ => Raise (exit_error "ambiguous option")
    end = Ok t -> t <> TagD).
  { destruct (_get_option_tuples opts _) as [|[[x os] e] [|y l]];
      try discriminate.
    - destruct (_ && _); [intros [= <-]; discriminate|].
      destruct (contains_char _ _); intros [= <-]; discriminate.
    - intros [= <-]. discriminate. }
  destruct (split_eq (String c0 (String c1 tl'))) as [[os e]|];
    [|exact Htuples].
  destruct (assoc os opts); [intros [= <-]; discriminate|exact Htuples].
Qed.

Lemma classify_fresh opts args tagged :
  classify opts args = Ok tagged -> fresh tagged.
Proof.
  revert tagged. induction args as [|a tl IH]; intros tagged; cbn [classify].
  - intros [= <-]. exact I.
  - destruct (String.eqb_spec a "--") as [->|Hne].
    + intros [= <-]. split; [reflexivity|].
      apply Forall_forall. intros x Hx. apply list_elem_of_In in Hx.
      apply in_map_iff in Hx as (y & <- & _). reflexivity.
    + destruct (_parse_optional opts a) as [t|e] eqn:Ht; [|discriminate].
      cbn [bind]. destruct (classify opts tl) as [r|e]; [|discriminate].
      cbn [bind]. intros [= <-].
      pose proof (parse_optional_not_D _ _ _ Ht) as Hd.
      destruct t as [| |action os e]; cbn [fresh]; auto. contradiction.
Qed.

Lemma all_A_count_D (l : list (string * tag)) :
  Forall (fun x => snd x = TagA) l -> count_while is_D (map snd l) = 0.
Proof. destruct 1 as [|[s t] tl Ht _]; [reflexivity|]. simpl in *. rewrite Ht. reflexivity. Qed.

Lemma all_A_skip (l : list (string * tag)) :
  Forall (fun x => snd x = TagA) l ->
  skipn (count_while (fun t => negb (is_option t)) (map snd l)) l = [].
Proof.
  induction 1 as [|[s t] tl Ht _ IH]; [reflexivity|].
  simpl in *. rewrite Ht. simpl. exact IH.
Qed.

Lemma fresh_skip rest :
  fresh rest ->
  fresh (skipn (count_while (fun t => negb (is_option t)) (map snd rest))
           rest).
Proof.
  induction rest as [|[s t] tl IH]; [auto|].
  destruct t as [| |action os e]; cbn [fresh map snd count_while is_option negb skipn].
  - intros [_ H]. apply IH, H.
  - intros [_ H]. rewrite (all_A_skip _ H). exact I.
  - auto.
Qed.

Lemma fresh_skip_A rest :
  fresh rest -> fresh (skipn (count_while is_A (map snd rest)) rest).
Proof.
  induction rest as [|[s t] tl IH]; [auto|].
  destruct t as [| |action os e]; cbn [fresh map snd count_while is_A skipn];
    auto.
  intros [_ H]. apply IH, H.
Qed.

Lemma consume_optional_fresh opts action os e arg tl st rest' st' :
  fresh tl ->
  consume_optional opts action os e arg tl st = Ok (rest', st') ->
  fresh rest'.
Proof.
  intros Hf. unfold consume_optional.
  destruct action as [[opt_strings dest nargs default|opt_strings]|].
  - destruct e as [e|]; [intros [= <- _]; exact Hf|].
    destruct nargs.
    + destruct tl as [|[s [| |? ? ?]] tl']; try discriminate.
      intros [= <- _]. destruct Hf as [_ Hf]. exact Hf.
    + intros [= <- _]. apply fresh_skip_A, Hf.
  - destruct e as [e|]; [|discriminate].
    destruct (single_dash os); discriminate.
  - intros [= <- _]. exact Hf.
Qed.

(** *** The first positional *)

Lemma fold_candidates (f : nat -> option (list nat)) (l : list nat) c cs :
  fold_right (fun n later =>
                match f n with
                | Some r => Some (n :: r)
                | None => later
                end) None l = Some (c :: cs) ->
  In c l.
Proof.
  induction l as [|n tl IH]; simpl; [discriminate|].
  destruct (f n); [intros [= <- _]; auto|]. auto.
Qed.

Lemma match_all_first p ps ts c cs :
  match_all (p :: ps) ts = Some (c :: cs) -> In c (candidates p ts).
Proof. cbn [match_all]. apply fold_candidates. Qed.

Lemma match_partial_first i p ps ts c cs :
  match_partial i (p :: ps) ts = c :: cs -> In c (candidates p ts).
Proof.
  induction i as [|i IH]; cbn [match_partial]; [discriminate|].
  destruct (match_all (firstn (S i) (p :: ps)) ts) as [r|] eqn:Hm.
  - intros ->. cbn [firstn] in Hm. eapply match_all_first, Hm.
  - exact IH.
Qed.

(** One word is what the first positional takes, with the separator
    that may stand before or after it, and the separator is dropped. *)
Lemma first_word rest c :
  fresh rest -> In c (candidates PatOne (map snd rest)) ->
  exists s, remove_first "--" (map fst (firstn c rest)) = [s].
Proof.
  destruct rest as [|[s t] tl]; [intros _ []|].
  destruct t as [| |action os e]; cbn [fresh]; [| |intros _ []].
  - intros [Hs Htl]. cbn [map snd candidates count_while is_D skipn].
    assert (Hone : remove_first "--" [s] = [s]).
    { cbn [remove_first].
      destruct (String.eqb_spec "--" s); [congruence|reflexivity]. }
    destruct tl as [|[s2 t2] tl2].
    { intros [<-|[]]. exists s. exact Hone. }
    destruct t2 as [| |action os e]; cbn [map snd count_while is_D down_from].
    + intros [<-|[]]. exists s. exact Hone.
    + destruct Htl as [-> Hall]. rewrite (all_A_count_D _ Hall).
      cbn [down_from Nat.add]. intros [<-|[<-|[]]]; exists s.
      * cbn [firstn map fst remove_first].
        destruct (String.eqb_spec "--" s); [congruence|reflexivity].
      * exact Hone.
    + intros [<-|[]]. exists s. exact Hone.
  - intros [-> Hall]. cbn [map snd candidates count_while is_D].
    rewrite (all_A_count_D _ Hall). cbn [skipn].
    destruct Hall as [|[s2 t2] tl2 Ht2 Hall]; [intros []|].
    simpl in Ht2. subst t2. cbn [map snd].
    rewrite skipn_O, (all_A_count_D _ Hall).
    cbn [down_from Nat.add]. intros [<-|[]]. exists s2. reflexivity.
Qed.

Section FirstPositional.
Variable run_sub :
  list argument -> list string -> result (Namespace * list string).
Variable d : string.
Variable dflt : pyval.
Variable others : list positional.
Hypothesis others_keep : Forall (keeps run_sub d) others.

Lemma consume_counts_keeps counts :
  forall rest st rest' st',
    Forall (keeps run_sub d) (pending st) ->
    consume_counts run_sub counts rest st = Ok (rest', st') ->
    ns st' !! d = ns st !! d /\ Forall (keeps run_sub d) (pending st').
Proof.
  induction counts as [|c counts IH]; intros rest st rest' st' Hp; simpl.
  - intros [= _ <-]. auto.
  - destruct st as [n ex pend]. cbn [pending ns extras] in *.
    destruct pend as [|p pend]; [intros [= _ <-]; auto|].
    inversion Hp as [|? ? Hp1 Hp2]; subst.
    destruct (take_positional run_sub p _ n ex) as [r|e] eqn:Ht;
      [|discriminate].
    cbn [bind]. intros H. apply IH in H as [Hk Hp']; [|exact Hp2].
    cbn [ns] in Hk. rewrite Hk. split; [|exact Hp']. eapply Hp1, Ht.
Qed.

Lemma first_inv_positionals rest st rest' st' :
  first_inv run_sub d dflt others (ns st) (pending st) rest ->
  consume_positionals run_sub rest st = Ok (rest', st') ->
  first_inv run_sub d dflt others (ns st') (pending st') rest'.
Proof.
  intros [Htags Hcase] Hc. split.
  { eapply consume_counts_rest; [exact Htags|exact Hc]. }
  unfold consume_positionals in Hc. destruct Hcase as [[Hp Hf]|[Hs Hp]].
  - rewrite Hp in Hc. cbn [map pattern_of length] in Hc.
    destruct (match_partial _ _ _) as [|c cs] eqn:Hm.
    { cbn in Hc. injection Hc as <- <-. left. auto. }
    apply match_partial_first in Hm.
    destruct (first_word rest c Hf Hm) as [s Hs].
    destruct st as [n ex pend]. cbn [pending ns extras] in *. subst pend.
    cbn [consume_counts pending take_positional bind fst snd ns extras] in Hc.
    apply consume_counts_keeps in Hc as [Hk Hp']; [|exact others_keep].
    right. split; [|exact Hp']. exists s. rewrite Hk. cbn [ns].
    rewrite lookup_insert_eq. unfold _get_values. rewrite Hs. reflexivity.
  - apply consume_counts_keeps in Hc as [Hk Hp']; [|exact Hp].
    right. split; [|exact Hp']. destruct Hs as [s Hs]. exists s.
    rewrite Hk. exact Hs.
Qed.

Lemma first_inv_optional opts action os e arg tl st rest' st' :
  first_inv run_sub d dflt others (ns st) (pending st)
    ((arg, TagO action os e) :: tl) ->
  consume_optional opts action os e arg tl st = Ok (rest', st') ->
  first_inv run_sub d dflt others (ns st') (pending st') rest'.
Proof.
  intros [Htags Hcase] Ho. inversion Htags as [|? ? Ht Htl]; subst.
  cbn [snd] in Ht.
  pose proof Ho as Ho'.
  apply (consume_optional_frame d) in Ho as (Hk & Hp & Hr); auto.
  split; [exact Hr|]. rewrite Hp. destruct Hcase as [[Hpe Hf]|[[s Hs] Hpk]].
  - left. split; [exact Hpe|].
    eapply consume_optional_fresh; [|exact Ho']. exact Hf.
  - right. split; [|exact Hpk]. exists s. rewrite Hk. exact Hs.
Qed.

Lemma first_inv_skip n p rest :
  first_inv run_sub d dflt others n p rest ->
  first_inv run_sub d dflt others n p
    (skipn (count_while (fun t => negb (is_option t)) (map snd rest)) rest).
Proof.
  intros [Htags Hcase]. split; [apply Forall_skipn, Htags|].
  destruct Hcase as [[Hp Hf]|H]; [left|right; exact H].
  split; [exact Hp|]. apply fresh_skip, Hf.
Qed.

(** The first positional of a parser, when it takes one word, ends as
    a string whenever the command line is accepted. *)
Lemma first_positional_str p args n ex :
  positionals_of p = PosStore d NargsOne dflt :: others ->
  (forall s a, In (s, a) (option_string_actions (actions p)) ->
               act_avoids d a) ->
  parse_known_args run_sub p args = Ok (n, ex) -> holds_str n d.
Proof.
  intros Hpos Hopts. unfold parse_known_args.
  destruct (classify _ args) as [tagged|e] eqn:Hc; [|discriminate].
  cbn [bind].
  destruct (parse_loop _ _ _ _ _) as [st|e] eqn:Hl; [|discriminate].
  cbn [bind].
  destruct (existsb required (pending st)) eqn:Hreq; [discriminate|].
  intros [= <- _].
  apply (parse_loop_joint run_sub _ (first_inv run_sub d dflt others)) in Hl.
  - destruct Hl as (rest' & _ & [[Hp _]|[Hs _]]); [|exact Hs].
    rewrite Hp in Hreq. discriminate Hreq.
  - apply first_inv_positionals.
  - intros. eapply first_inv_optional; eauto.
  - apply first_inv_skip.
  - split.
    + eapply classify_avoids; [|exact Hc]. exact Hopts.
    + left. cbn [pending]. split; [exact Hpos|].
      eapply classify_fresh, Hc.
Qed.
End FirstPositional.

(** *** The parsers of the sub-commands *)

Lemma pos_avoids_keeps run_sub k p : pos_avoids k p -> keeps run_sub k p.
Proof.
  destruct p as [dest nargs default|sp]; [|intros []].
  intros Hne args n ex r. cbn [take_positional]. intros [= <-].
  apply lookup_insert_ne. exact Hne.
Qed.

(** No attribute is ever removed. *)
Lemma consume_counts_has run_sub k counts :
  forall rest st rest' st',
    is_Some (ns st !! k) ->
    consume_counts run_sub counts rest st = Ok (rest', st') ->
    is_Some (ns st' !! k).
Proof.
  induction counts as [|c counts IH]; intros rest st rest' st' Hi; simpl.
  - intros [= _ <-]. exact Hi.
  - destruct st as [n ex pend]. cbn [pending ns extras] in *.
    destruct pend as [|p pend]; [intros [= _ <-]; exact Hi|].
    destruct (take_positional run_sub p _ n ex) as [r|e] eqn:Ht;
      [|discriminate].
    cbn [bind]. intros H. eapply IH; [|exact H]. cbn [ns].
    destruct p as [dest nargs default|sp]; cbn [take_positional] in Ht.
    + injection Ht as <-. cbn [fst].
      destruct (decide (dest = k)) as [->|Hne].
      * rewrite lookup_insert_eq. eauto.
      * rewrite lookup_insert_ne by exact Hne. exact Hi.
    + destruct (map fst _) as [|c0 rest0]; [discriminate|].
      destruct (assoc c0 (sp_choices sp)); [|discriminate].
      destruct (run_sub _ _) as [sub|e]; [|discriminate].
      injection Ht as <-. cbn [fst].
      apply lookup_union_is_Some. right.
      destruct (decide (sp_dest sp = k)) as [->|Hne].
      * rewrite lookup_insert_eq. eauto.
      * rewrite lookup_insert_ne by exact Hne. exact Hi.
Qed.

Lemma consume_optional_has k opts action os e arg tl st rest' st' :
  is_Some (ns st !! k) ->
  consume_optional opts action os e arg tl st = Ok (rest', st') ->
  is_Some (ns st' !! k).
Proof.
  intros Hi. unfold consume_optional.
  destruct action as [[opt_strings dest nargs default|opt_strings]|].
  - assert (Hins : forall v, is_Some (<[dest := v]> (ns st) !! k)).
    { intros v. destruct (decide (dest = k)) as [->|Hne].
      - rewrite lookup_insert_eq. eauto.
      - rewrite lookup_insert_ne by exact Hne. exact Hi. }
    destruct e as [e|]; [intros [= _ <-]; apply Hins|].
    destruct nargs.
    + destruct tl as [|[s [| |? ? ?]] tl']; try discriminate.
      intros [= _ <-]. apply Hins.
    + intros [= _ <-]. apply Hins.
  - destruct e as [e|]; [|discriminate].
    destruct (single_dash os); discriminate.
  - intros [= _ <-]. exact Hi.
Qed.

Lemma parse_known_args_has run_sub k p args n ex :
  is_Some (defaults p !! k) ->
  parse_known_args run_sub p args = Ok (n, ex) -> is_Some (n !! k).
Proof.
  intros Hk. unfold parse_known_args.
  destruct (classify _ args) as [tagged|e] eqn:Hc; [|discriminate].
  cbn [bind].
  destruct (parse_loop _ _ _ _ _) as [st|e] eqn:Hl; [|discriminate].
  cbn [bind].
  destruct (existsb required (pending st)); [discriminate|].
  intros [= <- _].
  apply (parse_loop_invariant run_sub _ (fun n _ => is_Some (n !! k))
           (fun _ => True)) in Hl; auto.
  - intros rest st0 rest' st' Hi _ Hcc. split.
    + eapply consume_counts_has; [exact Hi|exact Hcc].
    + apply Forall_forall. auto.
  - intros action os e arg tl st0 rest' st' Hi _ _ Ho. split.
    + eapply consume_optional_has; [exact Hi|exact Ho].
    + apply Forall_forall. auto.
  - apply Forall_forall. auto.
Qed.

Ltac options_avoid :=
  let s := fresh "s" in
  let a := fresh "a" in
  let H := fresh "H" in
  intros s a H; cbn in H;
  repeat (destruct H as [H|H]; [injection H as <- <-; cbn; try exact I;
                                discriminate|]);
  destruct H.

Lemma subparser_address_str rest sub :
  run_subparser balance_actions rest = Ok sub ->
  holds_str (fst sub) "address" /\ is_Some (fst sub !! "block_identifier").
Proof.
  destruct sub as [n ex]. unfold run_subparser. intros H. split.
  - refine (first_positional_str no_subparser "address" PNone []
              (@List.Forall_nil _ _)
              {| actions := balance_actions; subparsers := None |}
              rest n ex eq_refl _ H).
    options_avoid.
  - eapply parse_known_args_has; [|exact H]. vm_compute. eauto.
Qed.

Lemma take_params args n ex r :
  take_positional no_subparser params_positional args n ex = Ok r ->
  holds_strs (fst r) "params".
Proof.
  cbn [take_positional params_positional]. intros [= <-]. cbn [fst].
  unfold holds_strs, _get_values. rewrite lookup_insert_eq.
  destruct (remove_first "--" args) as [|x l].
  - exists []. reflexivity.
  - exists (x :: l). reflexivity.
Qed.

Lemma consume_counts_call counts :
  forall rest st rest' st',
    call_inv (ns st) (pending st) ->
    consume_counts no_subparser counts rest st = Ok (rest', st') ->
    call_inv (ns st') (pending st').
Proof.
  induction counts as [|c counts IH]; intros rest st rest' st' Hi; simpl.
  - intros [= _ <-]. exact Hi.
  - destruct st as [n ex pend]. cbn [ns pending extras] in *.
    destruct Hi as [->|[->|[-> Hok]]].
    + cbn [method_positional take_positional bind fst snd].
      intros H. apply IH in H; [exact H|]. right. left. reflexivity.
    + destruct (take_positional _ _ _ _ _) as [r|e] eqn:Ht; [|discriminate].
      apply take_params in Ht. cbn [bind]. intros H.
      apply IH in H; [exact H|]. right. right. split; [reflexivity|exact Ht].
    + intros [= _ <-]. right. right. split; [reflexivity|exact Hok].
Qed.

Lemma subparser_call_strs rest sub :
  run_subparser call_actions rest = Ok sub ->
  holds_str (fst sub) "method" /\ holds_strs (fst sub) "params".
Proof.
  destruct sub as [n ex]. unfold run_subparser. intros H. split.
  - refine (first_positional_str no_subparser "method" PNone
              [params_positional] _
              {| actions := call_actions; subparsers := None |}
              rest n ex eq_refl _ H).
    + apply List.Forall_cons; [|exact (@List.Forall_nil _ _)].
      apply pos_avoids_keeps. discriminate.
    + options_avoid.
  - revert H. unfold parse_known_args.
    destruct (classify _ rest) as [tagged|e] eqn:Hc; [|discriminate].
    cbn [bind].
    destruct (parse_loop _ _ _ _ _) as [st|e] eqn:Hl; [|discriminate].
    cbn [bind].
    destruct (existsb required (pending st)) eqn:Hreq; [discriminate|].
    intros [= <- _].
    apply (parse_loop_invariant no_subparser _ call_inv
             (tag_avoids "params")) in Hl.
    + destruct Hl as [Hp|[Hp|[_ Hok]]]; [| |exact Hok];
        rewrite Hp in Hreq; discriminate Hreq.
    + intros rest0 st0 rest' st1 Hi Hr Hcc. split.
      * eapply consume_counts_call; eauto.
      * eapply consume_counts_rest; eauto.
    + intros action os e arg tl st0 rest' st1 Hi Ht Htl Ho.
      apply (consume_optional_frame "params") in Ho as (Hk & Hp & Hr); auto.
      split; [|exact Hr]. rewrite Hp.
      destruct Hi as [Hi|[Hi|[Hi [l Hl']]]]; [left|right; left|];
        try exact Hi.
      right. right. split; [exact Hi|]. exists l. rewrite Hk. exact Hl'.
    + left. reflexivity.
    + eapply classify_avoids; [|exact Hc]. options_avoid.
Qed.

(** *** The top level *)

Lemma subcommand_cases c acts :
  assoc c subcommands = Some acts ->
  (c = "info" /\ acts = new_parser) \/
  (In c address_commands /\ acts = balance_actions) \/
  (c = "call" /\ acts = call_actions).
Proof.
  cbn [subcommands cli_parser subparsers sp_choices assoc].
  destruct (String.eqb_spec c "info") as [->|_].
  { intros [= <-]. left. auto. }
  destruct (String.eqb_spec c "balance") as [->|_].
  { intros [= <-]. right. left. split; [simpl; auto|reflexivity]. }
  destruct (String.eqb_spec c "tx-count") as [->|_].
  { intros [= <-]. right. left. split; [simpl; auto|reflexivity]. }
  destruct (String.eqb_spec c "call") as [->|_].
  { intros [= <-]. right. right. auto. }
  discriminate.
Qed.

Lemma subcommand_avoids k c acts :
  k = "endpoint" \/ k = "command" ->
  assoc c subcommands = Some acts -> Forall (act_avoids k) acts.
Proof.
  intros Hk Hc.
  destruct (subcommand_cases c acts Hc) as [[_ ->]|[[_ ->]|[_ ->]]];
    destruct Hk as [->| ->]; repeat constructor; discriminate.
Qed.

Lemma subcommand_keeps_endpoint :
  keeps run_subparser "endpoint" (PosParser command_action).
Proof.
  intros args n ex r. cbn [take_positional command_action sp_choices sp_dest].
  destruct args as [|c rest]; [discriminate|].
  destruct (assoc c subcommands) as [acts|] eqn:Hc; [|discriminate].
  destruct (run_subparser acts rest) as [sub|e] eqn:Hsub; [|discriminate].
  cbn [bind]. intros [= <-]. cbn [fst].
  apply (run_subparser_frame "endpoint") in Hsub;
    [|eapply subcommand_avoids; eauto].
  rewrite lookup_union_r by exact Hsub.
  apply lookup_insert_ne. discriminate.
Qed.

Lemma union_holds_str (sub n : Namespace) k :
  holds_str sub k -> holds_str (sub ∪ n) k.
Proof.
  intros [s Hs]. exists s. apply lookup_union_Some_l. exact Hs.
Qed.

Lemma union_holds_strs (sub n : Namespace) k :
  holds_strs sub k -> holds_strs (sub ∪ n) k.
Proof.
  intros [l Hl]. exists l. apply lookup_union_Some_l. exact Hl.
Qed.

(** Selecting the sub-command leaves all that its branch reads. *)
Lemma take_subcommand_ready args (n : Namespace) ex r :
  take_positional run_subparser (PosParser command_action) args n ex = Ok r ->
  command_ready (fst r).
Proof.
  cbn [take_positional command_action sp_choices sp_dest].
  destruct args as [|c rest]; [discriminate|].
  destruct (assoc c subcommands) as [acts|] eqn:Hc; [|discriminate].
  destruct (run_subparser acts rest) as [sub|e] eqn:Hsub; [|discriminate].
  cbn [bind]. intros [= <-]. cbn [fst]. exists c. split.
  - pose proof Hsub as Hframe.
    apply (run_subparser_frame "command") in Hframe;
      [|eapply subcommand_avoids; eauto].
    rewrite lookup_union_r by exact Hframe. apply lookup_insert_eq.
  - destruct (subcommand_cases c acts Hc) as [[-> _]|[[Hin ->]|[-> ->]]].
    + left. reflexivity.
    + right. left. apply subparser_address_str in Hsub as [Ha Hb].
      split; [exact Hin|]. split; [apply union_holds_str, Ha|].
      apply lookup_union_is_Some. left. exact Hb.
    + right. right. apply subparser_call_strs in Hsub as [Hm Hp].
      split; [reflexivity|].
      split; [apply union_holds_str, Hm|apply union_holds_strs, Hp].
Qed.

Lemma consume_counts_ready counts :
  forall rest st rest' st',
    ready_inv (ns st) (pending st) ->
    consume_counts run_subparser counts rest st = Ok (rest', st') ->
    ready_inv (ns st') (pending st').
Proof.
  induction counts as [|c counts IH]; intros rest st rest' st' Hi; simpl.
  - intros [= _ <-]. exact Hi.
  - destruct st as [n ex pend]. cbn [ns pending extras] in *.
    destruct Hi as [->|[->|[-> Hok]]].
    + cbn [positionals_of cli_parser actions subparsers flat_map app
             new_parser add_argument take_positional bind fst snd].
      intros H. apply IH in H; [exact H|]. right. left. reflexivity.
    + change (tl (positionals_of cli_parser))
        with [PosParser command_action].
      cbv beta iota.
      destruct (take_positional _ _ _ _ _) as [r|e] eqn:Ht; [|discriminate].
      apply take_subcommand_ready in Ht.
      cbn [bind]. intros H. apply IH in H; [exact H|].
      right. right. split; [reflexivity|exact Ht].
    + intros [= _ <-]. right. right. split; [reflexivity|exact Hok].
Qed.

Lemma consume_optional_inert opts action os e arg tl st rest' st' :
  no_store (TagO action os e) ->
  consume_optional opts action os e arg tl st = Ok (rest', st') ->
  ns st' = ns st /\ pending st' = pending st /\ rest' = tl.
Proof.
  unfold consume_optional.
  destruct action as [[opt_strings dest nargs default|opt_strings]|];
    [intros []| |].
  - intros _. destruct e as [e|]; [|discriminate].
    destruct (single_dash os); discriminate.
  - intros _ [= <- <-]. auto.
Qed.

Lemma avoids_all_no_store t : (forall k, tag_avoids k t) -> no_store t.
Proof.
  destruct t as [| |[[os d nargs dflt|os]|] s e]; try (intros _; exact I).
  intros H. apply (H d). reflexivity.
Qed.

Lemma classify_top_no_store argv tagged :
  classify (option_string_actions (actions cli_parser)) argv = Ok tagged ->
  Forall (fun x => no_store (snd x)) tagged.
Proof.
  intros Hc. apply Forall_forall. intros x Hx.
  apply avoids_all_no_store. intros k.
  assert (Hall : Forall (fun x => tag_avoids k (snd x)) tagged).
  { eapply classify_avoids; [|exact Hc]. options_avoid. }
  rewrite Forall_forall in Hall. apply Hall, Hx.
Qed.

Lemma parse_args_command_ready argv args :
  parse_args argv = Ok args -> command_ready args.
Proof.
  unfold parse_args, ArgumentParser_parse_args, parse_known_args.
  destruct (classify _ argv) as [tagged|e] eqn:Hc; [|discriminate].
  cbn [bind].
  destruct (parse_loop _ _ _ _ _) as [st|e] eqn:Hl; [|discriminate].
  cbn [bind].
  destruct (existsb required (pending st)) eqn:Hreq; [discriminate|].
  cbn [bind fst snd]. destruct (extras st); [|discriminate].
  intros [= <-].
  apply (parse_loop_invariant run_subparser _ ready_inv no_store) in Hl.
  - destruct Hl as [Hp|[Hp|[_ Hok]]]; [| |exact Hok];
      rewrite Hp in Hreq; discriminate Hreq.
  - intros rest st0 rest' st1 Hi Hr Hcc. split.
    + eapply consume_counts_ready; eauto.
    + eapply consume_counts_rest; eauto.
  - intros action os e arg tl st0 rest' st1 Hi Ht Htl Ho.
    apply consume_optional_inert in Ho as (Hn & Hp & ->); [|exact Ht].
    rewrite Hn, Hp. auto.
  - left. reflexivity.
  - eapply classify_top_no_store, Hc.
Qed.

Lemma parse_args_endpoint argv args :
  parse_args argv = Ok args -> holds_str args "endpoint".
Proof.
  unfold parse_args, ArgumentParser_parse_args.
  destruct (parse_known_args run_subparser cli_parser argv) as [[n ex]|e]
    eqn:Hp; [|discriminate].
  cbn [bind fst snd]. destruct ex; [|discriminate]. intros [= <-].
  refine (first_positional_str run_subparser "endpoint" PNone
            [PosParser command_action] _ cli_parser argv n [] eq_refl _ Hp).
  - apply List.Forall_cons; [|exact (@List.Forall_nil _ _)].
    apply subcommand_keeps_endpoint.
  - options_avoid.
Qed.

(** X24.  Whatever the command line, once accepted it gives every attribute
    its branch of [run_cli] reads: the endpoint as a string, the command
    as one of the four names, and with it the address as a string and a
    block, or the method as a string and the parameters as a list of
    strings. *)
Theorem parse_args_ready argv args :
  parse_args argv = Ok args -> branch_ready args.
Proof.
  intros H. split;
    [eapply parse_args_endpoint|eapply parse_args_command_ready]; exact H.
Qed.

Lemma parse_args_ready_witness : branch_ready sample_args.
Proof. apply (parse_args_ready sample_argv sample_args). reflexivity. Defined.

(** ** The requests of a run *)

Lemma sends_silent {A} (m : io A) :
  (forall w r w', m w = (r, w') -> dispatched w' = dispatched w) ->
  sends m 0.
Proof.
  intros H w r w' Hm. exists []. rewrite app_nil_r. split; [eauto|].
  simpl. lia.
Qed.

Lemma sends_ret {A} (a : A) : sends (ret a) 0.
Proof. apply sends_silent. intros w r w' [= _ <-]. reflexivity. Qed.

Lemma sends_raise {A} (e : exc) : sends (@raise A e) 0.
Proof. apply sends_silent. intros w r w' [= _ <-]. reflexivity. Qed.

Lemma sends_lift {A} (x : result A) : sends (lift x) 0.
Proof. apply sends_silent. intros w r w' [= _ <-]. reflexivity. Qed.

Lemma sends_print text : sends (print text) 0.
Proof. apply sends_silent. intros w r w' [= _ <-]. reflexivity. Qed.

Lemma sends_getattr args name : sends (getattr args name) 0.
Proof.
  unfold getattr. destruct (args !! name); [apply sends_ret|apply sends_raise].
Qed.

Lemma sends_dispatch {A} (q : request) (answer : result A) :
  sends (dispatch q answer) 1.
Proof.
  intros w r w' [= _ <-]. exists [q]. split; [reflexivity|]. simpl. lia.
Qed.

Lemma sends_bind {A B} (m : io A) (k : A -> io B) a b :
  sends m a -> (forall x, sends (k x) b) -> sends (io_bind m k) (a + b).
Proof.
  intros Hm Hk w r w'. unfold io_bind.
  destruct (m w) as [[x|e] w1] eqn:E; intros H.
  - destruct (Hm _ _ _ E) as (l1 & H1 & Hl1).
    destruct (Hk x _ _ _ H) as (l2 & H2 & Hl2).
    exists (l1 ++ l2). rewrite H2, H1, app_assoc. split; [reflexivity|].
    rewrite length_app. lia.
  - injection H as <- <-. destruct (Hm _ _ _ E) as (l1 & H1 & Hl1).
    exists l1. split; [exact H1|]. lia.
Qed.

Lemma sends_more {A} (m : io A) a b : sends m a -> a <= b -> sends m b.
Proof.
  intros Hm Hab w r w' H. destruct (Hm _ _ _ H) as (l & Hl & Hlen).
  exists l. split; [exact Hl|]. lia.
Qed.

Section RequestFacts.
Variable ext : Externals.

Ltac sends_steps :=
  repeat first
    [ apply sends_ret | apply sends_raise | apply sends_lift
    | apply sends_print | apply sends_getattr | apply sends_dispatch
    | eapply sends_bind; [|intros ?] ].

Lemma run_info_sends client : sends (run_info ext client) 2.
Proof.
  unfold run_info, chain_id, block_number.
  eapply sends_more; [sends_steps|]. simpl. lia.
Qed.

Lemma run_balance_sends client args : sends (run_balance ext client args) 2.
Proof.
  unfold run_balance, get_balance.
  eapply sends_more; [sends_steps|]. simpl. lia.
Qed.

Lemma run_tx_count_sends client args :
  sends (run_tx_count ext client args) 2.
Proof.
  unfold run_tx_count, get_transaction_count.
  eapply sends_more; [sends_steps|]. simpl. lia.
Qed.

Lemma run_call_sends client args : sends (run_call ext client args) 2.
Proof.
  unfold run_call, call_method.
  eapply sends_more; [sends_steps|]. simpl. lia.
Qed.

Lemma dispatch_command_sends client args :
  sends (dispatch_command ext client args) 2.
Proof.
  unfold dispatch_command.
  change 2 with (0 + 2). apply sends_bind; [apply sends_getattr|].
  intros command.
  destruct (eq_str command "info"); [apply run_info_sends|].
  destruct (eq_str command "balance"); [apply run_balance_sends|].
  destruct (eq_str command "tx-count"); [apply run_tx_count_sends|].
  destruct (eq_str command "call"); [apply run_call_sends|].
  eapply sends_more; [apply sends_raise|]. lia.
Qed.

(** X25.  Every accepted command line makes [run_cli] probe the endpoint
    before anything else, and send at most two requests after the
    probe (none when the endpoint is unreachable). *)
Theorem run_cli_requests argv args w :
  parse_args argv = Ok args ->
  exists url l,
    args !! "endpoint" = Some (PStr url) /\
    dispatched (snd (run_cli ext argv w))
    = dispatched w ++ ReqIsConnected :: l /\
    length l <= 2 /\
    (w3_is_connected (HTTPProvider ext url None) = false -> l = []).
Proof.
  intros Hp. destruct (parse_args_endpoint argv args Hp) as [url Hu].
  exists url. rewrite (run_cli_run ext argv args w Hp).
  rewrite (connect_run ext args url w Hu).
  destruct (w3_is_connected (HTTPProvider ext url None)).
  - destruct (dispatch_command ext _ args _) as [r w'] eqn:Hd.
    destruct (dispatch_command_sends _ _ _ _ _ Hd) as (l & Hl & Hlen).
    exists l. cbn [snd]. rewrite Hl. cbn [dispatched].
    rewrite <- app_assoc.
    split; [exact Hu|]. split; [reflexivity|]. split; [exact Hlen|].
    discriminate.
  - exists []. cbn [snd dispatched].
    split; [exact Hu|]. split; [reflexivity|]. split; [simpl; lia|].
    reflexivity.
Qed.
End RequestFacts.

Lemma run_cli_requests_witness :
  exists url l,
    sample_args !! "endpoint" = Some (PStr url) /\
    dispatched (snd (run_cli sample_externals sample_argv empty_world))
    = dispatched empty_world ++ ReqIsConnected :: l /\
    length l <= 2 /\
    (w3_is_connected (HTTPProvider sample_externals url None) = false ->
     l = []).
Proof.
  apply (run_cli_requests sample_externals sample_argv sample_args
           empty_world). reflexivity.
Defined.

(** ** [_load_params]: decimal integers *)

From Stdlib Require DecimalFacts DecimalPos.








(** ** The account that is asked about *)

Section AccountFacts.
Variable ext : Externals.

(** X27.  The address the two queries send is the address that was given:
    the same forty hex digits up to their case, after [0x]. *)
Theorem queries_same_account client address block w :
  is_hex_address address = true ->
  exists c,
    dispatched (snd (get_balance ext client address block w))
    = dispatched w ++ [ReqGetBalance c block] /\
    dispatched (snd (get_transaction_count ext client address block w))
    = dispatched w ++ [ReqGetTransactionCount c block] /\
    String.length c = 42 /\
    String.prefix "0x" c = true /\
    str_lower (remove_0x_prefix c) = str_lower (remove_0x_prefix address).
Proof.
  intros Hv. pose proof Hv as Hv'. unfold is_hex_address in Hv'.
  apply andb_true_iff in Hv' as [_ Hlen]. apply Nat.eqb_eq in Hlen.
  set (norm := str_lower (remove_0x_prefix address)).
  exists ("0x" +:+ checksum_case norm (keccak_hex ext norm)).
  rewrite get_balance_run, get_transaction_count_run.
  rewrite (to_checksum_address_valid ext address Hv). fold norm.
  split.
  { destruct (w3_get_balance _ _ _) as [n|e]; [|reflexivity].
    destruct (from_wei n "ether"); reflexivity. }
  split; [reflexivity|]. split.
  { change (String.length ("0x" +:+ checksum_case norm (keccak_hex ext norm)))
      with (S (S (String.length (checksum_case norm (keccak_hex ext norm))))).
    rewrite checksum_case_length. unfold norm.
    rewrite str_lower_length, Hlen. reflexivity. }
  split.
  { apply String.prefix_correct.
    destruct (checksum_case norm (keccak_hex ext norm)); reflexivity. }
  change (remove_0x_prefix ("0x" +:+ checksum_case norm (keccak_hex ext norm)))
    with (checksum_case norm (keccak_hex ext norm)).
  rewrite checksum_case_lower. unfold norm. apply str_lower_idem.
Qed.
End AccountFacts.

Lemma queries_same_account_witness :
  exists c,
    dispatched (snd (get_balance sample_externals sample_client
                       sample_address (PStr "latest") empty_world))
    = dispatched empty_world ++ [ReqGetBalance c (PStr "latest")] /\
    dispatched (snd (get_transaction_count sample_externals sample_client
                       sample_address (PStr "latest") empty_world))
    = dispatched empty_world ++ [ReqGetTransactionCount c (PStr "latest")] /\
    String.length c = 42 /\
    String.prefix "0x" c = true /\
    str_lower (remove_0x_prefix c)
    = str_lower (remove_0x_prefix sample_address).
Proof.
  apply (queries_same_account sample_externals sample_client sample_address
           (PStr "latest") empty_world). reflexivity.
Defined.

(** ** [_normalise] on plain JSON *)

(** X28.  A value that is plain JSON already (no byte string, no
    [AttributeDict], no float, no other object) is returned as it is. *)
Theorem normalise_plain (v : pyval) :
  json_plain v = true -> _normalise v = Ok v.
Proof.
  induction v as [| | | | | | |items IH|items IH|items IH|items IH|cls h]
    using pyval_ind; intros Hv; try discriminate Hv; try reflexivity.
  - simpl in Hv. pose proof (forallb_Forall_imp _ _ _ IH Hv) as Hall.
    simpl. rewrite (mapM_fixed _ _ Hall). reflexivity.
  - simpl in Hv. pose proof (forallb_Forall_imp _ _ _ IH Hv) as Hall.
    simpl. rewrite (mapM_fixed _ _ Hall). reflexivity.
Qed.

Lemma normalise_plain_witness : _normalise plain_answer = Ok plain_answer.
Proof. apply (normalise_plain plain_answer). reflexivity. Defined.

(** ** [_load_params]: quoted parameters *)

Lemma scanstring_ordinary (s rest : string) :
  string_forallb ordinary s = true ->
  scanstring (s +:+ String dquote rest) = Some (s, rest).
Proof.
  induction s as [|c tl IH]; intros H.
  - cbn [String.append append scanstring].
    change (Ascii.eqb dquote dquote) with true. reflexivity.
  - cbn [string_forallb] in H. apply andb_true_iff in H as [Hc Htl].
    unfold ordinary in Hc.
    apply andb_true_iff in Hc as [Hc Hb]. apply andb_true_iff in Hc as [Hq Hl].
    apply negb_true_iff in Hq, Hl, Hb.
    change (String c tl +:+ String dquote rest)
      with (String c (tl +:+ String dquote rest)).
    cbn [scanstring]. rewrite Hq, Hl, Hb, (IH Htl). reflexivity.
Qed.

(** X29.  A parameter written between double quotes, with no quote,
    backslash or control character inside, is decoded to the text
    between the quotes: quoting keeps a number or a keyword a string. *)
Theorem load_param_quoted (text : string) :
  string_forallb ordinary text = true ->
  load_param (quoted text) = Ok (PStr text).
Proof.
  intros H. unfold load_param, json_loads, quoted.
  cbn [skip_ws].
  change (is_ws dquote) with false. cbv beta iota.
  cbn [String.length Nat.mul Nat.add scanstring scan_once].
  change (Ascii.eqb dquote dquote) with true. cbv beta iota.
  rewrite (scanstring_ordinary text EmptyString H). reflexivity.
Qed.

Lemma load_param_quoted_witness : load_param (quoted "42") = Ok (PStr "42").
Proof. apply (load_param_quoted "42"). reflexivity. Defined.

(** ** What [run_cli] does not catch *)

Section UncaughtFacts.
Variable ext : Externals.

(** X30.  Only the construction of the client is guarded: when the
    chain-id query of [info] raises, be it an [RPCConnectionError],
    [run_cli] raises the same exception after the probe and that one
    query; the block number is not asked for, nothing is printed and no
    status is returned. *)
Theorem run_cli_query_raises argv url e w :
  parse_args argv = Ok (info_args url) ->
  w3_is_connected (HTTPProvider ext url None) = true ->
  w3_chain_id (HTTPProvider ext url None) = Raise e ->
  run_cli ext argv w =
  (Raise e,
   World (dispatched w ++ [ReqIsConnected; ReqChainId]) (stdout w)
     (stderr w)).
Proof.
  intros Hp Hc He.
  rewrite (run_cli_run ext argv _ w Hp).
  rewrite (connect_run ext (info_args url) url w eq_refl), Hc.
  unfold dispatch_command, getattr, io_bind, ret.
  change (info_args url !! "command") with (Some (PStr "info")).
  cbn [eq_str String.eqb Ascii.eqb Bool.eqb].
  unfold run_info, io_bind, chain_id, dispatch. cbn [_web3 dispatched stdout stderr].
  rewrite He, <- app_assoc. reflexivity.
Qed.
End UncaughtFacts.

Lemma run_cli_query_raises_witness :
  run_cli failing_externals info_argv empty_world =
  (Raise (Exc RPCConnectionError "connection lost"),
   World [ReqIsConnected; ReqChainId] [] []).
Proof.
  apply (run_cli_query_raises failing_externals info_argv sample_url
           (Exc RPCConnectionError "connection lost") empty_world);
    reflexivity.
Defined.
